(** * Threshold estimators of the binary image generator (src/main.cpp)

    A shallow embedding of the six threshold estimators, of the
    benchmark harness and of the binarization loop of [main.cpp], built
    with [BIT_DEPTH = 8] as the source defines it.

    - Pixels and the C++ integer types are [Z], with the wrap-around of
      the unsigned types and the undefined overflow of [int] written
      out.
    - [float] and [double] are IEEE-754 binary32 and binary64, taken
      from [SpecFloat] of the standard library: round to nearest even,
      no contraction, no excess precision.
    - The pixel buffer behind [Pixel* greyscale] is a [list Z].  The
      estimators are programs of a state-and-fault monad over it, so
      that reads, writes, out-of-bounds accesses and undefined
      conversions show in the outcome.
    - [std::nth_element] and [std::pow] enter through their contracts
      (type classes), with one executable instance each.

    The first part is the model, function by function in the order of
    the source; the second part holds the properties. *)

From Stdlib Require Import ZArith Lia Bool.
From Stdlib Require Import Floats.SpecFloat.
From stdpp Require Import base list sorting.

Local Open Scope Z_scope.

(** ** Machine integers *)

Definition BIT_DEPTH : Z := 8.

(** [(1 << BIT_DEPTH)], the number of histogram bins, and
    [(1 << BIT_DEPTH) - 1], the largest [Pixel]. *)
Definition BINS : Z := Z.shiftl 1 BIT_DEPTH.
Definition PIXEL_MAX : Z := Z.shiftl 1 BIT_DEPTH - 1.

Definition INT_MIN : Z := - 2 ^ 31.
Definition INT_MAX : Z := 2 ^ 31 - 1.
Definition SIZE_MAX : Z := 2 ^ 64 - 1.

(** Conversion to [size_t] and to [Pixel]: reduction modulo 2^64 and
    modulo 2^BIT_DEPTH. *)
Definition to_size_t (n : Z) : Z := n mod 2 ^ 64.
Definition to_Pixel (n : Z) : Z := n mod 2 ^ BIT_DEPTH.

Definition is_Pixel (p : Z) : Prop := 0 <= p <= PIXEL_MAX.

(** ** Faults and results *)

Inductive fault : Type :=
  | OutOfBounds         (* read or write outside the buffer *)
  | SignedOverflow      (* [int] arithmetic leaving the range of [int] *)
  | DivisionByZero
  | FloatToInt          (* float converted to an integer that cannot hold it *)
  | BadRange            (* iterator range outside the buffer *)
  | OutOfFuel.          (* the loop did not finish: it runs forever *)

Inductive result (A : Type) : Type :=
  | Ok (a : A)
  | Fault (f : fault).
Arguments Ok {A} a.
Arguments Fault {A} f.

Definition int_mul (a b : Z) : result Z :=
  let p := a * b in
  if (INT_MIN <=? p) && (p <=? INT_MAX) then Ok p else Fault SignedOverflow.

(** ** Floating point: binary32 and binary64

    [F32.of_Z] is the conversion of an integer to [float]: exact when
    the integer has at most 24 significant bits, rounded to nearest
    even otherwise.  [F32.of_double] and [F64.of_float] convert between
    the two formats. *)

Module F32.
Definition prec : Z := 24.
Definition emax : Z := 128.
Definition of_Z (n : Z) : spec_float := binary_normalize prec emax n 0 false.
Definition add := SFadd prec emax.
Definition mul := SFmul prec emax.
Definition div := SFdiv prec emax.
Definition sqrt := SFsqrt prec emax.
Definition zero : spec_float := S754_zero false.
Definition one : spec_float := of_Z 1.
(** Rounding of a binary64 value to binary32. *)
Definition of_double (x : spec_float) : spec_float :=
  match x with
  | S754_finite s m e => binary_round prec emax s m e
  | _ => x
  end.
End F32.

Module F64.
Definition prec : Z := 53.
Definition emax : Z := 1024.
Definition of_Z (n : Z) : spec_float := binary_normalize prec emax n 0 false.
Definition add := SFadd prec emax.
Definition sub := SFsub prec emax.
Definition mul := SFmul prec emax.
Definition div := SFdiv prec emax.
(** A binary32 value seen as a binary64 one (exact). *)
Definition of_float (x : spec_float) : spec_float :=
  match x with
  | S754_finite s m e => binary_round prec emax s m e
  | _ => x
  end.
(** [std::numbers::sqrt2], 0x3FF6A09E667F3BCD. *)
Definition sqrt2 : spec_float := S754_finite false 6369051672525773 (-52).
End F64.

(** Conversion of a floating-point value to an integer type: the value
    is truncated toward zero; the behaviour is undefined when the
    truncated value does not fit the destination. *)
Definition SFtrunc (x : spec_float) : option Z :=
  match x with
  | S754_zero _ => Some 0
  | S754_finite s m e =>
      Some (cond_Zopp s (match e with
                         | Zneg p => Z.shiftr (Zpos m) (Zpos p)
                         | _ => Z.shiftl (Zpos m) e
                         end))
  | _ => None
  end.

Definition float_to (lo hi : Z) (x : spec_float) : result Z :=
  match SFtrunc x with
  | Some n => if (lo <=? n) && (n <=? hi) then Ok n else Fault FloatToInt
  | None => Fault FloatToInt
  end.

Definition float_to_int := float_to INT_MIN INT_MAX.
Definition float_to_size_t := float_to 0 SIZE_MAX.
Definition float_to_Pixel := float_to 0 PIXEL_MAX.

(** The product of a size and the ratio, converted to an integer: to
    [size_t] in [size_t cutoff = image_size * ratio;] and in
    [size_t n = (width * height) * ratio;], to [int] in
    [int n = (width * height) * ratio;].  The size is converted to
    [float] first. *)
Definition cutoff_of (image_size : Z) (ratio : spec_float) : result Z :=
  float_to_size_t (F32.mul (F32.of_Z image_size) ratio).

Definition index_of (size : Z) (ratio : spec_float) : result Z :=
  float_to_int (F32.mul (F32.of_Z size) ratio).

(** [constexpr float Ratio = 0.33f] and the ratio 0.4f of the worked
    example: the binary32 values nearest to 33/100 and to 4/10. *)
Definition Ratio : spec_float := F32.div (F32.of_Z 33) (F32.of_Z 100).
Definition ratio_0_4 : spec_float := F32.div (F32.of_Z 4) (F32.of_Z 10).
Definition SampleRate : Z := 10.

(** ** Programs over a mutable state *)

Definition prog (S A : Type) : Type := S -> result (A * S).

Definition ret {S A} (a : A) : prog S A := fun s => Ok (a, s).

Definition bind {S A B} (c : prog S A) (k : A -> prog S B) : prog S B :=
  fun s => match c s with
           | Ok (a, s') => k a s'
           | Fault f => Fault f
           end.

Definition fail {S A} (f : fault) : prog S A := fun _ => Fault f.

Definition lift {S A} (r : result A) : prog S A :=
  fun s => match r with Ok a => Ok (a, s) | Fault f => Fault f end.

Notation "'let*' x ':=' c 'in' k" := (bind c (fun x => k))
  (at level 10, x name, c at level 100, k at level 200).

(** The pixel buffer behind a [Pixel*]. *)
Abbreviation buffer := (list Z).

(** [greyscale[i]] as an rvalue. *)
Definition read (i : Z) : prog buffer Z :=
  fun buf =>
    if i <? 0 then Fault OutOfBounds
    else match buf !! Z.to_nat i with
         | Some p => Ok (p, buf)
         | None => Fault OutOfBounds
         end.

(** [greyscale[i] = v]. *)
Definition write (i v : Z) : prog buffer unit :=
  fun buf =>
    if (0 <=? i) && (i <? Z.of_nat (length buf))
    then Ok (tt, <[Z.to_nat i := v]> buf)
    else Fault OutOfBounds.

(** ** The histogram [count] of [counting_sort] and [uniform_sample]

    [std::make_unique<size_t[]>(1 << BIT_DEPTH)] value-initialises the
    array: every bin starts at zero. *)

Definition new_count : list Z := replicate (Z.to_nat BINS) 0.

(** [count[p]++] *)
Definition count_incr (count : list Z) (p : Z) : result (list Z) :=
  if p <? 0 then Fault OutOfBounds
  else match count !! Z.to_nat p with
       | Some c => Ok (<[Z.to_nat p := to_size_t (c + 1)]> count)
       | None => Fault OutOfBounds
       end.

(** [while (total < cutoff && index < (1 << BIT_DEPTH)) total += count[index++];]
    returning the final [index]. *)
Fixpoint scan_count (fuel : nat) (count : list Z) (cutoff total index : Z)
  : result Z :=
  if (total <? cutoff) && (index <? BINS) then
    match fuel with
    | O => Fault OutOfFuel
    | S fuel' =>
        match count !! Z.to_nat index with
        | Some c =>
            scan_count fuel' count cutoff (to_size_t (total + c)) (index + 1)
        | None => Fault OutOfBounds
        end
    end
  else Ok index.

(** [return std::max((size_t)0, index - 1);] with the return type [Pixel]. *)
Definition clamp_index (index : Z) : Z :=
  to_Pixel (Z.max (to_size_t 0) (to_size_t (index - 1))).

(** ** counting_sort *)

(** [for (size_t pixel = 0; pixel < image_size; pixel++) count[greyscale[pixel]]++;] *)
Fixpoint counting_sort_fill (fuel : nat) (image_size pixel : Z)
    (count : list Z) : prog buffer (list Z) :=
  if pixel <? image_size then
    match fuel with
    | O => fail OutOfFuel
    | S fuel' =>
        let* p := read pixel in
        let* count' := lift (count_incr count p) in
        counting_sort_fill fuel' image_size (to_size_t (pixel + 1)) count'
    end
  else ret count.

Definition counting_sort (width height : Z) (ratio : spec_float)
  : prog buffer Z :=
  let* n := lift (int_mul width height) in
  let image_size := to_size_t n in
  let* count :=
    counting_sort_fill (Z.to_nat image_size) image_size 0 new_count in
  let* cutoff := lift (cutoff_of image_size ratio) in
  let* index := lift (scan_count (Z.to_nat BINS) count cutoff 0 0) in
  ret (clamp_index index).

(** ** uniform_sample *)

(** [for (size_t pixel = 0; pixel < image_size; pixel += sample_rate) ...] *)
Fixpoint uniform_sample_fill (fuel : nat) (image_size sample_rate pixel : Z)
    (count : list Z) : prog buffer (list Z) :=
  if pixel <? image_size then
    match fuel with
    | O => fail OutOfFuel
    | S fuel' =>
        let* p := read pixel in
        let* count' := lift (count_incr count p) in
        uniform_sample_fill fuel' image_size sample_rate
          (to_size_t (pixel + sample_rate)) count'
    end
  else ret count.

Definition size_t_div (a b : Z) : result Z :=
  if b =? 0 then Fault DivisionByZero else Ok (a / b).

Definition uniform_sample (width height : Z) (sample_rate : Z)
    (ratio : spec_float) : prog buffer Z :=
  let* n := lift (int_mul width height) in
  let image_size := to_size_t n in
  let* count := uniform_sample_fill (Z.to_nat image_size) image_size
                  sample_rate 0 new_count in
  let* sampled := lift (size_t_div image_size sample_rate) in
  let* cutoff := lift (cutoff_of sampled ratio) in
  let* index := lift (scan_count (Z.to_nat BINS) count cutoff 0 0) in
  ret (clamp_index index).

(** ** std_sort *)

(** [std::sort(greyscale, greyscale + n)]: the first [n] pixels are put
    in ascending order.  On integers the sorted arrangement is unique,
    so any sorting function describes it. *)
Definition sort_range (n : Z) : prog buffer unit :=
  fun buf =>
    if (0 <=? n) && (n <=? Z.of_nat (length buf))
    then Ok (tt, merge_sort Z.le (take (Z.to_nat n) buf)
                   ++ drop (Z.to_nat n) buf)
    else Fault BadRange.

Definition std_sort (width height : Z) (ratio : spec_float) : prog buffer Z :=
  let* size := lift (int_mul width height) in
  let* n := lift (index_of size ratio) in
  let* _ := sort_range size in
  read n.

(** ** Library contracts

    [std::nth_element] is known by its contract only: the range is
    permuted, the element at position [nth] is the one that would be
    there if the whole range were sorted, and nothing before [nth] is
    greater than anything from [nth] on. *)

Class NthElement : Type := {
  nth_element : nat -> list Z -> list Z;
  nth_element_perm : forall k l, nth_element k l ≡ₚ l;
  nth_element_nth : forall k l s,
    Sorted Z.le s -> s ≡ₚ l -> nth_element k l !! k = s !! k;
  nth_element_partition : forall k l i j x y,
    (i < k)%nat -> (k <= j)%nat ->
    nth_element k l !! i = Some x -> nth_element k l !! j = Some y -> x <= y
}.

(** The mathematical functions of [<cmath>] whose results the language
    standard does not pin down: [double pow(double, double)] and
    [float pow(float, float)].  Only three facts are assumed: squares of
    small integers are exact, and 1 and +0 are fixed by the integral
    exponents from 1 to 7. *)
Class Libm : Type := {
  pow : spec_float -> spec_float -> spec_float;
  powf : spec_float -> spec_float -> spec_float;
  pow_square : forall d, - PIXEL_MAX <= d <= PIXEL_MAX ->
    pow (F64.of_Z d) (F64.of_Z 2) = F64.of_Z (d * d);
  powf_one : forall k, 0 < k <= 7 -> powf F32.one (F32.of_Z k) = F32.one;
  powf_zero : forall k, 0 < k <= 7 -> powf F32.zero (F32.of_Z k) = F32.zero
}.

Section Estimators.
Context {nth : NthElement} {libm : Libm}.

(** ** nth_element_sort *)

(** [std::nth_element(greyscale, greyscale + n, greyscale + size)] *)
Definition nth_element_range (n size : Z) : prog buffer unit :=
  fun buf =>
    if (0 <=? n) && (n <=? size) && (size <=? Z.of_nat (length buf))
    then Ok (tt, nth_element (Z.to_nat n) (take (Z.to_nat size) buf)
                   ++ drop (Z.to_nat size) buf)
    else Fault BadRange.

Definition nth_element_sort (width height : Z) (ratio : spec_float)
  : prog buffer Z :=
  let* size := lift (int_mul width height) in
  let* n := lift (cutoff_of size ratio) in
  let* _ := nth_element_range n size in
  read n.

(** ** normal_estimate *)

(** [for (int pixel = 0; pixel < width * height; pixel++) total += greyscale[pixel];]
    ([pixel] stays below [width * height], so [pixel++] cannot overflow) *)
Fixpoint sum_pixels (fuel : nat) (size pixel total : Z) : prog buffer Z :=
  if pixel <? size then
    match fuel with
    | O => fail OutOfFuel
    | S fuel' =>
        let* p := read pixel in
        sum_pixels fuel' size (pixel + 1) (to_size_t (total + p))
    end
  else ret total.

(** [Pixel average = total / (width * height);] (a [size_t] division) *)
Definition average_of (total size : Z) : result Z :=
  match size_t_div total (to_size_t size) with
  | Ok q => Ok (to_Pixel q)
  | Fault f => Fault f
  end.

(** [for (...) sigma_total += std::pow(greyscale[pixel] - average, 2);]
    The sum is formed in [double] and converted back to [size_t]. *)
Fixpoint sum_squares (fuel : nat) (size average pixel sigma_total : Z)
  : prog buffer Z :=
  if pixel <? size then
    match fuel with
    | O => fail OutOfFuel
    | S fuel' =>
        let* p := read pixel in
        let* sigma_total' :=
          lift (float_to_size_t
                  (F64.add (F64.of_Z sigma_total)
                     (pow (F64.of_Z (p - average)) (F64.of_Z 2)))) in
        sum_squares fuel' size average (pixel + 1) sigma_total'
    end
  else ret sigma_total.

(** [ratio + pow(ratio, 3.0f) + pow(ratio, 5.0f) + pow(ratio, 7.0f)] *)
Definition approximation (ratio : spec_float) : spec_float :=
  F32.add (F32.add (F32.add ratio (powf ratio (F32.of_Z 3)))
                   (powf ratio (F32.of_Z 5)))
          (powf ratio (F32.of_Z 7)).

(** The value handed to the final cast, [(float)average + (z * sigma)]. *)
Definition normal_estimate_value (width height : Z) (ratio : spec_float)
  : prog buffer spec_float :=
  let* size := lift (int_mul width height) in
  let* total := sum_pixels (Z.to_nat size) size 0 0 in
  let* average := lift (average_of total size) in
  let* sigma_total := sum_squares (Z.to_nat size) size average 0 0 in
  let sigma :=
    F32.sqrt (F32.mul (F32.of_Z sigma_total)
                      (F32.div F32.one (F32.of_Z size))) in
  let z := F32.of_double
             (F64.mul F64.sqrt2 (F64.of_float (approximation ratio))) in
  ret (F32.add (F32.of_Z average) (F32.mul z sigma)).

(** [return (Pixel)(...);] *)
Definition normal_estimate (width height : Z) (ratio : spec_float)
  : prog buffer Z :=
  let* x := normal_estimate_value width height ratio in
  lift (float_to_Pixel x).

(** ** weighted_estimate *)

(** [ratio > 0.5]: the comparison is made in [double]. *)
Definition above_half (ratio : spec_float) : bool :=
  SFltb (F64.div (F64.of_Z 1) (F64.of_Z 2)) (F64.of_float ratio).

Definition weighted_estimate (width height : Z) (ratio : spec_float)
  : prog buffer Z :=
  let* size := lift (int_mul width height) in
  let* total := sum_pixels (Z.to_nat size) size 0 0 in
  let* average := lift (average_of total size) in
  let min := if above_half ratio then average else 0 in
  let max := if above_half ratio then to_Pixel (Z.shiftl 1 BIT_DEPTH - 1)
             else average in
  let ratio' :=
    if above_half ratio
    then F32.of_double (F64.sub (F64.of_float ratio)
                                (F64.div (F64.of_Z 1) (F64.of_Z 2)))
    else ratio in
  let percentage := F32.div ratio' (F32.div (F32.of_Z 1) (F32.of_Z 2)) in
  lift (float_to_Pixel
          (F32.add (F32.of_Z min) (F32.mul (F32.of_Z (max - min)) percentage))).
End Estimators.

(** ** The benchmark harness and the binarization of [main] *)

Record heap : Type := { image : buffer; copy : buffer }.

Definition on_image {A} (c : prog buffer A) : prog heap A :=
  fun h => match c (image h) with
           | Ok (a, b) => Ok (a, {| image := b; copy := copy h |})
           | Fault f => Fault f
           end.

(** [std::memcpy(dst, src, n)] on pixel buffers; [sizeof(Pixel)] is 1
    for [BIT_DEPTH <= 8], so [n] bytes are [n] pixels. *)
Definition memcpy (dst src : buffer) (n : Z) : result buffer :=
  if (n <=? Z.of_nat (length dst)) && (n <=? Z.of_nat (length src))
  then Ok (take (Z.to_nat n) src ++ drop (Z.to_nat n) dst)
  else Fault OutOfBounds.

(** [std::memcpy(copy, image, width * height);] *)
Definition save_image (width height : Z) : prog heap unit :=
  let* size := lift (int_mul width height) in
  fun h => match memcpy (copy h) (image h) (to_size_t size) with
           | Ok c => Ok (tt, {| image := image h; copy := c |})
           | Fault f => Fault f
           end.

(** [std::memcpy(image, copy, width * height);] *)
Definition restore_image (width height : Z) : prog heap unit :=
  let* size := lift (int_mul width height) in
  fun h => match memcpy (image h) (copy h) (to_size_t size) with
           | Ok i => Ok (tt, {| image := i; copy := copy h |})
           | Fault f => Fault f
           end.

(** The loop that ends [main]: every pixel of the image is compared
    with the threshold and overwritten. *)
Fixpoint binarize_loop (fuel : nat) (size pixel threshold : Z)
  : prog buffer unit :=
  if pixel <? size then
    match fuel with
    | O => fail OutOfFuel
    | S fuel' =>
        let* p1 := read pixel in
        let* _ :=
          if threshold <? p1
          then write pixel (to_Pixel (Z.shiftl 1 BIT_DEPTH - 1))
          else
            let* p2 := read pixel in
            if p2 <? threshold then write pixel 0
            else
              let* p3 := read pixel in
              let* p4 := read pixel in
              if negb ((p3 =? 0) || (p4 =? Z.shiftl 1 BIT_DEPTH - 1))
              then write pixel 0
              else ret tt in
        binarize_loop fuel' size (to_size_t (pixel + 1)) threshold
    end
  else ret tt.

Definition binarize (width height threshold : Z) : prog buffer unit :=
  let* n := lift (int_mul width height) in
  let size := to_size_t n in
  binarize_loop (Z.to_nat size) size 0 threshold.

(** The values handed to [display], in the order of the calls. *)
Record thresholds : Type := {
  counting_sort_threshold : Z;
  std_sort_threshold : Z;
  nth_element_sort_threshold : Z;
  estimate_threshold : Z;
  weighted_threshold : Z;
  uniform_sample_threshold : Z
}.

Section Harness.
Context {nth : NthElement} {libm : Libm}.

(** The six blocks of the benchmark, "Counting Sort" to "Uniform
    Sample": each calls one estimator on [image]; the two sorting ones
    copy the image back before their result is displayed. *)
Definition run_counting_sort (width height : Z) : prog heap Z :=
  on_image (counting_sort width height Ratio).

Definition run_std_sort (width height : Z) : prog heap Z :=
  let* t := on_image (std_sort width height Ratio) in
  let* _ := restore_image width height in
  ret t.

Definition run_nth_element_sort (width height : Z) : prog heap Z :=
  let* t := on_image (nth_element_sort width height Ratio) in
  let* _ := restore_image width height in
  ret t.

Definition run_normal_estimate (width height : Z) : prog heap Z :=
  on_image (normal_estimate width height Ratio).

Definition run_weighted_estimate (width height : Z) : prog heap Z :=
  on_image (weighted_estimate width height Ratio).

Definition run_uniform_sample (width height : Z) : prog heap Z :=
  on_image (uniform_sample width height SampleRate Ratio).

Definition benchmark (width height : Z) : prog heap thresholds :=
  let* t1 := run_counting_sort width height in
  let* t2 := run_std_sort width height in
  let* t3 := run_nth_element_sort width height in
  let* t4 := run_normal_estimate width height in
  let* t5 := run_weighted_estimate width height in
  let* t6 := run_uniform_sample width height in
  ret {| counting_sort_threshold := t1;
         std_sort_threshold := t2;
         nth_element_sort_threshold := t3;
         estimate_threshold := t4;
         weighted_threshold := t5;
         uniform_sample_threshold := t6 |}.

(** [main] after the image is decoded and [copy] allocated: the heap
    holds the decoded image and the fresh block. *)
Definition main (width height : Z) : prog heap thresholds :=
  let* _ := save_image width height in
  let* ts := benchmark width height in
  let* _ := on_image (binarize width height (uniform_sample_threshold ts)) in
  ret ts.
End Harness.

(** ** Vocabulary of the statements

    Well-formed inputs and the predicates the properties are stated
    with. *)

(** A [width] x [height] image: the buffer holds exactly
    [width * height] pixels, and the product fits an [int]. *)
Definition image_of (buf : buffer) (width height : Z) : Prop :=
  Z.of_nat (length buf) = width * height /\
  width * height <= INT_MAX /\
  Forall is_Pixel buf.

(** [0 <= ratio <= 1] *)
Definition in_unit (ratio : spec_float) : Prop :=
  SFleb F32.zero ratio = true /\ SFleb ratio F32.one = true.

(** The rule of the applier in the words of the specification. *)
Definition applier (T p : Z) : Z :=
  if decide (p > T) then PIXEL_MAX
  else if decide (p < T) then 0
  else if decide (p = 0 \/ p = PIXEL_MAX) then p
  else 0.

(** A program that hands back the buffer it was given. *)
Definition readonly {A} (c : prog buffer A) : Prop :=
  forall buf a buf', c buf = Ok (a, buf') -> buf' = buf.

(** A program that looks at the first [size] pixels only: on a longer
    buffer it has the same outcome and leaves the tail as it is. *)
Definition extend {A} (extra : buffer) (r : result (A * buffer))
  : result (A * buffer) :=
  match r with
  | Ok (a, b) => Ok (a, b ++ extra)
  | Fault f => Fault f
  end.

Definition local_to (size : Z) {A} (c : prog buffer A) : Prop :=
  forall buf extra, Z.of_nat (length buf) = size ->
    c (buf ++ extra) = extend extra (c buf).

(** Number of pixels equal to [v], and number of pixels below [i]. *)
Definition occurrences (v : Z) (l : list Z) : Z :=
  Z.of_nat (length (filter (fun x => x = v) l)).
Definition below (i : Z) (l : list Z) : Z :=
  Z.of_nat (length (filter (fun x => x < i) l)).

(** [count] holds, bin by bin, the number of occurrences in [l]. *)
Definition histogram_of (count : list Z) (l : list Z) : Prop :=
  length count = Z.to_nat BINS /\
  forall (v : nat) c, count !! v = Some c -> c = occurrences (Z.of_nat v) l.

(** [x] carries the sign [s] (nothing is asked of a NaN). *)
Definition has_sign (s : bool) (x : spec_float) : Prop :=
  match x with
  | S754_zero s' | S754_infinity s' | S754_finite s' _ _ => s' = s
  | S754_nan => True
  end.

(** [x] is zero or finite, below [2^k] in absolute value. *)
Definition magnitude_le (k : Z) (x : spec_float) : Prop :=
  match x with
  | S754_zero _ => True
  | S754_finite _ m e => Zpos (digits2_pos m) + e <= k
  | _ => False
  end.

(** The outcome of an estimator without the buffer it hands back. *)
Definition threshold_of {A} (r : result (Z * A)) : result Z :=
  match r with
  | Ok (t, _) => Ok t
  | Fault f => Fault f
  end.

(** The pixels [uniform_sample] looks at: those at the indices 0,
    [sample_rate], [2 * sample_rate], ... *)
Definition samples (sample_rate : Z) (buf : buffer) : list Z :=
  omap (fun i : nat => buf !! (i * Z.to_nat sample_rate)%nat)
       (seq 0 (length buf)).

(** ** Values of floating-point numbers

    The vocabulary of the arithmetic of the estimators: rounding on
    integers, and floating-point numbers as integers in units of
    [2^-K]. *)

(** Rounding of the integer [v] to a multiple of [2^n], to nearest,
    ties to even, as a number of multiples. *)
Definition rne (v n : Z) : Z :=
  let q := v / 2 ^ n in
  let r := v mod 2 ^ n in
  if 2 * r <? 2 ^ n then q
  else if 2 ^ n <? 2 * r then q + 1
  else if Z.even q then q else q + 1.

(** [v] rounded to a multiple of [2^n]. *)
Definition round_to (n v : Z) : Z := 2 ^ n * rne v n.

(** Floating-point values are compared as integers: [scaled x] is the
    value of [x] in units of [2^-K], with [-K] below every exponent
    that occurs. *)
Definition K : Z := 2200.

(** The value of [x] in units of [2^-K] (0 for what is not a number). *)
Definition scaled (x : spec_float) : Z :=
  match x with
  | S754_finite s m e => cond_Zopp s (Zpos m * 2 ^ (e + K))
  | _ => 0
  end.

(** [x] is zero or finite, with an exponent the format allows. *)
Definition dyadic (prec emax : Z) (x : spec_float) : Prop :=
  match x with
  | S754_zero _ => True
  | S754_finite _ m e => emin prec emax <= e
  | _ => False
  end.

(** The exponent (in units of [2^-K]) of the grid on which numbers of
    the magnitude of [V] are represented, and [V] rounded to it. *)
Definition grid (prec emax V : Z) : Z :=
  fexp prec emax (Z.log2 V + 1 - K) + K.

(** [V] rounded to nearest even in the format. *)
Definition rounded (prec emax V : Z) : Z := round_to (grid prec emax V) V.

(** [V] is the value of a number of the format. *)
Definition representable (prec emax V : Z) : Prop :=
  V mod 2 ^ grid prec emax V = 0.

(** Zero or finite, and canonical. *)
Definition regular (prec emax : Z) (x : spec_float) : Prop :=
  match x with
  | S754_zero _ => True
  | S754_finite _ m e => bounded prec emax m e = true
  | _ => False
  end.

(** Non-negative numbers of a format. *)
Definition nonneg (prec emax : Z) (x : spec_float) : Prop :=
  match x with
  | S754_zero _ => True
  | S754_finite s m e => s = false /\ bounded prec emax m e = true
  | _ => False
  end.

(** What the proofs ask of a format: at least one bit of precision, a
    least exponent that is not positive, and products of two of its
    numbers that are multiples of [2^-K]. *)
Class Format (prec emax : Z) : Prop := {
  format_prec : 0 < prec;
  format_emax : 2 <= emax;
  format_emin : emin prec emax <= 0;
  format_scale : 0 <= 2 * emin prec emax + K
}.

(** The value of [min + ((max - min) * percentage)] converted to an
    integer, for a percentage of [P] units of [2^-K]: the product is
    rounded to a [float], the sum is rounded to a [float], and the
    conversion drops the fraction. *)
Definition interpolate (lo hi P : Z) : Z :=
  rounded F32.prec F32.emax
    (lo * 2 ^ K + rounded F32.prec F32.emax ((hi - lo) * P)) / 2 ^ K.

(** The sum of the pixels of an image. *)
Definition pixel_sum (buf : buffer) : Z := foldr Z.add 0 buf.

(** [total / (width * height)] *)
Definition mean (buf : buffer) : Z := pixel_sum buf / Z.of_nat (length buf).

(** The threshold of [weighted_estimate] for a ratio of [R] units of
    [2^-K] on an image of the given average. *)
Definition weighted_value (average R : Z) : Z :=
  if 2 ^ (K - 1) <? R
  then interpolate average PIXEL_MAX (2 * (R - 2 ^ (K - 1)))
  else interpolate 0 average (2 * R).

(** The sum of the squares of the distances of the pixels to [average]. *)
Definition square_sum (average : Z) (buf : buffer) : Z :=
  foldr (fun p acc => (p - average) * (p - average) + acc) 0 buf.

(** * Properties *)

(** ** One implementation of each library contract

    A full sort meets the contract of [std::nth_element], and repeated
    multiplication the three facts assumed of [pow]; they make every
    program above executable. *)

Lemma StronglySorted_lookup_le (l : list Z) (i j : nat) (x y : Z) :
  StronglySorted Z.le l -> (i < j)%nat ->
  l !! i = Some x -> l !! j = Some y -> x <= y.
Proof.
  intros Hs. revert i j.
  induction Hs as [|a l Hs IH Hall]; intros i j Hij Hi Hj.
  - discriminate.
  - destruct j as [|j]; [lia|]. cbn in Hj.
    destruct i as [|i]; cbn in Hi.
    + injection Hi as <-.
      rewrite Forall_forall in Hall. apply Hall.
      apply list_elem_of_lookup. eauto.
    + apply (IH i j); [lia|done..].
Qed.

Lemma merge_sort_sorted (l : list Z) : StronglySorted Z.le (merge_sort Z.le l).
Proof. apply StronglySorted_merge_sort; apply _. Qed.

Lemma sorted_perm_unique (s l : list Z) :
  Sorted Z.le s -> s ≡ₚ l -> merge_sort Z.le l = s.
Proof.
  intros Hs Hp. apply (Sorted_unique Z.le).
  - apply Sorted_merge_sort. apply _.
  - exact Hs.
  - rewrite merge_sort_Permutation. symmetry. exact Hp.
Qed.

#[export] Program Instance sort_NthElement : NthElement :=
  {| nth_element := fun _ l => merge_sort Z.le l |}.
Next Obligation. intros k l. apply merge_sort_Permutation. Qed.
Next Obligation. intros k l s Hs Hp. cbn. by rewrite (sorted_perm_unique s l). Qed.
Next Obligation.
  intros k l i j x y Hik Hkj Hi Hj. cbn in *.
  destruct (decide (i = j)) as [->|Hne]; [lia|].
  apply (StronglySorted_lookup_le (merge_sort Z.le l) i j);
    [apply merge_sort_sorted | lia | done..].
Qed.

(** [x] raised to an integral power [y >= 0] by repeated multiplication. *)
Definition pow_int (mul : spec_float -> spec_float -> spec_float)
    (of_Z : Z -> spec_float) (x y : spec_float) : spec_float :=
  match SFtrunc y with
  | Some k =>
      if (0 <=? k) && SFeqb (of_Z k) y
      then Nat.iter (Z.to_nat k) (fun acc => mul acc x) (of_Z 1)
      else S754_nan
  | None => S754_nan
  end.

#[export] Instance spec_float_eq_dec : EqDecision spec_float.
Proof. solve_decision. Defined.

Lemma Z_range_ind (P : Z -> Prop) `{!forall d, Decision (P d)} (lo hi : Z) :
  bool_decide (Forall P (seqZ lo (hi - lo + 1))) = true ->
  forall d, lo <= d <= hi -> P d.
Proof.
  intros Hall d Hd. apply bool_decide_eq_true_1 in Hall.
  rewrite Forall_forall in Hall. apply Hall, elem_of_seqZ. lia.
Qed.

#[export] Program Instance mul_Libm : Libm :=
  {| pow := pow_int F64.mul F64.of_Z;
     powf := pow_int F32.mul F32.of_Z |}.
Next Obligation.
  apply (Z_range_ind (fun d => pow_int F64.mul F64.of_Z (F64.of_Z d) (F64.of_Z 2)
                               = F64.of_Z (d * d))).
  vm_compute. reflexivity.
Qed.
Next Obligation.
  intros k Hk.
  apply (Z_range_ind (fun k => pow_int F32.mul F32.of_Z F32.one (F32.of_Z k)
                               = F32.one) 1 7); [|lia].
  vm_compute. reflexivity.
Qed.
Next Obligation.
  intros k Hk.
  apply (Z_range_ind (fun k => pow_int F32.mul F32.of_Z F32.zero (F32.of_Z k)
                               = F32.zero) 1 7); [|lia].
  vm_compute. reflexivity.
Qed.

(** The constants, bit for bit: 0.33f is 0x3EA8F5C3 and 0.4f is
    0x3ECCCCCD. *)
Example Ratio_bits : Ratio = S754_finite false 11072963 (-25).
Proof. reflexivity. Qed.

Example ratio_0_4_bits : ratio_0_4 = S754_finite false 13421773 (-25).
Proof. reflexivity. Qed.

Example one_bits : F32.one = S754_finite false 8388608 (-23).
Proof. reflexivity. Qed.

(** ** Running programs *)

Lemma bind_Ok {S A B} (c : prog S A) (k : A -> prog S B) s a s' :
  c s = Ok (a, s') -> bind c k s = k a s'.
Proof. unfold bind. by intros ->. Qed.

Lemma bind_Fault {S A B} (c : prog S A) (k : A -> prog S B) s f :
  c s = Fault f -> bind c k s = Fault f.
Proof. unfold bind. by intros ->. Qed.

Lemma bind_inv {S A B} (c : prog S A) (k : A -> prog S B) s b s2 :
  bind c k s = Ok (b, s2) ->
  exists a s1, c s = Ok (a, s1) /\ k a s1 = Ok (b, s2).
Proof.
  unfold bind. destruct (c s) as [[a s1]|f]; [|discriminate]. eauto.
Qed.

Lemma lift_Ok {S A} (r : result A) (a : A) (s : S) :
  r = Ok a -> lift r s = Ok (a, s).
Proof. by intros ->. Qed.

Lemma lift_inv {S A} (r : result A) (s s' : S) a :
  lift r s = Ok (a, s') -> r = Ok a /\ s' = s.
Proof. unfold lift. destruct r; [|discriminate]. by intros [= -> ->]. Qed.

Lemma read_Ok (buf : buffer) (i : nat) (p : Z) :
  buf !! i = Some p -> read (Z.of_nat i) buf = Ok (p, buf).
Proof.
  intros H. unfold read.
  destruct (Z.ltb_spec (Z.of_nat i) 0); [lia|]. by rewrite Nat2Z.id, H.
Qed.

Lemma read_inv (buf buf' : buffer) (i p : Z) :
  read i buf = Ok (p, buf') ->
  0 <= i /\ buf !! Z.to_nat i = Some p /\ buf' = buf.
Proof.
  unfold read. destruct (Z.ltb_spec i 0); [discriminate|].
  destruct (buf !! Z.to_nat i) eqn:E; [|discriminate].
  by intros [= -> ->].
Qed.

Lemma read_past_end (buf : buffer) (i : Z) :
  Z.of_nat (length buf) <= i -> read i buf = Fault OutOfBounds.
Proof.
  intros H. unfold read. destruct (Z.ltb_spec i 0); [done|].
  rewrite lookup_ge_None_2; [done|lia].
Qed.

Lemma read_middle (done rest : buffer) (a : Z) :
  read (Z.of_nat (length done)) (done ++ a :: rest)
  = Ok (a, done ++ a :: rest).
Proof. apply read_Ok. by apply list_lookup_middle. Qed.

Lemma write_middle (done rest : buffer) (a v : Z) :
  write (Z.of_nat (length done)) v (done ++ a :: rest)
  = Ok (tt, done ++ v :: rest).
Proof.
  unfold write. rewrite length_app. cbn [length].
  destruct (Z.leb_spec 0 (Z.of_nat (length done))); [|lia].
  destruct (Z.ltb_spec (Z.of_nat (length done))
              (Z.of_nat (length done + S (length rest)))); [|lia].
  cbn [andb]. rewrite Nat2Z.id.
  rewrite <- (Nat.add_0_r (length done)) at 1. by rewrite insert_app_r.
Qed.

Lemma int_mul_Ok (a b : Z) :
  INT_MIN <= a * b <= INT_MAX -> int_mul a b = Ok (a * b).
Proof.
  intros [H1 H2]. unfold int_mul.
  destruct (Z.leb_spec INT_MIN (a * b)); [|lia].
  destruct (Z.leb_spec (a * b) INT_MAX); [done|lia].
Qed.

Lemma int_mul_inv (a b n : Z) :
  int_mul a b = Ok n -> n = a * b /\ INT_MIN <= n <= INT_MAX.
Proof.
  unfold int_mul.
  destruct (Z.leb_spec INT_MIN (a * b)); [|discriminate].
  destruct (Z.leb_spec (a * b) INT_MAX); [|discriminate].
  intros [= <-]. lia.
Qed.

Lemma to_size_t_small (n : Z) : 0 <= n <= SIZE_MAX -> to_size_t n = n.
Proof. unfold to_size_t, SIZE_MAX. intros. apply Z.mod_small. lia. Qed.

Lemma to_size_t_nonneg (n : Z) : 0 <= to_size_t n.
Proof. unfold to_size_t. apply Z.mod_pos_bound. lia. Qed.

Lemma to_Pixel_is_Pixel (n : Z) : is_Pixel (to_Pixel n).
Proof.
  unfold is_Pixel, to_Pixel. change PIXEL_MAX with 255.
  change (2 ^ BIT_DEPTH) with 256.
  pose proof (Z.mod_pos_bound n 256). lia.
Qed.

(** ** Floating-point facts

    What the proofs below need to know about binary32 rounding, read
    off the definitions of [SpecFloat]. *)

Lemma canonical_round_aux_id prec emax s m e :
  canonical_mantissa prec emax m e = true -> e <= emax - prec ->
  binary_round_aux prec emax s (Zpos m) e loc_Exact = S754_finite s m e.
Proof.
  intros Hc He. unfold canonical_mantissa in Hc. apply Z.eqb_eq in Hc.
  unfold binary_round_aux, shr_fexp. cbn [Zdigits2 shr_record_of_loc].
  rewrite Hc, Z.sub_diag. cbn [shr shr_m loc_of_shr_record round_nearest_even].
  cbn [Zdigits2].
  rewrite Hc, Z.sub_diag. cbn [shr shr_m].
  destruct (Z.leb_spec e (emax - prec)); [done|lia].
Qed.

Lemma digits2_pos_iter_xO (p k : positive) :
  digits2_pos (Pos.iter xO p k) = (digits2_pos p + k)%positive.
Proof.
  induction k as [|k IH] using Pos.peano_ind.
  - cbn. lia.
  - rewrite Pos.iter_succ. cbn [digits2_pos]. rewrite IH. lia.
Qed.

Lemma Zpos_iter_xO (p k : positive) :
  Zpos (Pos.iter xO p k) = Zpos p * 2 ^ Zpos k.
Proof.
  induction k as [|k IH] using Pos.peano_ind.
  - cbn. lia.
  - rewrite Pos.iter_succ.
    change (Zpos (Pos.iter xO p k)~0) with (2 * Zpos (Pos.iter xO p k)).
    rewrite IH, Pos2Z.inj_succ, Z.pow_succ_r by lia. lia.
Qed.

Lemma digits2_pos_bounds (p : positive) :
  2 ^ (Zpos (digits2_pos p) - 1) <= Zpos p < 2 ^ Zpos (digits2_pos p).
Proof.
  induction p as [p IH|p IH|]; cbn [digits2_pos]; [| |cbn; lia].
  - rewrite Pos2Z.inj_succ. change (Zpos p~1) with (2 * Zpos p + 1).
    replace (Z.succ (Zpos (digits2_pos p)) - 1) with (Z.succ (Zpos (digits2_pos p) - 1)) by lia.
    rewrite !Z.pow_succ_r by lia. lia.
  - rewrite Pos2Z.inj_succ. change (Zpos p~0) with (2 * Zpos p).
    replace (Z.succ (Zpos (digits2_pos p)) - 1) with (Z.succ (Zpos (digits2_pos p) - 1)) by lia.
    rewrite !Z.pow_succ_r by lia. lia.
Qed.

(** An integer of at most 24 bits converts to [float] exactly. *)
Lemma F32_of_Z_small (p : positive) :
  Zpos (digits2_pos p) <= 24 ->
  exists m e, F32.of_Z (Zpos p) = S754_finite false m e /\ -23 <= e <= 0 /\
    digits2_pos m = 24%positive /\ Zpos m = Zpos p * 2 ^ (- e).
Proof.
  intros Hd. unfold F32.of_Z, binary_normalize, binary_round.
  set (d := digits2_pos p) in *.
  assert (fexp F32.prec F32.emax (Zpos d + 0) = Zpos d - 24) as Hf.
  { unfold fexp, emin, F32.prec, F32.emax. lia. }
  rewrite Hf. unfold shl_align.
  destruct (Zpos d - 24 - 0) as [|q|q] eqn:Hq; [|lia|].
  - exists p, 0. rewrite canonical_round_aux_id.
    + repeat split; lia.
    + unfold canonical_mantissa. fold d. rewrite Hf. lia.
    + unfold F32.emax, F32.prec. lia.
  - exists (Pos.iter xO p q), (Zpos d - 24). rewrite canonical_round_aux_id.
    + repeat split; try lia.
      * rewrite digits2_pos_iter_xO. fold d. lia.
      * rewrite Zpos_iter_xO. by replace (- (Zpos d - 24)) with (Zpos q) by lia.
    + unfold canonical_mantissa. rewrite digits2_pos_iter_xO. fold d.
      apply Z.eqb_eq. unfold fexp, emin, F32.prec, F32.emax. lia.
    + unfold F32.emax, F32.prec. lia.
Qed.

Lemma iter_pos_nat {A} (f : A -> A) (n : positive) (x : A) :
  SpecFloat.iter_pos f n x = Nat.iter (Pos.to_nat n) f x.
Proof.
  revert x. induction n as [n IH|n IH|]; intros x; cbn [SpecFloat.iter_pos].
  - rewrite !IH, Pos2Nat.inj_xI.
    replace (S (2 * Pos.to_nat n)) with (S (Pos.to_nat n + Pos.to_nat n)) by lia.
    by rewrite Nat.iter_succ_r, Nat.iter_add.
  - rewrite !IH, Pos2Nat.inj_xO.
    replace (2 * Pos.to_nat n)%nat with (Pos.to_nat n + Pos.to_nat n)%nat by lia.
    by rewrite Nat.iter_add.
  - done.
Qed.

Lemma shr_exact_nat (n : nat) (m : positive) :
  Nat.iter n shr_1 {| shr_m := Zpos (Nat.iter n xO m); shr_r := false; shr_s := false |}
  = {| shr_m := Zpos m; shr_r := false; shr_s := false |}.
Proof.
  induction n as [|n IH]; [done|].
  rewrite Nat.iter_succ_r. simpl. exact IH.
Qed.

Lemma mul_F32_one (s : bool) (m : positive) (e : Z) :
  digits2_pos m = 24%positive -> -126 <= e <= 104 ->
  F32.mul (S754_finite s m e) F32.one = S754_finite s m e.
Proof.
  intros Hd He. change F32.one with (S754_finite false 8388608 (-23)).
  unfold F32.mul, SFmul. rewrite xorb_false_r.
  rewrite Pos.mul_comm.
  change (8388608 * m)%positive with (Nat.iter 23 xO m).
  unfold binary_round_aux, shr_fexp.
  cbn [Zdigits2 shr_record_of_loc]. 
  assert (digits2_pos (Nat.iter 23 xO m) = 47%positive) as ->.
  { simpl. rewrite Hd. reflexivity. }
  assert (fexp F32.prec F32.emax (47 + (e + -23)) - (e + -23) = 23) as ->.
  { unfold fexp, emin, F32.prec, F32.emax. lia. }
  unfold shr. rewrite iter_pos_nat.
  change (Pos.to_nat 23) with 23%nat. rewrite shr_exact_nat.
  cbn [shr_m loc_of_shr_record round_nearest_even Zdigits2]. rewrite Hd.
  assert (fexp F32.prec F32.emax (24 + (e + -23 + 23)) - (e + -23 + 23) = 0) as ->.
  { unfold fexp, emin, F32.prec, F32.emax. lia. }
  cbn [shr_m]. replace (e + -23 + 23) with e by lia.
  unfold F32.emax, F32.prec. destruct (Z.leb_spec e (128 - 24)); [done|lia].
Qed.

Lemma index_of_ratio_one (N : Z) :
  0 < N <= 2 ^ 24 -> index_of N F32.one = Ok N.
Proof.
  intros HN. destruct (Z.eq_dec N (2 ^ 24)) as [->|Hne]; [reflexivity|].
  destruct N as [|p|p]; [lia| |lia].
  pose proof (digits2_pos_bounds p) as Hb.
  assert (Zpos (digits2_pos p) <= 24) as Hd.
  { destruct (Z.le_gt_cases (Zpos (digits2_pos p)) 24) as [|Hgt]; [done|].
    assert (2 ^ 24 <= 2 ^ (Zpos (digits2_pos p) - 1)); [|lia].
    apply Z.pow_le_mono_r; lia. }
  destruct (F32_of_Z_small p Hd) as (m & e & Hof & He & Hm & Hval).
  unfold index_of. rewrite Hof, mul_F32_one by (done || lia).
  unfold float_to_int, float_to, SFtrunc. cbn [cond_Zopp].
  assert (match e with Zneg q => Z.shiftr (Zpos m) (Zpos q) | _ => Z.shiftl (Zpos m) e end = Zpos p) as ->.
  { destruct e as [|q|q]; [|lia|].
    - rewrite Z.shiftl_0_r. rewrite Hval. cbn. lia.
    - rewrite Z.shiftr_div_pow2 by lia. rewrite Hval.
      change (- Zneg q) with (Zpos q). apply Z.div_mul. lia. }
  unfold INT_MIN, INT_MAX.
  destruct (Z.leb_spec (- 2 ^ 31) (Zpos p)); [|lia].
  destruct (Z.leb_spec (Zpos p) (2 ^ 31 - 1)); [done|lia].
Qed.

Lemma Zdigits2_lt_pow (a k : Z) : 0 <= a -> 0 <= k -> a < 2 ^ k -> Zdigits2 a <= k.
Proof.
  intros Ha Hk Hlt. destruct a as [|p|p]; [done| |lia].
  cbn [Zdigits2]. pose proof (digits2_pos_bounds p) as [Hlo _].
  destruct (Z.le_gt_cases (Zpos (digits2_pos p)) k) as [|Hgt]; [done|].
  assert (2 ^ k <= 2 ^ (Zpos (digits2_pos p) - 1)); [|lia].
  apply Z.pow_le_mono_r; lia.
Qed.

Lemma Zdigits2_pow_gt (a : Z) : 0 <= a -> a < 2 ^ Zdigits2 a.
Proof.
  intros Ha. destruct a as [|p|p]; [done| |lia].
  apply digits2_pos_bounds.
Qed.

Lemma Zdigits2_nonneg (a : Z) : 0 <= Zdigits2 a.
Proof. by destruct a. Qed.

Lemma Zdigits2_le_succ (a b : Z) : 0 <= a -> 0 <= b <= a + 1 -> Zdigits2 b <= Zdigits2 a + 1.
Proof.
  intros Ha Hb. pose proof (Zdigits2_pow_gt a Ha). pose proof (Zdigits2_nonneg a).
  apply Zdigits2_lt_pow; [lia..|].
  rewrite Z.pow_add_r by lia. lia.
Qed.

Lemma shr_1_bounds (r : shr_record) :
  0 <= shr_m r -> 0 <= shr_m (shr_1 r) /\ 2 * shr_m (shr_1 r) <= shr_m r.
Proof.
  destruct r as [m rb sb]. cbn [shr_m]. intros Hm.
  destruct m as [|[p|p|]|p]; cbn; lia.
Qed.

Lemma iter_shr_1_bounds (n : positive) (r : shr_record) :
  0 <= shr_m r ->
  0 <= shr_m (SpecFloat.iter_pos shr_1 n r) /\
  2 ^ Zpos n * shr_m (SpecFloat.iter_pos shr_1 n r) <= shr_m r.
Proof.
  rewrite iter_pos_nat, <- (positive_nat_Z n).
  generalize (Pos.to_nat n) as k. intros k Hm.
  induction k as [|k IH].
  { change (Nat.iter 0 shr_1 r) with r. change (2 ^ Z.of_nat 0) with 1. lia. }
  rewrite Nat2Z.inj_succ, Z.pow_succ_r by lia.
  change (Nat.iter (S k) shr_1 r) with (shr_1 (Nat.iter k shr_1 r)).
  pose proof (shr_1_bounds (Nat.iter k shr_1 r)) as Hb. nia.
Qed.

Lemma shr_fexp_bounds prec emax (m e : Z) (l : location) :
  0 <= m ->
  let r := shr_fexp prec emax m e l in
  0 <= shr_m (fst r) <= m /\
  snd r = Z.max e (fexp prec emax (Zdigits2 m + e)) /\
  (shr_m (fst r) = 0 \/ Zdigits2 (shr_m (fst r)) + snd r <= Zdigits2 m + e).
Proof.
  intros Hm. unfold shr_fexp, shr.
  assert (shr_m (shr_record_of_loc m l) = m) as Hrec.
  { by destruct l as [|[]]. }
  destruct (fexp prec emax (Zdigits2 m + e) - e) as [|p|p] eqn:Hn; cbn [fst snd].
  - rewrite Hrec. lia.
  - destruct (iter_shr_1_bounds p (shr_record_of_loc m l)) as [Hb1 Hb2];
      [rewrite Hrec; lia|].
    rewrite Hrec in Hb2.
    set (m' := shr_m (SpecFloat.iter_pos shr_1 p (shr_record_of_loc m l))) in *.
    assert (0 < 2 ^ Zpos p) by (apply Z.pow_pos_nonneg; lia).
    split; [nia|]. split; [lia|].
    destruct (Z.eq_dec m' 0) as [|Hne]; [by left|right].
    pose proof (Zdigits2_pow_gt m Hm) as Hlt.
    pose proof (Zdigits2_nonneg m) as Hd.
    assert (Zpos p < Zdigits2 m) as Hp.
    { destruct (Z.lt_ge_cases (Zpos p) (Zdigits2 m)) as [|Hge]; [done|].
      assert (2 ^ Zdigits2 m <= 2 ^ Zpos p) by (apply Z.pow_le_mono_r; lia).
      nia. }
    assert (Zdigits2 m' <= Zdigits2 m - Zpos p); [|lia].
    apply Zdigits2_lt_pow; [lia..|].
    replace (Zdigits2 m) with (Zpos p + (Zdigits2 m - Zpos p)) in Hlt by lia.
    rewrite Z.pow_add_r in Hlt by lia. nia.
  - rewrite Hrec. lia.
Qed.

Lemma round_nearest_even_bounds (m : Z) (l : location) :
  m <= round_nearest_even m l <= m + 1.
Proof. destruct l as [|[]]; cbn; try destruct (Z.even m); lia. Qed.

Lemma binary_round_aux_sign prec emax s m e l :
  has_sign s (binary_round_aux prec emax s m e l).
Proof.
  unfold binary_round_aux.
  destruct (shr_fexp prec emax m e l) as [mrs' e'].
  destruct (shr_fexp prec emax _ e' loc_Exact) as [mrs'' e''].
  destruct (shr_m mrs'') as [|p|p]; [done| |done].
  by destruct (e'' <=? emax - prec).
Qed.

Lemma magnitude_le_mono k k' x : k <= k' -> magnitude_le k x -> magnitude_le k' x.
Proof. destruct x; cbn; try done. lia. Qed.

Lemma binary_round_aux_magnitude (s : bool) (m : positive) (e : Z) (l : location) :
  e <= 104 -> Zpos (digits2_pos m) + e <= 126 ->
  magnitude_le (Z.max (Zpos (digits2_pos m) + e + 1) (-148))
    (binary_round_aux F32.prec F32.emax s (Zpos m) e l).
Proof.
  intros He Hmag. unfold binary_round_aux.
  pose proof (shr_fexp_bounds F32.prec F32.emax (Zpos m) e l ltac:(lia))
    as (Hm1 & He1 & Hd1).
  destruct (shr_fexp F32.prec F32.emax (Zpos m) e l) as [mrs' e'].
  cbn [fst snd] in Hm1, He1, Hd1.
  pose proof (round_nearest_even_bounds (shr_m mrs') (loc_of_shr_record mrs'))
    as Hr.
  set (m1 := round_nearest_even (shr_m mrs') (loc_of_shr_record mrs')) in *.
  pose proof (shr_fexp_bounds F32.prec F32.emax m1 e' loc_Exact ltac:(lia))
    as (Hm2 & He2 & Hd2).
  destruct (shr_fexp F32.prec F32.emax m1 e' loc_Exact) as [mrs'' e''].
  cbn [fst snd] in Hm2, He2, Hd2.
  destruct (shr_m mrs'') as [|p|p] eqn:Hp; [done| |lia].
  destruct Hd2 as [|Hd2]; [done|].
  pose proof (Zdigits2_le_succ (shr_m mrs') m1 ltac:(lia) ltac:(lia)) as Hd.
  assert (Zdigits2 m1 + e' <= Z.max (Zpos (digits2_pos m) + e + 1) (-148))
    as Hmag1.
  { destruct Hd1 as [Hz|Hd1].
    - rewrite Hz in Hd. cbn [Zdigits2] in *.
      unfold fexp, emin, F32.prec, F32.emax in *. lia.
    - cbn [Zdigits2] in Hd1. lia. }
  cbn [Zdigits2] in He1, Hd2.
  unfold fexp, emin, F32.prec, F32.emax in *.
  destruct (Z.leb_spec e'' (128 - 24)); cbn [magnitude_le]; lia.
Qed.

Lemma F32_of_Z_magnitude (n k : Z) :
  0 <= n < 2 ^ k -> 0 <= k <= 64 -> magnitude_le (k + 1) (F32.of_Z n).
Proof.
  intros Hn Hk. destruct n as [|p|p]; [done| |lia].
  unfold F32.of_Z, binary_normalize, binary_round.
  assert (Zpos (digits2_pos p) <= k) as Hd.
  { apply (Zdigits2_lt_pow (Zpos p)); lia. }
  destruct (shl_align p 0 _) as [mz ez] eqn:Hal.
  assert (Zpos (digits2_pos mz) + ez = Zpos (digits2_pos p) /\ ez <= 0)
    as [Hsame Hez].
  { unfold shl_align in Hal.
    destruct (fexp F32.prec F32.emax (Z.pos (digits2_pos p) + 0) - 0)
      as [|q|q] eqn:Hq; injection Hal as <- <-; [lia..|].
    rewrite digits2_pos_iter_xO.
    unfold fexp, emin, F32.prec, F32.emax in *. lia. }
  eapply magnitude_le_mono;
    [|apply binary_round_aux_magnitude; lia]. lia.
Qed.

Lemma F32_of_Z_sign (n : Z) : 0 <= n -> has_sign false (F32.of_Z n).
Proof.
  intros Hn. destruct n as [|p|p]; [done| |lia].
  unfold F32.of_Z, binary_normalize, binary_round.
  destruct (shl_align p 0 _) as [mz ez]. apply binary_round_aux_sign.
Qed.

Lemma cutoff_of_ratio_zero (n : Z) :
  0 <= n < 2 ^ 64 -> cutoff_of n F32.zero = Ok 0.
Proof.
  intros Hn. pose proof (F32_of_Z_magnitude n 64 Hn ltac:(lia)) as Hf.
  unfold cutoff_of, F32.mul, F32.zero.
  by destruct (F32.of_Z n).
Qed.

Lemma index_of_ratio_zero (n : Z) :
  0 <= n < 2 ^ 64 -> index_of n F32.zero = Ok 0.
Proof.
  intros Hn. pose proof (F32_of_Z_magnitude n 64 Hn ltac:(lia)) as Hf.
  unfold index_of, F32.mul, F32.zero.
  by destruct (F32.of_Z n).
Qed.

Lemma cutoff_of_empty (ratio : spec_float) :
  in_unit ratio -> cutoff_of 0 ratio = Ok 0.
Proof. intros [H0 H1]. by destruct ratio as [s|[]| |s m e]. Qed.

Lemma SFtrunc_nonneg (x : spec_float) (n : Z) :
  has_sign false x -> SFtrunc x = Some n -> 0 <= n.
Proof.
  destruct x as [s|s| |s m e]; cbn [has_sign SFtrunc]; try discriminate.
  - by intros _ [= <-].
  - intros -> [= <-]. cbn [cond_Zopp].
    destruct e as [|q|q].
    + rewrite Z.shiftl_0_r. lia.
    + apply Z.shiftl_nonneg. lia.
    + apply Z.shiftr_nonneg. lia.
Qed.

Lemma mul_nonneg_sign (x r : spec_float) :
  has_sign false x -> SFleb F32.zero r = true ->
  forall n, SFtrunc (F32.mul x r) = Some n -> 0 <= n.
Proof.
  intros Hx Hr n. 
  destruct r as [sr|sr| |sr mr er]; try discriminate Hr.
  - destruct x; cbn; try discriminate; by intros [= <-].
  - destruct x; cbn; discriminate.
  - destruct sr; [discriminate Hr|].
    destruct x as [sx|sx| |sx mx ex]; cbn in Hx |- *; try discriminate.
    + by intros [= <-].
    + subst sx. apply SFtrunc_nonneg. cbn [xorb]. apply binary_round_aux_sign.
Qed.

Lemma digits2_pos_mul (a b : positive) :
  Zpos (digits2_pos (a * b)) <= Zpos (digits2_pos a) + Zpos (digits2_pos b).
Proof.
  apply (Zdigits2_lt_pow (Zpos (a * b))); [lia..|].
  pose proof (digits2_pos_bounds a) as [_ Ha].
  pose proof (digits2_pos_bounds b) as [_ Hb].
  rewrite Z.pow_add_r, Pos2Z.inj_mul by lia. nia.
Qed.

Lemma F32_mul_magnitude (x y : spec_float) (a b : Z) :
  magnitude_le a x -> magnitude_le b y -> a + b <= 106 ->
  magnitude_le (Z.max (a + b + 1) (-148)) (F32.mul x y).
Proof.
  intros Hx Hy Hab.
  destruct x as [sx|sx| |sx mx ex], y as [sy|sy| |sy my ey];
    cbn [magnitude_le] in Hx, Hy; try done.
  unfold F32.mul, SFmul.
  pose proof (digits2_pos_mul mx my) as Hd.
  eapply magnitude_le_mono; [|apply binary_round_aux_magnitude; lia]. lia.
Qed.

Lemma SFtrunc_magnitude (x : spec_float) (k : Z) :
  magnitude_le k x -> 0 <= k ->
  exists n, SFtrunc x = Some n /\ - 2 ^ k < n < 2 ^ k.
Proof.
  intros Hx Hk.
  assert (0 < 2 ^ k) as Hpow by (apply Z.pow_pos_nonneg; lia).
  destruct x as [s|s| |s m e]; cbn [magnitude_le] in Hx; try done.
  { exists 0. split; [done|lia]. }
  cbn [SFtrunc]. eexists. split; [reflexivity|].
  pose proof (digits2_pos_bounds m) as [_ Hm].
  set (t := match e with
            | Zneg p => Z.shiftr (Zpos m) (Zpos p)
            | _ => Z.shiftl (Zpos m) e
            end).
  assert (0 <= t < 2 ^ k) as Ht.
  { assert (2 ^ (Zpos (digits2_pos m) + e) <= 2 ^ k) as Hle.
    { destruct (Z.le_gt_cases 0 (Zpos (digits2_pos m) + e)).
      - apply Z.pow_le_mono_r; lia.
      - rewrite Z.pow_neg_r by lia. lia. }
    unfold t. destruct e as [|q|q].
    - rewrite Z.shiftl_0_r, Z.add_0_r in *. lia.
    - rewrite Z.shiftl_mul_pow2 by lia.
      rewrite Z.pow_add_r in Hle by lia.
      assert (0 < 2 ^ Zpos q) by (apply Z.pow_pos_nonneg; lia). nia.
    - rewrite Z.shiftr_div_pow2 by lia.
      assert (0 < 2 ^ Zpos q) by (apply Z.pow_pos_nonneg; lia).
      split; [apply Z.div_pos; lia|].
      destruct (Z.le_gt_cases 0 (Zpos (digits2_pos m) + Zneg q)) as [Hge|Hlt].
      + apply Z.lt_le_trans with (2 ^ (Zpos (digits2_pos m) + Zneg q)); [|done].
        apply Z.div_lt_upper_bound; [lia|].
        rewrite <- Z.pow_add_r by lia.
        replace (Zpos q + (Zpos (digits2_pos m) + Zneg q))
          with (Zpos (digits2_pos m)) by lia. done.
      + rewrite Z.div_small; [lia|]. split; [lia|].
        apply Z.lt_le_trans with (2 ^ Zpos (digits2_pos m)); [done|].
        apply Z.pow_le_mono_r; lia. }
  destruct s; cbn [cond_Zopp]; lia.
Qed.

(** A binary32 value between 0 and 1 is below 2 in magnitude. *)
Lemma in_unit_magnitude (ratio : spec_float) :
  in_unit ratio -> valid_binary F32.prec F32.emax ratio = true ->
  magnitude_le 1 ratio.
Proof.
  intros [H0 H1] Hvalid.
  destruct ratio as [s|s| |s m e]; cbn [magnitude_le]; try done.
  - by destruct s.
  - destruct s; [discriminate H0|].
    cbn [valid_binary] in Hvalid. unfold bounded, canonical_mantissa in Hvalid.
    apply andb_true_iff in Hvalid as [Hcanon%Z.eqb_eq _].
    change F32.one with (S754_finite false 8388608 (-23)) in H1.
    unfold SFleb, SFcompare in H1.
    destruct (Z.compare_spec e (-23)) as [->|Hlt|Hgt]; [| |discriminate H1];
      unfold fexp, emin, F32.prec, F32.emax in Hcanon; lia.
Qed.

Lemma cutoff_of_defined (size : Z) (ratio : spec_float) :
  0 <= size <= INT_MAX -> in_unit ratio ->
  valid_binary F32.prec F32.emax ratio = true ->
  exists cutoff, cutoff_of size ratio = Ok cutoff /\ 0 <= cutoff.
Proof.
  intros Hsize Hunit Hvalid.
  pose proof (F32_of_Z_magnitude size 31 ltac:(unfold INT_MAX in *; lia)
                ltac:(lia)) as Hx.
  pose proof (in_unit_magnitude ratio Hunit Hvalid) as Hr.
  pose proof (F32_mul_magnitude _ _ _ _ Hx Hr ltac:(lia)) as Hmag.
  destruct (SFtrunc_magnitude _ _ Hmag ltac:(lia)) as (n & Hn & Hbound).
  assert (0 <= n) as Hpos.
  { apply (mul_nonneg_sign (F32.of_Z size) ratio); [|apply Hunit|done].
    apply F32_of_Z_sign. lia. }
  exists n. split; [|done].
  unfold cutoff_of, float_to_size_t, float_to. rewrite Hn.
  destruct (Z.leb_spec 0 n); [|lia].
  destruct (Z.leb_spec n SIZE_MAX); [done|].
  unfold SIZE_MAX in *. change (Z.max (31 + 1 + 1 + 1) (-148)) with 34 in Hbound.
  lia.
Qed.

Lemma index_of_cutoff_of (size : Z) (ratio : spec_float) (n : Z) :
  index_of size ratio = Ok n -> 0 <= n -> cutoff_of size ratio = Ok n.
Proof.
  unfold index_of, cutoff_of, float_to_int, float_to_size_t, float_to.
  destruct (SFtrunc _) as [t|]; [|discriminate].
  destruct (Z.leb_spec INT_MIN t); [|discriminate].
  destruct (Z.leb_spec t INT_MAX); [|discriminate].
  intros [= ->] Hn.
  destruct (Z.leb_spec 0 n); [|lia].
  destruct (Z.leb_spec n SIZE_MAX); [done|unfold SIZE_MAX, INT_MAX in *; lia].
Qed.

Lemma index_of_nonneg (size : Z) (ratio : spec_float) (n : Z) :
  0 <= size -> SFleb F32.zero ratio = true ->
  index_of size ratio = Ok n -> 0 <= n.
Proof.
  intros Hsize Hr. unfold index_of, float_to_int, float_to.
  destruct (SFtrunc _) as [t|] eqn:Ht; [|discriminate].
  destruct (_ && _); [|discriminate]. intros [= <-].
  apply (mul_nonneg_sign (F32.of_Z size) ratio); [|done..].
  by apply F32_of_Z_sign.
Qed.

(** ** Programs that only read the buffer *)

Lemma readonly_ret {A} (a : A) : readonly (ret a).
Proof. intros buf a' buf'. unfold ret. by intros [= _ ->]. Qed.

Lemma readonly_fail {A} (f : fault) : readonly (@fail buffer A f).
Proof. intros buf a buf'. discriminate. Qed.

Lemma readonly_lift {A} (r : result A) : readonly (lift r).
Proof. intros buf a buf' H. by apply lift_inv in H as [_ ->]. Qed.

Lemma readonly_read (i : Z) : readonly (read i).
Proof. intros buf a buf' H. by apply read_inv in H as (_ & _ & ->). Qed.

Lemma readonly_bind {A B} (c : prog buffer A) (k : A -> prog buffer B) :
  readonly c -> (forall a, readonly (k a)) -> readonly (bind c k).
Proof.
  intros Hc Hk buf b buf' H.
  apply bind_inv in H as (a & buf1 & H1 & H2).
  apply Hc in H1 as ->. by apply Hk in H2.
Qed.

Create HintDb readonly.
#[export] Hint Resolve readonly_ret readonly_fail readonly_lift readonly_read
  : readonly.

Ltac readonly_step :=
  lazymatch goal with
  | |- readonly (bind _ _) => apply readonly_bind; [|intros ?]
  | |- readonly (if ?b then _ else _) => destruct b
  | |- readonly (let x := _ in _) => cbv zeta
  | |- _ => solve [eauto with readonly]
  end.

Lemma counting_sort_fill_readonly fuel image_size pixel count :
  readonly (counting_sort_fill fuel image_size pixel count).
Proof.
  revert pixel count.
  induction fuel as [|fuel IH]; intros pixel count; cbn [counting_sort_fill];
    repeat readonly_step.
Qed.

Lemma uniform_sample_fill_readonly fuel image_size sample_rate pixel count :
  readonly (uniform_sample_fill fuel image_size sample_rate pixel count).
Proof.
  revert pixel count.
  induction fuel as [|fuel IH]; intros pixel count; cbn [uniform_sample_fill];
    repeat readonly_step.
Qed.

Lemma sum_pixels_readonly fuel size pixel total :
  readonly (sum_pixels fuel size pixel total).
Proof.
  revert pixel total.
  induction fuel as [|fuel IH]; intros pixel total; cbn [sum_pixels];
    repeat readonly_step.
Qed.

Lemma sum_squares_readonly `{Libm} fuel size average pixel sigma_total :
  readonly (sum_squares fuel size average pixel sigma_total).
Proof.
  revert pixel sigma_total.
  induction fuel as [|fuel IH]; intros pixel sigma_total; cbn [sum_squares];
    repeat readonly_step.
Qed.

#[export] Hint Resolve counting_sort_fill_readonly uniform_sample_fill_readonly
  sum_pixels_readonly sum_squares_readonly : readonly.

Lemma counting_sort_readonly width height ratio :
  readonly (counting_sort width height ratio).
Proof. unfold counting_sort. repeat readonly_step. Qed.

Lemma uniform_sample_readonly width height sample_rate ratio :
  readonly (uniform_sample width height sample_rate ratio).
Proof. unfold uniform_sample. repeat readonly_step. Qed.

Lemma normal_estimate_value_readonly `{Libm} width height ratio :
  readonly (normal_estimate_value width height ratio).
Proof. unfold normal_estimate_value. repeat readonly_step. Qed.

Lemma normal_estimate_readonly `{Libm} width height ratio :
  readonly (normal_estimate width height ratio).
Proof.
  unfold normal_estimate. apply readonly_bind.
  - apply normal_estimate_value_readonly.
  - intros x. apply readonly_lift.
Qed.

Lemma weighted_estimate_readonly width height ratio :
  readonly (weighted_estimate width height ratio).
Proof. unfold weighted_estimate. repeat readonly_step. Qed.

(** ** Programs that only look at the first [size] pixels

    Memory past the image does not influence such a program: run on a
    longer buffer it has the same outcome and leaves the tail alone. *)

Lemma local_ret size {A} (a : A) : local_to size (ret a).
Proof. by intros buf extra _. Qed.

Lemma local_fail size {A} (f : fault) : local_to size (@fail buffer A f).
Proof. by intros buf extra _. Qed.

Lemma local_lift size {A} (r : result A) : local_to size (lift r).
Proof. intros buf extra _. by destruct r. Qed.

Lemma local_read size (i : Z) : i < size -> local_to size (read i).
Proof.
  intros Hi buf extra Hlen. unfold read.
  destruct (Z.ltb_spec i 0); [done|].
  rewrite lookup_app_l by lia.
  by destruct (buf !! Z.to_nat i).
Qed.

Lemma local_bind size {A B} (c : prog buffer A) (k : A -> prog buffer B) :
  local_to size c -> readonly c -> (forall a, local_to size (k a)) ->
  local_to size (bind c k).
Proof.
  intros Hc Hro Hk buf extra Hlen. unfold bind.
  rewrite (Hc buf extra Hlen).
  destruct (c buf) as [[a b]|f] eqn:E; [|done].
  apply Hro in E as ->. cbn. by apply Hk.
Qed.

Ltac local_step :=
  lazymatch goal with
  | |- local_to _ (bind _ _) =>
      apply local_bind; [|solve [eauto with readonly]|intros ?]
  | |- local_to _ (ret _) => apply local_ret
  | |- local_to _ (fail _) => apply local_fail
  | |- local_to _ (lift _) => apply local_lift
  | |- local_to _ (read _) => apply local_read; lia
  | |- local_to _ (let x := _ in _) => cbv zeta
  end.

Lemma counting_sort_fill_local size fuel pixel count :
  local_to size (counting_sort_fill fuel size pixel count).
Proof.
  revert pixel count.
  induction fuel as [|fuel IH]; intros pixel count; cbn [counting_sort_fill];
    destruct (Z.ltb_spec pixel size); repeat local_step; apply IH.
Qed.

Lemma uniform_sample_fill_local size sample_rate fuel pixel count :
  local_to size (uniform_sample_fill fuel size sample_rate pixel count).
Proof.
  revert pixel count.
  induction fuel as [|fuel IH]; intros pixel count; cbn [uniform_sample_fill];
    destruct (Z.ltb_spec pixel size); repeat local_step; apply IH.
Qed.

Lemma sum_pixels_local size fuel pixel total :
  local_to size (sum_pixels fuel size pixel total).
Proof.
  revert pixel total.
  induction fuel as [|fuel IH]; intros pixel total; cbn [sum_pixels];
    destruct (Z.ltb_spec pixel size); repeat local_step; apply IH.
Qed.

Lemma sum_squares_local `{Libm} size average fuel pixel sigma_total :
  local_to size (sum_squares fuel size average pixel sigma_total).
Proof.
  revert pixel sigma_total.
  induction fuel as [|fuel IH]; intros pixel sigma_total; cbn [sum_squares];
    destruct (Z.ltb_spec pixel size); repeat local_step; apply IH.
Qed.

(** The estimators start from [width * height]; when this is the
    length of a buffer it is its own [size_t] value. *)
Lemma bind_int_mul_local {A} width height (k : Z -> prog buffer A) :
  (0 <= width * height <= INT_MAX ->
   local_to (width * height) (k (width * height))) ->
  local_to (width * height) (bind (lift (int_mul width height)) k).
Proof.
  intros Hk buf extra Hlen. unfold bind, lift.
  destruct (int_mul width height) as [n|f] eqn:E; [|done].
  apply int_mul_inv in E as [-> ?]. apply Hk; lia.
Qed.

Lemma counting_sort_local width height ratio :
  local_to (width * height) (counting_sort width height ratio).
Proof.
  unfold counting_sort. apply bind_int_mul_local. intros Hsize. cbv zeta.
  rewrite to_size_t_small by (unfold SIZE_MAX, INT_MAX in *; lia).
  repeat local_step. apply counting_sort_fill_local.
Qed.

Lemma uniform_sample_local width height sample_rate ratio :
  local_to (width * height) (uniform_sample width height sample_rate ratio).
Proof.
  unfold uniform_sample. apply bind_int_mul_local. intros Hsize. cbv zeta.
  rewrite to_size_t_small by (unfold SIZE_MAX, INT_MAX in *; lia).
  repeat local_step. apply uniform_sample_fill_local.
Qed.

Lemma normal_estimate_local `{Libm} width height ratio :
  local_to (width * height) (normal_estimate width height ratio).
Proof.
  unfold normal_estimate. apply local_bind.
  - unfold normal_estimate_value. apply bind_int_mul_local. intros Hsize.
    repeat local_step; [apply sum_pixels_local|apply sum_squares_local].
  - apply normal_estimate_value_readonly.
  - intros x. apply local_lift.
Qed.

Lemma weighted_estimate_local width height ratio :
  local_to (width * height) (weighted_estimate width height ratio).
Proof.
  unfold weighted_estimate. apply bind_int_mul_local. intros Hsize.
  repeat local_step. apply sum_pixels_local.
Qed.

(** C8: each of the four non-destructive estimators ([counting_sort],
    [normal_estimate], [weighted_estimate], [uniform_sample]) leaves
    the buffer as it found it: whenever it returns, the buffer it
    hands back is the buffer it was given.  Its outcome is determined
    by the [width * height] pixels of the image, [width], [height] and
    [ratio] (for [uniform_sample] also by the stride it is called
    with, a constant of the harness): whatever lies in memory after
    the image changes neither the threshold nor the fault. *)
Theorem non_destructive_estimators `{Libm}
    (buf extra : buffer) (width height sample_rate : Z) (ratio : spec_float) :
  Z.of_nat (length buf) = width * height ->
  let pure_on_image (estimator : prog buffer Z) :=
    (forall t buf', estimator buf = Ok (t, buf') -> buf' = buf) /\
    estimator (buf ++ extra) = extend extra (estimator buf) in
  pure_on_image (counting_sort width height ratio) /\
  pure_on_image (normal_estimate width height ratio) /\
  pure_on_image (weighted_estimate width height ratio) /\
  pure_on_image (uniform_sample width height sample_rate ratio).
Proof.
  intros Hlen pure_on_image. unfold pure_on_image.
  repeat split.
  - intros t buf'. apply counting_sort_readonly.
  - by apply counting_sort_local.
  - intros t buf'. apply normal_estimate_readonly.
  - by apply normal_estimate_local.
  - intros t buf'. apply weighted_estimate_readonly.
  - by apply weighted_estimate_local.
  - intros t buf'. apply uniform_sample_readonly.
  - by apply uniform_sample_local.
Qed.

(** ** The histogram loops *)

Lemma image_of_size buf width height :
  image_of buf width height ->
  int_mul width height = Ok (Z.of_nat (length buf)) /\
  to_size_t (Z.of_nat (length buf)) = Z.of_nat (length buf).
Proof.
  intros (Hlen & Hmax & _). split.
  - rewrite Hlen. apply int_mul_Ok. unfold INT_MIN. lia.
  - apply to_size_t_small. unfold SIZE_MAX, INT_MAX in *. lia.
Qed.

Lemma new_count_length : length new_count = Z.to_nat BINS.
Proof. unfold new_count. apply length_replicate. Qed.

Lemma count_incr_Ok (count : list Z) (p : Z) :
  length count = Z.to_nat BINS -> is_Pixel p ->
  exists count', count_incr count p = Ok count' /\
                 length count' = Z.to_nat BINS.
Proof.
  intros Hlen [Hp1 Hp2]. unfold count_incr.
  destruct (Z.ltb_spec p 0); [lia|].
  destruct (lookup_lt_is_Some_2 count (Z.to_nat p)) as [c Hc].
  { rewrite Hlen. unfold PIXEL_MAX, BINS in *. cbn in *. lia. }
  rewrite Hc. eexists. split; [done|]. by rewrite length_insert.
Qed.

Lemma uniform_sample_fill_stride_1 fuel image_size pixel count buf :
  uniform_sample_fill fuel image_size 1 pixel count buf
  = counting_sort_fill fuel image_size pixel count buf.
Proof.
  revert pixel count buf.
  induction fuel as [|fuel IH]; intros pixel count buf;
    cbn [uniform_sample_fill counting_sort_fill];
    destruct (pixel <? image_size); try done.
  unfold bind. destruct (read pixel buf) as [[p b]|]; [|done].
  destruct (lift (count_incr count p) b) as [[c b']|]; [|done].
  apply IH.
Qed.

Lemma uniform_sample_fill_Ok (buf : buffer) (sample_rate : Z) :
  Forall is_Pixel buf -> Z.of_nat (length buf) <= INT_MAX ->
  1 <= sample_rate < 2 ^ 32 ->
  forall (fuel : nat) pixel count,
    0 <= pixel -> Z.of_nat (length buf) - pixel <= Z.of_nat fuel ->
    length count = Z.to_nat BINS ->
    exists count',
      uniform_sample_fill fuel (Z.of_nat (length buf)) sample_rate pixel count buf
      = Ok (count', buf) /\ length count' = Z.to_nat BINS.
Proof.
  intros Hpix Hmax Hrate fuel.
  induction fuel as [|fuel IH]; intros pixel count Hpos Hfuel Hcount;
    cbn [uniform_sample_fill];
    destruct (Z.ltb_spec pixel (Z.of_nat (length buf))) as [Hlt|Hge];
    try (eexists; split; [reflexivity|done]); [lia|].
  destruct (lookup_lt_is_Some_2 buf (Z.to_nat pixel)) as [p Hp]; [lia|].
  assert (is_Pixel p) as Hpx.
  { rewrite Forall_lookup in Hpix. by eapply Hpix. }
  destruct (count_incr_Ok count p Hcount Hpx) as (count' & Hincr & Hlen').
  rewrite (bind_Ok _ _ _ p buf).
  2:{ rewrite <- (Z2Nat.id pixel) by lia. by apply read_Ok. }
  rewrite (bind_Ok _ _ _ count' buf) by by apply lift_Ok.
  rewrite to_size_t_small by (unfold SIZE_MAX, INT_MAX in *; lia).
  apply IH; [lia|lia|done].
Qed.

Lemma scan_count_Ok (count : list Z) (cutoff : Z) :
  length count = Z.to_nat BINS ->
  forall (fuel : nat) total index,
    0 <= index <= BINS -> BINS - index <= Z.of_nat fuel ->
    exists i, scan_count fuel count cutoff total index = Ok i /\
              index <= i <= BINS.
Proof.
  intros Hcount fuel.
  induction fuel as [|fuel IH]; intros total index Hpos Hfuel;
    cbn [scan_count];
    destruct ((total <? cutoff) && (index <? BINS)) eqn:Hgo;
    try (exists index; split; [reflexivity|lia]);
    apply andb_true_iff in Hgo as [_ Hlt%Z.ltb_lt]; [lia|].
  destruct (lookup_lt_is_Some_2 count (Z.to_nat index)) as [c Hc]; [lia|].
  rewrite Hc.
  destruct (IH (to_size_t (total + c)) (index + 1)) as (i & Hi & Hbound);
    [lia|lia|].
  exists i. split; [done|lia].
Qed.

(** With no work left the loop stops at once, whatever the fuel. *)
Lemma scan_count_cutoff_0 (fuel : nat) (count : list Z) :
  scan_count fuel count 0 0 0 = Ok 0.
Proof. by destruct fuel. Qed.

Lemma clamp_index_0 : clamp_index 0 = PIXEL_MAX.
Proof. reflexivity. Qed.

Lemma clamp_index_pos (index : Z) :
  1 <= index <= BINS -> clamp_index index = index - 1.
Proof.
  intros H. change BINS with 256 in H. unfold clamp_index.
  rewrite (to_size_t_small (index - 1)) by (unfold SIZE_MAX; lia).
  change (to_size_t 0) with 0. rewrite Z.max_r by lia.
  unfold to_Pixel. change (2 ^ BIT_DEPTH) with 256. apply Z.mod_small. lia.
Qed.

Lemma clamp_index_is_Pixel (index : Z) : is_Pixel (clamp_index index).
Proof.
  unfold is_Pixel, clamp_index, to_Pixel.
  change PIXEL_MAX with 255. change (2 ^ BIT_DEPTH) with 256.
  pose proof (Z.mod_pos_bound
    (Z.max (to_size_t 0) (to_size_t (index - 1))) 256) as H.
  lia.
Qed.

Lemma uniform_sample_run buf width height sample_rate ratio cutoff :
  image_of buf width height -> 1 <= sample_rate < 2 ^ 32 ->
  cutoff_of (Z.of_nat (length buf) / sample_rate) ratio = Ok cutoff ->
  exists count index,
    length count = Z.to_nat BINS /\
    scan_count (Z.to_nat BINS) count cutoff 0 0 = Ok index /\
    0 <= index <= BINS /\
    uniform_sample width height sample_rate ratio buf
    = Ok (clamp_index index, buf).
Proof.
  intros Himg Hrate Hcut.
  destruct (image_of_size _ _ _ Himg) as [Hmul Hsize].
  destruct Himg as (Hlen & Hmax & Hpix).
  destruct (uniform_sample_fill_Ok buf sample_rate Hpix ltac:(lia) Hrate
              (length buf) 0 new_count) as (count & Hfill & Hcount);
    [lia|lia|apply new_count_length|].
  destruct (scan_count_Ok count cutoff Hcount (Z.to_nat BINS) 0 0)
    as (index & Hscan & Hindex); [done|lia|].
  exists count, index. repeat split; [done..|lia| |]; [lia|].
  unfold uniform_sample.
  rewrite (bind_Ok _ _ _ _ buf) by (apply lift_Ok, Hmul).
  cbv zeta. rewrite Hsize, Nat2Z.id.
  rewrite (bind_Ok _ _ _ _ _ Hfill).
  rewrite (bind_Ok _ _ _ (Z.of_nat (length buf) / sample_rate) buf).
  2:{ apply lift_Ok. unfold size_t_div.
      destruct (Z.eqb_spec sample_rate 0); [lia|done]. }
  rewrite (bind_Ok _ _ _ cutoff buf) by (apply lift_Ok, Hcut).
  by rewrite (bind_Ok _ _ _ index buf) by (apply lift_Ok, Hscan).
Qed.

(** C4: sampling every pixel is counting every pixel.  With
    [sample_rate = 1], [uniform_sample] has the outcome of
    [counting_sort] on every buffer, every size and every ratio: the
    same threshold when they return, the same fault when they do
    not. *)
Theorem uniform_sample_rate_1_agrees_with_counting_sort
    (buf : buffer) (width height : Z) (ratio : spec_float) :
  uniform_sample width height 1 ratio buf
  = counting_sort width height ratio buf.
Proof.
  unfold uniform_sample, counting_sort, bind.
  destruct (lift (int_mul width height) buf) as [[n b]|]; [|done].
  rewrite uniform_sample_fill_stride_1.
  destruct (counting_sort_fill _ _ _ _ _) as [[count b']|]; [|done].
  unfold size_t_div. cbn [Z.eqb lift]. by rewrite Z.div_1_r.
Qed.

(** ** What counting_sort computes *)

Lemma filter_none {A} (P : A -> Prop) `{!forall x, Decision (P x)} (l : list A) :
  Forall (fun x => ~ P x) l -> filter P l = [].
Proof.
  induction 1 as [|x l Hx _ IH]; [done|]. by rewrite filter_cons_False.
Qed.

Lemma filter_all {A} (P : A -> Prop) `{!forall x, Decision (P x)} (l : list A) :
  Forall P l -> filter P l = l.
Proof.
  induction 1 as [|x l Hx _ IH]; [done|]. by rewrite filter_cons_True, IH.
Qed.

Lemma occurrences_nil v : occurrences v [] = 0.
Proof. reflexivity. Qed.

Lemma occurrences_snoc v a l :
  occurrences v (l ++ [a]) = occurrences v l + (if decide (a = v) then 1 else 0).
Proof.
  unfold occurrences. rewrite filter_app, length_app, filter_cons, filter_nil.
  destruct (decide (a = v)); cbn [length]; lia.
Qed.

Lemma occurrences_bounds v l : 0 <= occurrences v l <= Z.of_nat (length l).
Proof.
  unfold occurrences. pose proof (length_filter (fun x => x = v) l). lia.
Qed.

Lemma below_succ i l : below (i + 1) l = below i l + occurrences i l.
Proof.
  unfold below, occurrences.
  induction l as [|a l IH]; [done|].
  rewrite !filter_cons.
  destruct (decide (a < i + 1)), (decide (a < i)), (decide (a = i));
    cbn [length]; lia.
Qed.

Lemma below_0 l : Forall is_Pixel l -> below 0 l = 0.
Proof.
  intros Hpix. unfold below. rewrite filter_none; [done|].
  eapply Forall_impl; [exact Hpix|]. unfold is_Pixel. intros x ?. lia.
Qed.

Lemma below_BINS l : Forall is_Pixel l -> below BINS l = Z.of_nat (length l).
Proof.
  intros Hpix. unfold below. rewrite filter_all; [done|].
  eapply Forall_impl; [exact Hpix|]. unfold is_Pixel.
  change PIXEL_MAX with 255. change BINS with 256. intros x ?. lia.
Qed.

Lemma below_bounds i l : 0 <= below i l <= Z.of_nat (length l).
Proof. unfold below. pose proof (length_filter (fun x => x < i) l). lia. Qed.

Lemma histogram_new_count : histogram_of new_count [].
Proof.
  split; [apply new_count_length|].
  intros v c Hc. unfold new_count in Hc.
  apply lookup_replicate in Hc as [-> _]. done.
Qed.

Lemma histogram_incr count done a :
  histogram_of count done -> is_Pixel a ->
  Z.of_nat (length done) < SIZE_MAX ->
  exists count', count_incr count a = Ok count' /\
                 histogram_of count' (done ++ [a]).
Proof.
  intros [Hlen Hcount] Ha Hsize. unfold count_incr.
  pose proof Ha as [Ha1 Ha2]. change PIXEL_MAX with 255 in Ha2.
  destruct (Z.ltb_spec a 0); [lia|].
  destruct (lookup_lt_is_Some_2 count (Z.to_nat a)) as [c Hc].
  { rewrite Hlen. change BINS with 256. lia. }
  rewrite Hc. eexists. split; [done|].
  split; [by rewrite length_insert|].
  intros v c' Hc'. rewrite occurrences_snoc.
  destruct (decide (v = Z.to_nat a)) as [->|Hne].
  - rewrite list_lookup_insert_eq in Hc' by (by eapply lookup_lt_Some).
    injection Hc' as <-. apply Hcount in Hc. rewrite Z2Nat.id in * by lia.
    rewrite decide_True by done. subst c.
    pose proof (occurrences_bounds a done).
    apply to_size_t_small. lia.
  - rewrite list_lookup_insert_ne in Hc' by done.
    apply Hcount in Hc'. rewrite decide_False by lia. lia.
Qed.

Lemma counting_sort_fill_histogram (rest done : buffer) (fuel : nat)
    (count : list Z) :
  histogram_of count done -> Forall is_Pixel rest ->
  Z.of_nat (length (done ++ rest)) < SIZE_MAX ->
  (length rest <= fuel)%nat ->
  exists count',
    counting_sort_fill fuel (Z.of_nat (length (done ++ rest)))
      (Z.of_nat (length done)) count (done ++ rest)
    = Ok (count', done ++ rest) /\
    histogram_of count' (done ++ rest).
Proof.
  revert done fuel count.
  induction rest as [|a rest IH]; intros done fuel count Hhist Hpix Hsize Hfuel.
  - rewrite app_nil_r. exists count. split; [|done].
    destruct fuel; cbn [counting_sort_fill]; by rewrite Z.ltb_irrefl.
  - destruct fuel as [|fuel]; [cbn [length] in Hfuel; lia|].
    cbn [counting_sort_fill].
    rewrite length_app in Hsize. cbn [length] in Hsize, Hfuel.
    destruct (Z.ltb_spec (Z.of_nat (length done))
                (Z.of_nat (length (done ++ a :: rest)))) as [_|Hge].
    2:{ rewrite length_app in Hge. cbn [length] in Hge. lia. }
    rewrite (bind_Ok _ _ _ _ _ (read_middle done rest a)).
    apply Forall_cons in Hpix as [Ha Hpix].
    destruct (histogram_incr count done a Hhist Ha ltac:(lia))
      as (count1 & Hincr & Hhist1).
    rewrite (bind_Ok _ _ _ _ _ (lift_Ok _ _ _ Hincr)).
    rewrite to_size_t_small by lia.
    rewrite (cons_middle a), app_assoc.
    replace (Z.of_nat (length done) + 1)
      with (Z.of_nat (length (done ++ [a])))
      by (rewrite length_app; cbn [length]; lia).
    apply IH; [done|done| |lia].
    rewrite !length_app. cbn [length]. lia.
Qed.

Lemma scan_count_first_crossing (count : list Z) (buf : buffer) (cutoff : Z) :
  histogram_of count buf -> Z.of_nat (length buf) <= SIZE_MAX ->
  forall (fuel : nat) index i,
    0 <= index <= BINS -> BINS - index <= Z.of_nat fuel ->
    scan_count fuel count cutoff (below index buf) index = Ok i ->
    index <= i <= BINS /\
    (cutoff <= below i buf \/ i = BINS) /\
    (forall j, index <= j < i -> below j buf < cutoff).
Proof.
  intros [Hlen Hcount] Hsize fuel.
  induction fuel as [|fuel IH]; intros index i Hindex Hfuel;
    cbn [scan_count];
    destruct (Z.ltb_spec (below index buf) cutoff) as [Hlt|Hge];
    destruct (Z.ltb_spec index BINS) as [Hlt'|Hge']; cbn [andb];
    try (intros [= <-]; split; [lia|]; split; [lia|]; intros; lia);
    [lia|].
  destruct (lookup_lt_is_Some_2 count (Z.to_nat index)) as [c Hc]; [lia|].
  rewrite Hc. apply Hcount in Hc. rewrite Z2Nat.id in Hc by lia.
  pose proof (below_bounds (index + 1) buf) as Hb.
  rewrite below_succ in Hb.
  rewrite <- Hc in Hb. rewrite to_size_t_small by lia.
  rewrite Hc, <- below_succ. intros Hscan.
  apply IH in Hscan as (Hi & Hcross & Hfirst); [|lia..].
  split; [lia|]. split; [done|].
  intros j Hj. destruct (Z.eq_dec j index) as [->|]; [done|]. apply Hfirst. lia.
Qed.

Lemma filter_length_le {A} (P Q : A -> Prop) `{!forall x, Decision (P x)}
    `{!forall x, Decision (Q x)} (l : list A) :
  (forall x, P x -> Q x) -> (length (filter P l) <= length (filter Q l))%nat.
Proof.
  intros HPQ. induction l as [|a l IH]; [done|].
  rewrite !filter_cons.
  destruct (decide (P a)) as [HP|], (decide (Q a)) as [|HQ]; cbn [length];
    try lia.
  destruct HQ. by apply HPQ.
Qed.

(** In a sorted list the element at index [k] has at most [k] elements
    below it and at least [k + 1] elements not above it. *)
Lemma sorted_rank (s : list Z) (k : nat) (v : Z) :
  StronglySorted Z.le s -> s !! k = Some v ->
  (length (filter (fun x => (x < v)%Z) s) <= k
   < length (filter (fun x => (x <= v)%Z) s))%nat.
Proof.
  intros Hs Hk.
  pose proof (lookup_lt_Some _ _ _ Hk) as Hlen.
  rewrite <- (take_drop_middle s k v Hk).
  rewrite !filter_app, !filter_cons, !length_app.
  destruct (decide (v < v)) as [|_]; [lia|].
  destruct (decide (v <= v)) as [_|]; [|lia].
  rewrite (filter_none (fun x => x < v) (drop (S k) s)).
  2:{ apply Forall_lookup. intros i x Hi. rewrite lookup_drop in Hi.
      assert (v <= x); [|lia].
      apply (StronglySorted_lookup_le s k (S k + i) v x Hs); [lia|done..]. }
  rewrite (filter_all (fun x => x <= v) (take k s)).
  2:{ apply Forall_lookup. intros i x Hi. apply lookup_take_Some in Hi as [Hi ?].
      apply (StronglySorted_lookup_le s i k x v Hs); [lia|done..]. }
  pose proof (length_filter (fun x => x < v) (take k s)).
  rewrite length_take in *. cbn [length]. lia.
Qed.

Lemma merge_sort_length (l : list Z) : length (merge_sort Z.le l) = length l.
Proof. apply Permutation_length, merge_sort_Permutation. Qed.

(** The rank of a value fixes its place in the sorted buffer. *)
Lemma rank_unique (buf : buffer) (k : nat) (v : Z) :
  (length (filter (fun x => (x < v)%Z) buf) <= k
   < length (filter (fun x => (x <= v)%Z) buf))%nat ->
  merge_sort Z.le buf !! k = Some v.
Proof.
  intros [Hlo Hhi].
  destruct (lookup_lt_is_Some_2 (merge_sort Z.le buf) k) as [u Hu].
  { rewrite merge_sort_length.
    pose proof (length_filter (fun x => x <= v) buf). lia. }
  pose proof (sorted_rank _ _ _ (merge_sort_sorted buf) Hu) as Hrank.
  rewrite !(merge_sort_Permutation Z.le buf) in Hrank.
  destruct (Z.lt_trichotomy u v) as [Hlt|[->|Hgt]]; [|done|].
  - assert (length (filter (fun x => (x <= u)%Z) buf)
            <= length (filter (fun x => (x < v)%Z) buf))%nat
      by (apply filter_length_le; intros; lia). lia.
  - assert (length (filter (fun x => (x <= v)%Z) buf)
            <= length (filter (fun x => (x < u)%Z) buf))%nat
      by (apply filter_length_le; intros; lia). lia.
Qed.

Lemma counting_sort_run buf width height ratio cutoff :
  image_of buf width height ->
  cutoff_of (Z.of_nat (length buf)) ratio = Ok cutoff ->
  exists count index,
    histogram_of count buf /\
    scan_count (Z.to_nat BINS) count cutoff 0 0 = Ok index /\
    0 <= index <= BINS /\
    counting_sort width height ratio buf = Ok (clamp_index index, buf).
Proof.
  intros Himg Hcut.
  destruct (image_of_size _ _ _ Himg) as [Hmul Hsize].
  pose proof Himg as (Hlen & Hmax & Hpix).
  destruct (counting_sort_fill_histogram buf [] (length buf) new_count)
    as (count & Hfill & Hhist);
    [apply histogram_new_count|done| |lia|].
  { cbn [app]. unfold SIZE_MAX, INT_MAX in *. lia. }
  cbn [app length] in Hfill, Hhist.
  destruct (scan_count_Ok count cutoff (proj1 Hhist) (Z.to_nat BINS) 0 0)
    as (index & Hscan & Hindex); [change BINS with 256; lia|lia|].
  exists count, index. split; [done|]. split; [done|]. split; [lia|].
  unfold counting_sort.
  rewrite (bind_Ok _ _ _ _ _ (lift_Ok _ _ _ Hmul)). cbv zeta.
  rewrite Hsize, Nat2Z.id.
  rewrite (bind_Ok _ _ _ _ _ Hfill).
  rewrite (bind_Ok _ _ _ cutoff buf) by (apply lift_Ok, Hcut).
  by rewrite (bind_Ok _ _ _ index buf) by (apply lift_Ok, Hscan).
Qed.

(** [counting_sort] returns the pixel of rank [cutoff] counted from 1:
    the element at index [cutoff - 1] of the sorted buffer. *)
Theorem counting_sort_order_statistic
    (buf : buffer) (width height : Z) (ratio : spec_float) (cutoff : Z) :
  image_of buf width height ->
  cutoff_of (width * height) ratio = Ok cutoff ->
  1 <= cutoff <= width * height ->
  exists v, counting_sort width height ratio buf = Ok (v, buf) /\
            merge_sort Z.le buf !! Z.to_nat (cutoff - 1) = Some v.
Proof.
  intros Himg Hcut Hrange.
  pose proof Himg as (Hlen & Hmax & Hpix). rewrite <- Hlen in Hcut, Hrange.
  destruct (counting_sort_run _ _ _ _ _ Himg Hcut)
    as (count & index & Hhist & Hscan & _ & Hrun).
  rewrite <- (below_0 buf Hpix) in Hscan at 1.
  apply (scan_count_first_crossing count buf cutoff Hhist) in Hscan
    as (Hindex & Hcross & Hfirst);
    [|unfold SIZE_MAX, INT_MAX in *; lia|change BINS with 256; lia|lia].
  assert (cutoff <= below index buf) as Hc.
  { destruct Hcross as [Hcross|Hcross]; [done|].
    rewrite Hcross, below_BINS by done. lia. }
  assert (1 <= index) as Hpos.
  { destruct (Z.eq_dec index 0) as [->|]; [|lia].
    rewrite below_0 in Hc by done. lia. }
  exists (index - 1). split.
  - rewrite Hrun. by rewrite clamp_index_pos by lia.
  - apply rank_unique.
    pose proof (Hfirst (index - 1) ltac:(lia)) as Hbelow.
    replace index with (index - 1 + 1) in Hc by lia.
    unfold below in Hbelow, Hc.
    assert (length (filter (fun x => (x < index - 1 + 1)%Z) buf)
            <= length (filter (fun x => (x <= index - 1)%Z) buf))%nat
      by (apply filter_length_le; intros; lia).
    lia.
Qed.

(** For every image and every ratio in [0,1], counting_sort and
    uniform_sample return a pixel value and leave the buffer alone. *)
Theorem counting_sort_returns (buf : buffer) (width height : Z)
    (ratio : spec_float) :
  image_of buf width height -> in_unit ratio ->
  valid_binary F32.prec F32.emax ratio = true ->
  exists t, counting_sort width height ratio buf = Ok (t, buf) /\ is_Pixel t.
Proof.
  intros Himg Hunit Hvalid. pose proof Himg as (Hlen & Hmax & _).
  destruct (cutoff_of_defined (Z.of_nat (length buf)) ratio)
    as (cutoff & Hcut & _); [lia|done..|].
  destruct (counting_sort_run _ _ _ _ _ Himg Hcut)
    as (count & index & _ & _ & _ & ->).
  eexists. split; [done|]. apply clamp_index_is_Pixel.
Qed.

Theorem uniform_sample_returns (buf : buffer) (width height sample_rate : Z)
    (ratio : spec_float) :
  image_of buf width height -> 1 <= sample_rate < 2 ^ 32 -> in_unit ratio ->
  valid_binary F32.prec F32.emax ratio = true ->
  exists t, uniform_sample width height sample_rate ratio buf = Ok (t, buf) /\
            is_Pixel t.
Proof.
  intros Himg Hrate Hunit Hvalid. pose proof Himg as (Hlen & Hmax & _).
  destruct (cutoff_of_defined (Z.of_nat (length buf) / sample_rate) ratio)
    as (cutoff & Hcut & _); [|done..|].
  { split; [apply Z.div_pos; lia|].
    apply Z.le_trans with (Z.of_nat (length buf)); [|lia].
    apply Z.div_le_upper_bound; [lia|]. nia. }
  destruct (uniform_sample_run _ _ _ _ _ _ Himg Hrate Hcut)
    as (count & index & _ & _ & _ & ->).
  eexists. split; [done|]. apply clamp_index_is_Pixel.
Qed.

(** C9: when the computed cutoff truncates to 0, the accumulation loop
    makes no iteration ([index] stays 0 whatever the histogram holds),
    [index - 1] wraps around to [SIZE_MAX], the clamp against
    [(size_t)0] keeps it, and its conversion to [Pixel] is
    [2^BIT_DEPTH - 1]: this is what [counting_sort] and
    [uniform_sample] return.  The cutoff is 0 for the ratio 0 on every
    image, and for every ratio in [0,1] on the empty image. *)
Theorem zero_cutoff_returns_PIXEL_MAX
    (buf : buffer) (width height sample_rate : Z) (ratio : spec_float) :
  image_of buf width height -> 1 <= sample_rate < 2 ^ 32 ->
  (forall fuel count, scan_count fuel count 0 0 0 = Ok 0) /\
  to_size_t (0 - 1) = SIZE_MAX /\
  Z.max (to_size_t 0) (to_size_t (0 - 1)) = SIZE_MAX /\
  to_Pixel SIZE_MAX = 2 ^ BIT_DEPTH - 1 /\
  (cutoff_of (Z.of_nat (length buf)) ratio = Ok 0 ->
   counting_sort width height ratio buf = Ok (2 ^ BIT_DEPTH - 1, buf)) /\
  (cutoff_of (Z.of_nat (length buf) / sample_rate) ratio = Ok 0 ->
   uniform_sample width height sample_rate ratio buf
   = Ok (2 ^ BIT_DEPTH - 1, buf)) /\
  counting_sort width height F32.zero buf = Ok (2 ^ BIT_DEPTH - 1, buf) /\
  uniform_sample width height sample_rate F32.zero buf
  = Ok (2 ^ BIT_DEPTH - 1, buf) /\
  (buf = [] -> in_unit ratio ->
   counting_sort width height ratio buf = Ok (2 ^ BIT_DEPTH - 1, buf) /\
   uniform_sample width height sample_rate ratio buf
   = Ok (2 ^ BIT_DEPTH - 1, buf)).
Proof.
  intros Himg Hrate.
  assert (forall r, cutoff_of (Z.of_nat (length buf)) r = Ok 0 ->
            counting_sort width height r buf = Ok (2 ^ BIT_DEPTH - 1, buf))
    as Hcounting.
  { intros r Hcut.
    destruct (counting_sort_run _ _ _ _ _ Himg Hcut)
      as (count & index & _ & Hscan & _ & ->).
    rewrite scan_count_cutoff_0 in Hscan. by injection Hscan as <-. }
  assert (forall r, cutoff_of (Z.of_nat (length buf) / sample_rate) r = Ok 0 ->
            uniform_sample width height sample_rate r buf
            = Ok (2 ^ BIT_DEPTH - 1, buf))
    as Huniform.
  { intros r Hcut.
    destruct (uniform_sample_run _ _ _ _ _ _ Himg Hrate Hcut)
      as (count & index & _ & Hscan & _ & ->).
    rewrite scan_count_cutoff_0 in Hscan. by injection Hscan as <-. }
  pose proof Himg as (Hlen & Hmax & _).
  assert (0 <= Z.of_nat (length buf) / sample_rate < 2 ^ 64) as Hsampled.
  { split; [apply Z.div_pos; lia|].
    apply Z.le_lt_trans with (Z.of_nat (length buf));
      [|unfold INT_MAX in *; lia].
    apply Z.div_le_upper_bound; [lia|]. nia. }
  split; [apply scan_count_cutoff_0|].
  do 3 (split; [reflexivity|]).
  split; [apply Hcounting|]. split; [apply Huniform|].
  split.
  { apply Hcounting, cutoff_of_ratio_zero. unfold INT_MAX in *. lia. }
  split.
  { by apply Huniform, cutoff_of_ratio_zero. }
  intros -> Hunit. split.
  - by apply Hcounting, cutoff_of_empty.
  - apply Huniform. cbn [length]. rewrite Z.div_0_l by lia.
    by apply cutoff_of_empty.
Qed.

(** ** Sorted buffers and order statistics *)

Lemma sort_range_whole (buf : buffer) :
  sort_range (Z.of_nat (length buf)) buf = Ok (tt, merge_sort Z.le buf).
Proof.
  unfold sort_range.
  destruct (Z.leb_spec 0 (Z.of_nat (length buf))); [|lia].
  destruct (Z.leb_spec (Z.of_nat (length buf)) (Z.of_nat (length buf))); [|lia].
  cbn [andb]. by rewrite Nat2Z.id, take_ge, drop_ge, app_nil_r.
Qed.

Lemma std_sort_read buf width height ratio n :
  image_of buf width height ->
  index_of (Z.of_nat (length buf)) ratio = Ok n ->
  std_sort width height ratio buf = read n (merge_sort Z.le buf).
Proof.
  intros Himg Hn. destruct (image_of_size _ _ _ Himg) as [Hmul _].
  unfold std_sort.
  rewrite (bind_Ok _ _ _ _ buf) by (apply lift_Ok, Hmul).
  rewrite (bind_Ok _ _ _ n buf) by (apply lift_Ok, Hn).
  by rewrite (bind_Ok _ _ _ tt (merge_sort Z.le buf)) by apply sort_range_whole.
Qed.

Section NthElementSort.
Context {nth : NthElement}.

Lemma nth_element_length k (l : list Z) : length (nth_element k l) = length l.
Proof. apply Permutation_length, nth_element_perm. Qed.

Lemma nth_element_range_whole (buf : buffer) (n : Z) :
  0 <= n <= Z.of_nat (length buf) ->
  nth_element_range n (Z.of_nat (length buf)) buf
  = Ok (tt, nth_element (Z.to_nat n) buf).
Proof.
  intros Hn. unfold nth_element_range.
  destruct (Z.leb_spec 0 n); [|lia].
  destruct (Z.leb_spec n (Z.of_nat (length buf))); [|lia].
  destruct (Z.leb_spec (Z.of_nat (length buf)) (Z.of_nat (length buf))); [|lia].
  cbn [andb]. by rewrite Nat2Z.id, take_ge, drop_ge, app_nil_r.
Qed.

Lemma nth_element_sort_read buf width height ratio n :
  image_of buf width height ->
  cutoff_of (Z.of_nat (length buf)) ratio = Ok n ->
  n <= Z.of_nat (length buf) ->
  nth_element_sort width height ratio buf
  = read n (nth_element (Z.to_nat n) buf).
Proof.
  intros Himg Hn Hle. destruct (image_of_size _ _ _ Himg) as [Hmul _].
  assert (0 <= n) as Hpos.
  { unfold cutoff_of, float_to_size_t, float_to in Hn.
    destruct (SFtrunc _) as [t|]; [|discriminate].
    destruct (Z.leb_spec 0 t); [|discriminate].
    destruct (t <=? SIZE_MAX); [|discriminate]. by injection Hn as <-. }
  unfold nth_element_sort.
  rewrite (bind_Ok _ _ _ _ buf) by (apply lift_Ok, Hmul).
  rewrite (bind_Ok _ _ _ n buf) by (apply lift_Ok, Hn).
  by rewrite (bind_Ok _ _ _ tt (nth_element (Z.to_nat n) buf))
    by (apply nth_element_range_whole; lia).
Qed.

(** The value [std::nth_element] leaves at [nth] is the one a full
    sort puts there. *)
Lemma read_nth_element (buf : buffer) (n : Z) :
  0 <= n ->
  read n (nth_element (Z.to_nat n) buf)
  = match merge_sort Z.le buf !! Z.to_nat n with
    | Some v => Ok (v, nth_element (Z.to_nat n) buf)
    | None => Fault OutOfBounds
    end.
Proof.
  intros Hn. unfold read. destruct (Z.ltb_spec n 0); [lia|].
  rewrite (nth_element_nth _ buf (merge_sort Z.le buf)); [done| |].
  - apply Sorted_merge_sort. apply _.
  - apply merge_sort_Permutation.
Qed.
End NthElementSort.

Lemma read_sorted_in_bounds (buf : buffer) (n : Z) :
  0 <= n < Z.of_nat (length buf) ->
  exists v, merge_sort Z.le buf !! Z.to_nat n = Some v /\
            read n (merge_sort Z.le buf) = Ok (v, merge_sort Z.le buf).
Proof.
  intros Hn.
  destruct (lookup_lt_is_Some_2 (merge_sort Z.le buf) (Z.to_nat n)) as [v Hv].
  { rewrite merge_sort_length. lia. }
  exists v. split; [done|].
  rewrite <- (Z2Nat.id n) at 1 by lia. by apply read_Ok.
Qed.

Section SortBounds.
Context {nth : NthElement}.

Lemma sorts_agree_in_bounds buf width height ratio n :
  image_of buf width height ->
  index_of (width * height) ratio = Ok n -> 0 <= n < width * height ->
  exists v b,
    merge_sort Z.le buf !! Z.to_nat n = Some v /\
    std_sort width height ratio buf = Ok (v, merge_sort Z.le buf) /\
    nth_element_sort width height ratio buf = Ok (v, b).
Proof.
  intros Himg Hn Hb.
  pose proof Himg as (Hlen & _). rewrite <- Hlen in Hn, Hb.
  destruct (read_sorted_in_bounds buf n Hb) as (v & Hv & Hread).
  exists v, (nth_element (Z.to_nat n) buf).
  rewrite (std_sort_read _ _ _ _ _ Himg Hn).
  rewrite (nth_element_sort_read _ _ _ _ n Himg);
    [|apply index_of_cutoff_of; [done|lia]|lia].
  rewrite read_nth_element by lia. by rewrite Hv.
Qed.

Lemma sorts_fault_past_end buf width height ratio n :
  image_of buf width height ->
  index_of (width * height) ratio = Ok n -> width * height <= n ->
  std_sort width height ratio buf = Fault OutOfBounds /\
  nth_element_sort width height ratio buf
  = Fault (if n =? width * height then OutOfBounds else BadRange).
Proof.
  intros Himg Hn Hb.
  pose proof Himg as (Hlen & _). rewrite <- Hlen in Hn, Hb |- *.
  destruct (image_of_size _ _ _ Himg) as [Hmul _].
  split.
  - rewrite (std_sort_read _ _ _ _ _ Himg Hn).
    apply read_past_end. rewrite merge_sort_length. lia.
  - destruct (Z.eqb_spec n (Z.of_nat (length buf))) as [->|Hne].
    + rewrite (nth_element_sort_read _ _ _ _ (Z.of_nat (length buf)) Himg);
        [|apply index_of_cutoff_of; [done|lia]|lia].
      apply read_past_end. rewrite nth_element_length. lia.
    + unfold nth_element_sort.
      rewrite (bind_Ok _ _ _ _ buf) by (apply lift_Ok, Hmul).
      rewrite (bind_Ok _ _ _ n buf)
        by (apply lift_Ok, index_of_cutoff_of; [done|lia]).
      apply bind_Fault. unfold nth_element_range.
      destruct (Z.leb_spec n (Z.of_nat (length buf))); [lia|].
      by rewrite andb_false_r.
Qed.
End SortBounds.

(** C10: [std_sort] and [nth_element_sort] read
    [greyscale[n]] with [n] the truncated single-precision product
    [(width * height) * ratio].  The read is within the buffer when
    [n < N], and then both return the same pixel; when [N <= n] it is
    not, and neither returns.  For the ratio 1 on a non-empty image of
    at most 2^24 pixels the index is [N], one past the end. *)
Theorem sorted_read_bounds `{NthElement}
    (buf : buffer) (width height : Z) (ratio : spec_float) (n : Z) :
  image_of buf width height -> in_unit ratio ->
  index_of (width * height) ratio = Ok n ->
  (n < width * height ->
   exists v b1 b2, std_sort width height ratio buf = Ok (v, b1) /\
                   nth_element_sort width height ratio buf = Ok (v, b2)) /\
  (width * height <= n ->
   std_sort width height ratio buf = Fault OutOfBounds /\
   nth_element_sort width height ratio buf
   = Fault (if n =? width * height then OutOfBounds else BadRange)) /\
  (0 < width * height <= 2 ^ 24 ->
   index_of (width * height) F32.one = Ok (width * height) /\
   std_sort width height F32.one buf = Fault OutOfBounds /\
   nth_element_sort width height F32.one buf = Fault OutOfBounds).
Proof.
  intros Himg [Hr0 _] Hn.
  pose proof Himg as (Hlen & Hmax & _).
  assert (0 <= n) as Hpos.
  { apply (index_of_nonneg (width * height) ratio); [lia|done..]. }
  split; [|split].
  - intros Hlt.
    destruct (sorts_agree_in_bounds buf width height ratio n Himg Hn)
      as (v & b & _ & Hs & Hn'); [lia|]. eauto.
  - intros Hge. by apply sorts_fault_past_end.
  - intros Hsmall. pose proof (index_of_ratio_one _ Hsmall) as Hone.
    split; [done|].
    destruct (sorts_fault_past_end buf width height F32.one _ Himg Hone)
      as [Hs Hn']; [lia|].
    split; [done|]. by rewrite Z.eqb_refl in Hn'.
Qed.

Lemma ratio_one_index_16777217 :
  index_of 16777217 F32.one = Ok 16777216.
Proof. vm_compute. reflexivity. Qed.

(** The bound of 2^24 pixels in C10 is needed: an image of 2^24 + 1
    pixels has a size that is not a [float]; it converts to 2^24, the
    index for the ratio 1 is [N - 1], and the read is within the
    buffer. *)
Lemma ratio_one_read_in_bounds :
  let size := 16777217 in
  let buf := replicate (Z.to_nat size) 0 in
  buf <> [] /\ image_of buf 1 size /\
  index_of (1 * size) F32.one <> Ok (1 * size) /\
  std_sort 1 size F32.one buf <> Fault OutOfBounds.
Proof.
  intros size buf.
  assert (image_of buf 1 size) as Himg.
  { unfold image_of, buf. rewrite length_replicate.
    split; [unfold size; lia|]. split; [unfold size, INT_MAX; lia|].
    apply Forall_replicate. unfold is_Pixel. change PIXEL_MAX with 255. lia. }
  split.
  { intros Hnil. apply (f_equal length) in Hnil. unfold buf in Hnil.
    rewrite length_replicate in Hnil. cbn [length] in Hnil. unfold size in Hnil. lia. }
  split; [done|].
  change (1 * size) with 16777217. rewrite ratio_one_index_16777217.
  split; [discriminate|].
  destruct (sorts_agree_in_bounds buf 1 size F32.one 16777216 Himg)
    as (v & b & _ & Hs & _).
  - exact ratio_one_index_16777217.
  - unfold size. lia.
  - rewrite Hs. discriminate.
Qed.

(** ** The exact estimators against each other *)

(** Whenever [1 <= n < N], [counting_sort] and [std_sort] read
    neighbouring ranks of the sorted buffer: index [n - 1] and index
    [n]. *)
Theorem counting_sort_one_rank_below_std_sort
    (buf : buffer) (width height : Z) (ratio : spec_float) (n : Z) :
  image_of buf width height ->
  index_of (width * height) ratio = Ok n -> 1 <= n < width * height ->
  exists u v,
    counting_sort width height ratio buf = Ok (u, buf) /\
    std_sort width height ratio buf = Ok (v, merge_sort Z.le buf) /\
    merge_sort Z.le buf !! Z.to_nat (n - 1) = Some u /\
    merge_sort Z.le buf !! Z.to_nat n = Some v.
Proof.
  intros Himg Hn Hrange. pose proof Himg as (Hlen & _).
  destruct (counting_sort_order_statistic buf width height ratio n Himg)
    as (u & Hu & Hrank); [apply index_of_cutoff_of; [done|lia]|lia|].
  rewrite <- Hlen in Hn, Hrange.
  destruct (read_sorted_in_bounds buf n ltac:(lia)) as (v & Hv & Hread).
  exists u, v. by rewrite (std_sort_read _ _ _ _ _ Himg Hn).
Qed.

(** C1, at the input of its scenario: on the 1 x 5 buffer
    [10, 20, 30, 40, 50] with the ratio 0.4f the index is 2;
    [std_sort] and [nth_element_sort] return 30, the element at index
    2 of the sorted buffer, and [counting_sort] returns 20, the
    element at index 1.  The three estimators do not agree. *)
Theorem exact_estimators_disagree `{NthElement} :
  let buf := [10; 20; 30; 40; 50] in
  index_of (1 * 5) ratio_0_4 = Ok 2 /\
  counting_sort 1 5 ratio_0_4 buf = Ok (20, buf) /\
  std_sort 1 5 ratio_0_4 buf = Ok (30, buf) /\
  exists buf', nth_element_sort 1 5 ratio_0_4 buf = Ok (30, buf').
Proof.
  intros buf. split; [reflexivity|].
  split; [reflexivity|]. split; [reflexivity|].
  assert (image_of buf 1 5) as Himg.
  { repeat split; [unfold INT_MAX; lia|].
    unfold buf, is_Pixel. change PIXEL_MAX with 255.
    repeat constructor; lia. }
  destruct (sorts_agree_in_bounds buf 1 5 ratio_0_4 2 Himg)
    as (v & b & Hv & _ & Hn); [reflexivity|lia|].
  injection Hv as <-. eauto.
Qed.

Lemma sorted_first_is_least (buf : buffer) (v : Z) :
  merge_sort Z.le buf !! 0%nat = Some v ->
  v ∈ buf /\ Forall (fun p => v <= p) buf.
Proof.
  intros Hv. split.
  - rewrite <- (merge_sort_Permutation Z.le buf).
    apply list_elem_of_lookup. eauto.
  - rewrite <- (merge_sort_Permutation Z.le buf).
    apply Forall_lookup. intros i p Hp.
    destruct i as [|i]; [rewrite Hv in Hp; injection Hp as <-; lia|].
    apply (StronglySorted_lookup_le (merge_sort Z.le buf) 0 (S i));
      [apply merge_sort_sorted|lia|done..].
Qed.

Lemma sorted_last_is_greatest (buf : buffer) (v : Z) :
  merge_sort Z.le buf !! (length buf - 1)%nat = Some v ->
  v ∈ buf /\ Forall (fun p => p <= v) buf.
Proof.
  intros Hv. split.
  - rewrite <- (merge_sort_Permutation Z.le buf).
    apply list_elem_of_lookup. eauto.
  - rewrite <- (merge_sort_Permutation Z.le buf).
    apply Forall_lookup. intros i p Hp.
    pose proof (lookup_lt_Some _ _ _ Hp) as Hi.
    rewrite merge_sort_length in Hi.
    destruct (decide (i = (length buf - 1)%nat)) as [->|Hne].
    + rewrite Hv in Hp. injection Hp as <-. lia.
    + apply (StronglySorted_lookup_le (merge_sort Z.le buf) i
               (length buf - 1)); [apply merge_sort_sorted|lia|done..].
Qed.

(** The two ends of the ratio range, estimator by estimator, on an
    image of at most 2^24 pixels. *)
Theorem ratio_edge_cases `{NthElement}
    (buf : buffer) (width height : Z) :
  image_of buf width height -> 0 < width * height <= 2 ^ 24 ->
  counting_sort width height F32.zero buf = Ok (PIXEL_MAX, buf) /\
  (exists v, std_sort width height F32.zero buf = Ok (v, merge_sort Z.le buf) /\
             v ∈ buf /\ Forall (fun p => v <= p) buf) /\
  (exists v, counting_sort width height F32.one buf = Ok (v, buf) /\
             v ∈ buf /\ Forall (fun p => p <= v) buf) /\
  std_sort width height F32.one buf = Fault OutOfBounds /\
  nth_element_sort width height F32.one buf = Fault OutOfBounds.
Proof.
  intros Himg Hsize. pose proof Himg as (Hlen & Hmax & Hpix).
  pose proof (index_of_ratio_one _ Hsize) as Hone.
  split; [|split; [|split]].
  - destruct (counting_sort_run buf width height F32.zero 0 Himg)
      as (count & index & _ & Hscan & _ & ->).
    { apply cutoff_of_ratio_zero. lia. }
    rewrite scan_count_cutoff_0 in Hscan. by injection Hscan as <-.
  - destruct (read_sorted_in_bounds buf 0 ltac:(lia)) as (v & Hv & Hread).
    exists v. rewrite (std_sort_read _ _ _ _ 0 Himg)
      by (apply index_of_ratio_zero; lia).
    split; [done|]. by apply sorted_first_is_least.
  - destruct (counting_sort_order_statistic buf width height F32.one
                (width * height) Himg) as (v & Hrun & Hv);
      [apply index_of_cutoff_of; [done|lia]|lia|].
    exists v. split; [done|]. apply sorted_last_is_greatest.
    rewrite <- Hv. f_equal. lia.
  - destruct (sorts_fault_past_end buf width height F32.one _ Himg Hone)
      as [Hs Hn]; [lia|].
    split; [done|]. by rewrite Z.eqb_refl in Hn.
Qed.

(** C3, at a three-pixel image: with the ratio 0, [counting_sort]
    returns 255, above the minimum 10 (and above every pixel); with
    the ratio 1, [std_sort] and [nth_element_sort] index the buffer at
    3, one past its end, and return nothing.  [std_sort] at the ratio
    0 and [counting_sort] at the ratio 1 do return the minimum and the
    maximum. *)
Theorem ratio_edge_cases_fail `{NthElement} :
  let buf := [10; 20; 30] in
  counting_sort 1 3 F32.zero buf = Ok (PIXEL_MAX, buf) /\
  std_sort 1 3 F32.one buf = Fault OutOfBounds /\
  nth_element_sort 1 3 F32.one buf = Fault OutOfBounds /\
  std_sort 1 3 F32.zero buf = Ok (10, buf) /\
  counting_sort 1 3 F32.one buf = Ok (30, buf).
Proof.
  intros buf. split; [reflexivity|]. split; [reflexivity|].
  split; [|split; reflexivity].
  assert (image_of buf 1 3) as Himg.
  { repeat split; [unfold INT_MAX; lia|].
    unfold buf, is_Pixel. change PIXEL_MAX with 255.
    repeat constructor; lia. }
  destruct (sorts_fault_past_end buf 1 3 F32.one 3 Himg) as [_ Hn];
    [reflexivity|lia|]. exact Hn.
Qed.

(** ** normal_estimate

    At the ratios 0 and 1 the outcome does not depend on the choice of
    [pow]: the contract fixes every power the program takes there. *)

Lemma average_of_is_Pixel total size average :
  average_of total size = Ok average -> is_Pixel average.
Proof.
  unfold average_of. destruct (size_t_div _ _); [|discriminate].
  intros [= <-]. apply to_Pixel_is_Pixel.
Qed.

Lemma sum_squares_any_libm (L1 L2 : Libm) (buf : buffer) size average :
  Forall is_Pixel buf -> is_Pixel average ->
  forall fuel pixel sigma_total,
    @sum_squares L1 fuel size average pixel sigma_total buf
    = @sum_squares L2 fuel size average pixel sigma_total buf.
Proof.
  intros Hpix Havg fuel.
  induction fuel as [|fuel IH]; intros pixel sigma_total;
    cbn [sum_squares]; [done|].
  destruct (pixel <? size); [|done].
  unfold bind at 1 3.
  destruct (read pixel buf) as [[p b]|] eqn:Hread; [|done].
  apply read_inv in Hread as (_ & Hp & ->).
  assert (is_Pixel p) as Hpx.
  { rewrite Forall_lookup in Hpix. by eapply Hpix. }
  rewrite !pow_square by (unfold is_Pixel in *; lia).
  unfold bind. destruct (lift _ buf) as [[s b]|] eqn:E; [|done].
  apply lift_inv in E as [_ ->]. apply IH.
Qed.

Lemma approximation_one `{Libm} :
  approximation F32.one = F32.of_Z 4.
Proof. unfold approximation. by rewrite !powf_one by lia. Qed.

Lemma approximation_zero `{Libm} :
  approximation F32.zero = F32.zero.
Proof. unfold approximation. by rewrite !powf_zero by lia. Qed.

Lemma normal_estimate_value_any_libm (L1 L2 : Libm) (buf : buffer)
    width height ratio :
  Forall is_Pixel buf ->
  @approximation L1 ratio = @approximation L2 ratio ->
  @normal_estimate_value L1 width height ratio buf
  = @normal_estimate_value L2 width height ratio buf.
Proof.
  intros Hpix Happrox. unfold normal_estimate_value, bind.
  destruct (lift (int_mul width height) buf) as [[size b]|] eqn:E1; [|done].
  apply lift_inv in E1 as [_ ->].
  destruct (sum_pixels _ _ _ _ buf) as [[total b]|] eqn:E2; [|done].
  apply sum_pixels_readonly in E2 as ->.
  destruct (lift (average_of total size) buf) as [[average b]|] eqn:E3; [|done].
  apply lift_inv in E3 as [Havg ->]. apply average_of_is_Pixel in Havg.
  rewrite (sum_squares_any_libm L1 L2 buf size average Hpix Havg).
  destruct (sum_squares _ _ _ _ _ buf) as [[sigma_total b]|]; [|done].
  by rewrite Happrox.
Qed.

Lemma normal_estimate_any_libm (L1 L2 : Libm) (buf : buffer)
    width height ratio :
  Forall is_Pixel buf ->
  @approximation L1 ratio = @approximation L2 ratio ->
  @normal_estimate L1 width height ratio buf
  = @normal_estimate L2 width height ratio buf.
Proof.
  intros Hpix Happrox. unfold normal_estimate, bind.
  by rewrite (normal_estimate_value_any_libm L1 L2).
Qed.

(** C7, at the two-pixel image [0, 255] (mean 127, deviation 127.5):
    with the ratio 0 [normal_estimate] returns 127; with the ratio 1
    the value [mean + z * sigma] it is about to return truncates to
    848, outside [0, 2^BIT_DEPTH - 1], and the conversion to [Pixel] is
    undefined (where the conversion wraps, 848 becomes 80, below the
    127 returned for the ratio 0).  This holds whatever [pow] is. *)
Theorem normal_estimate_leaves_pixel_range `{Libm} :
  let buf := [0; 255] in
  normal_estimate 1 2 F32.zero buf = Ok (127, buf) /\
  (exists x, normal_estimate_value 1 2 F32.one buf = Ok (x, buf) /\
             SFtrunc x = Some 848) /\
  normal_estimate 1 2 F32.one buf = Fault FloatToInt /\
  to_Pixel 848 = 80.
Proof.
  intros buf.
  assert (Forall is_Pixel buf) as Hpix.
  { unfold buf, is_Pixel. change PIXEL_MAX with 255. repeat constructor; lia. }
  split; [|split; [|split; [|reflexivity]]].
  - rewrite (normal_estimate_any_libm _ mul_Libm) by
      (done || by rewrite !approximation_zero).
    vm_compute. reflexivity.
  - rewrite (normal_estimate_value_any_libm _ mul_Libm) by
      (done || by rewrite !approximation_one).
    destruct (@normal_estimate_value mul_Libm 1 2 F32.one buf)
      as [[x b]|f] eqn:E; vm_compute in E; [|discriminate E].
    injection E as <- <-. eexists. split; reflexivity.
  - rewrite (normal_estimate_any_libm _ mul_Libm) by
      (done || by rewrite !approximation_one).
    vm_compute. reflexivity.
Qed.

(** ** Binarization *)

Lemma binarize_loop_spec (T : Z) (rest done : buffer) (fuel : nat) :
  (length rest <= fuel)%nat ->
  Z.of_nat (length (done ++ rest)) <= SIZE_MAX ->
  binarize_loop fuel (Z.of_nat (length (done ++ rest)))
    (Z.of_nat (length done)) T (done ++ rest)
  = Ok (tt, done ++ (applier T <$> rest)).
Proof.
  revert done fuel.
  induction rest as [|a rest IH]; intros done fuel Hfuel Hsize.
  - change (applier T <$> []) with (@nil Z). rewrite !app_nil_r.
    destruct fuel; cbn [binarize_loop]; by rewrite Z.ltb_irrefl.
  - destruct fuel as [|fuel]; [cbn [length] in Hfuel; lia|].
    cbn [binarize_loop].
    destruct (Z.ltb_spec (Z.of_nat (length done))
                (Z.of_nat (length (done ++ a :: rest)))) as [_|Hge].
    2:{ rewrite length_app in Hge. cbn [length] in Hge. lia. }
    rewrite (bind_Ok _ _ _ _ _ (read_middle done rest a)).
    rewrite (bind_Ok _ _ _ tt (done ++ applier T a :: rest)).
    + rewrite to_size_t_small.
      2:{ rewrite length_app in Hsize. cbn [length] in Hsize. lia. }
      rewrite (cons_middle (applier T a)), app_assoc.
      replace (Z.of_nat (length (done ++ a :: rest)))
        with (Z.of_nat (length ((done ++ [applier T a]) ++ rest)))
        by (rewrite !length_app; cbn [length]; lia).
      replace (Z.of_nat (length done) + 1)
        with (Z.of_nat (length (done ++ [applier T a])))
        by (rewrite length_app; cbn [length]; lia).
      rewrite IH.
      * by rewrite <- app_assoc.
      * cbn [length] in Hfuel. lia.
      * rewrite !length_app in *. cbn [length] in *. lia.
    + unfold applier. change (to_Pixel (Z.shiftl 1 BIT_DEPTH - 1)) with PIXEL_MAX.
      change (Z.shiftl 1 BIT_DEPTH - 1) with PIXEL_MAX.
      destruct (Z.ltb_spec T a).
      { rewrite decide_True by lia. apply write_middle. }
      rewrite decide_False by lia.
      rewrite (bind_Ok _ _ _ _ _ (read_middle done rest a)).
      destruct (Z.ltb_spec a T).
      { rewrite decide_True by lia. apply write_middle. }
      rewrite decide_False by lia.
      rewrite (bind_Ok _ _ _ _ _ (read_middle done rest a)).
      rewrite (bind_Ok _ _ _ _ _ (read_middle done rest a)).
      destruct (Z.eqb_spec a 0); cbn [orb negb].
      { by rewrite decide_True by lia. }
      destruct (Z.eqb_spec a PIXEL_MAX); cbn [negb].
      { by rewrite decide_True by lia. }
      rewrite decide_False by lia. apply write_middle.
Qed.

Lemma binarize_spec (buf : buffer) (width height T : Z) :
  Z.of_nat (length buf) = width * height -> width * height <= INT_MAX ->
  binarize width height T buf = Ok (tt, applier T <$> buf).
Proof.
  intros Hlen Hmax. unfold binarize.
  rewrite (bind_Ok _ _ _ (Z.of_nat (length buf)) buf).
  2:{ apply lift_Ok. rewrite Hlen. apply int_mul_Ok. unfold INT_MIN. lia. }
  cbv zeta.
  rewrite to_size_t_small by (unfold SIZE_MAX, INT_MAX in *; lia).
  rewrite Nat2Z.id.
  apply (binarize_loop_spec T buf [] (length buf)); [lia|].
  cbn [app]. unfold SIZE_MAX, INT_MAX in *. lia.
Qed.

Lemma applier_black_or_white (T p : Z) : applier T p = 0 \/ applier T p = PIXEL_MAX.
Proof.
  unfold applier. repeat case_decide; tauto.
Qed.

(** C2: on a [width] x [height] image and for every threshold
    [T], the binarization loop maps each pixel [p] to the maximum
    value if [p > T], to 0 if [p < T], and if [p = T] to 0 unless [p]
    is 0 or the maximum value, in which case it stays; every output
    pixel is 0 or the maximum; and for a threshold below the maximum
    the buffer [0, T, T, max] becomes [0, 0, 0, max]. *)
Theorem binarize_applies_threshold (buf : buffer) (width height T : Z) :
  Z.of_nat (length buf) = width * height -> width * height <= INT_MAX ->
  exists out,
    binarize width height T buf = Ok (tt, out) /\
    length out = length buf /\
    (forall i p, buf !! i = Some p ->
       out !! i = Some (if decide (p > T) then PIXEL_MAX
                        else if decide (p < T) then 0
                        else if decide (p = 0 \/ p = PIXEL_MAX) then p
                        else 0)) /\
    Forall (fun q => q = 0 \/ q = PIXEL_MAX) out /\
    (0 <= T < PIXEL_MAX ->
     binarize 1 4 T [0; T; T; PIXEL_MAX] = Ok (tt, [0; 0; 0; PIXEL_MAX])).
Proof.
  intros Hlen Hmax. exists (applier T <$> buf).
  split; [by apply binarize_spec|].
  split; [apply length_fmap|].
  split. { intros i p Hp. by rewrite list_lookup_fmap, Hp. }
  split.
  { apply Forall_fmap, Forall_forall. intros p _.
    apply applier_black_or_white. }
  intros HT. rewrite binarize_spec by (cbn; unfold INT_MAX; lia).
  cbn [fmap list_fmap]. unfold applier. change PIXEL_MAX with 255 in *.
  repeat case_decide; try done; try (exfalso; lia).
  all: by assert (T = 0) as -> by lia.
Qed.

(** The threshold of the synthetic buffer in C2 has to be below the
    maximum: when it is the maximum, the two pixels equal to it are at
    the maximum value, so they stay, and [0, T, T, max] is left as it
    is. *)
Lemma binarize_threshold_at_max :
  binarize 1 4 PIXEL_MAX [0; PIXEL_MAX; PIXEL_MAX; PIXEL_MAX]
  = Ok (tt, [0; PIXEL_MAX; PIXEL_MAX; PIXEL_MAX]) /\
  binarize 1 4 PIXEL_MAX [0; PIXEL_MAX; PIXEL_MAX; PIXEL_MAX]
  <> Ok (tt, [0; 0; 0; PIXEL_MAX]).
Proof. split; [reflexivity|discriminate]. Qed.

(** ** The harness *)

Lemma on_image_inv {A} (c : prog buffer A) (h h' : heap) (a : A) :
  on_image c h = Ok (a, h') ->
  exists b, c (image h) = Ok (a, b) /\ h' = {| image := b; copy := copy h |}.
Proof.
  unfold on_image. destruct (c (image h)) as [[a' b]|]; [|discriminate].
  intros [= -> <-]. eauto.
Qed.

Lemma on_image_readonly {A} (c : prog buffer A) (h h' : heap) (a : A) :
  readonly c -> on_image c h = Ok (a, h') ->
  c (image h) = Ok (a, image h) /\ h' = h.
Proof.
  intros Hro Hrun. apply on_image_inv in Hrun as (b & Hc & ->).
  pose proof (Hro _ _ _ Hc) as ->. split; [done|]. by destruct h.
Qed.

Lemma memcpy_whole (dst src : buffer) :
  length dst = length src -> Z.of_nat (length src) <= SIZE_MAX ->
  memcpy dst src (to_size_t (Z.of_nat (length src))) = Ok src.
Proof.
  intros Hlen Hmax. rewrite to_size_t_small by lia. unfold memcpy.
  rewrite Hlen, Z.leb_refl. cbn [andb].
  by rewrite Nat2Z.id, take_ge, drop_ge, app_nil_r by lia.
Qed.

Lemma save_image_spec (img garbage : buffer) width height :
  image_of img width height -> length garbage = length img ->
  save_image width height {| image := img; copy := garbage |}
  = Ok (tt, {| image := img; copy := img |}).
Proof.
  intros Himg Hlen. destruct (image_of_size _ _ _ Himg) as [Hmul _].
  destruct Himg as (Hsize & Hmax & _).
  unfold save_image.
  rewrite (bind_Ok _ _ _ _ _ (lift_Ok _ _ _ Hmul)). cbn [image copy].
  rewrite memcpy_whole; [done..|unfold SIZE_MAX, INT_MAX in *; lia].
Qed.

Lemma restore_image_spec (img scratch : buffer) width height :
  image_of img width height -> length scratch = length img ->
  restore_image width height {| image := scratch; copy := img |}
  = Ok (tt, {| image := img; copy := img |}).
Proof.
  intros Himg Hlen. destruct (image_of_size _ _ _ Himg) as [Hmul _].
  destruct Himg as (Hsize & Hmax & _).
  unfold restore_image.
  rewrite (bind_Ok _ _ _ _ _ (lift_Ok _ _ _ Hmul)). cbn [image copy].
  rewrite memcpy_whole; [done..|unfold SIZE_MAX, INT_MAX in *; lia].
Qed.

Lemma sort_range_length (n : Z) (buf buf' : buffer) :
  sort_range n buf = Ok (tt, buf') -> length buf' = length buf.
Proof.
  unfold sort_range. destruct (_ && _); [|discriminate]. intros [= <-].
  by rewrite length_app, merge_sort_length, <- length_app, take_drop.
Qed.

Lemma std_sort_length width height ratio (buf buf' : buffer) (t : Z) :
  std_sort width height ratio buf = Ok (t, buf') -> length buf' = length buf.
Proof.
  unfold std_sort. intros Hrun.
  apply bind_inv in Hrun as (size & b1 & [_ ->]%lift_inv & Hrun).
  apply bind_inv in Hrun as (n & b2 & [_ ->]%lift_inv & Hrun).
  apply bind_inv in Hrun as ([] & b3 & Hsort%sort_range_length & Hrun).
  apply read_inv in Hrun as (_ & _ & ->). done.
Qed.

Lemma nth_element_sort_length `{NthElement} width height ratio
    (buf buf' : buffer) (t : Z) :
  nth_element_sort width height ratio buf = Ok (t, buf') ->
  length buf' = length buf.
Proof.
  unfold nth_element_sort. intros Hrun.
  apply bind_inv in Hrun as (size & b1 & [_ ->]%lift_inv & Hrun).
  apply bind_inv in Hrun as (n & b2 & [_ ->]%lift_inv & Hrun).
  apply bind_inv in Hrun as ([] & b3 & Hnth & Hrun).
  apply read_inv in Hrun as (_ & _ & ->).
  unfold nth_element_range in Hnth. destruct (_ && _); [|discriminate].
  injection Hnth as <-.
  by rewrite length_app, nth_element_length, <- length_app, take_drop.
Qed.

Section HarnessProperties.
Context {nth : NthElement} {libm : Libm}.

Lemma run_std_sort_spec (img : buffer) width height t h :
  image_of img width height ->
  run_std_sort width height {| image := img; copy := img |} = Ok (t, h) ->
  h = {| image := img; copy := img |} /\
  exists sorted, std_sort width height Ratio img = Ok (t, sorted).
Proof.
  intros Himg Hrun. unfold run_std_sort in Hrun.
  apply bind_inv in Hrun as (t' & h1 & Hsort & Hrun).
  apply on_image_inv in Hsort as (b & Hsort & ->). cbn [image copy] in *.
  rewrite (bind_Ok _ _ _ _ _
             (restore_image_spec img b width height Himg
                (std_sort_length _ _ _ _ _ _ Hsort))) in Hrun.
  injection Hrun as -> <-. eauto.
Qed.

Lemma run_nth_element_sort_spec (img : buffer) width height t h :
  image_of img width height ->
  run_nth_element_sort width height {| image := img; copy := img |}
  = Ok (t, h) ->
  h = {| image := img; copy := img |} /\
  exists permuted, nth_element_sort width height Ratio img = Ok (t, permuted).
Proof.
  intros Himg Hrun. unfold run_nth_element_sort in Hrun.
  apply bind_inv in Hrun as (t' & h1 & Hsort & Hrun).
  apply on_image_inv in Hsort as (b & Hsort & ->). cbn [image copy] in *.
  rewrite (bind_Ok _ _ _ _ _
             (restore_image_spec img b width height Himg
                (nth_element_sort_length _ _ _ _ _ _ Hsort))) in Hrun.
  injection Hrun as -> <-. eauto.
Qed.

(** C6: in the fixed sequence of [main] (Counting Sort, std::sort, Nth
    Element, Normal Estimate, Weighted Estimate, Uniform Sample) the
    copy saved at the start is the decoded image, and each of the six
    blocks, started on the decoded image, leaves the decoded image in
    place when it is over: the four non-destructive estimators do not
    write, and the image is copied back after each of the two sorting
    ones.  So every estimator runs on the decoded image: whenever
    [main] completes, each threshold it displays is the one the
    estimator yields on the decoded image itself, the final
    binarization starts from the decoded image too, and the saved copy
    still holds it. *)
Theorem every_estimator_sees_the_decoded_image
    (img garbage : buffer) (width height : Z) :
  image_of img width height -> length garbage = length img ->
  let decoded := {| image := img; copy := img |} in
  save_image width height {| image := img; copy := garbage |}
  = Ok (tt, decoded) /\
  Forall (fun block : prog heap Z =>
            forall t h, block decoded = Ok (t, h) -> h = decoded)
    [run_counting_sort width height; run_std_sort width height;
     run_nth_element_sort width height; run_normal_estimate width height;
     run_weighted_estimate width height; run_uniform_sample width height] /\
  forall ts h',
    main width height {| image := img; copy := garbage |} = Ok (ts, h') ->
    counting_sort width height Ratio img
      = Ok (counting_sort_threshold ts, img) /\
    (exists sorted, std_sort width height Ratio img
      = Ok (std_sort_threshold ts, sorted)) /\
    (exists permuted, nth_element_sort width height Ratio img
      = Ok (nth_element_sort_threshold ts, permuted)) /\
    normal_estimate width height Ratio img
      = Ok (estimate_threshold ts, img) /\
    weighted_estimate width height Ratio img
      = Ok (weighted_threshold ts, img) /\
    uniform_sample width height SampleRate Ratio img
      = Ok (uniform_sample_threshold ts, img) /\
    binarize width height (uniform_sample_threshold ts) img
      = Ok (tt, image h') /\
    copy h' = img.
Proof.
  intros Himg Hlen decoded.
  split; [by apply save_image_spec|]. split.
  { repeat constructor; intros t h Hrun.
    - by apply on_image_readonly in Hrun as [_ ->];
        [|apply counting_sort_readonly].
    - by apply run_std_sort_spec in Hrun as [-> _].
    - by apply run_nth_element_sort_spec in Hrun as [-> _].
    - by apply on_image_readonly in Hrun as [_ ->];
        [|apply normal_estimate_readonly].
    - by apply on_image_readonly in Hrun as [_ ->];
        [|apply weighted_estimate_readonly].
    - by apply on_image_readonly in Hrun as [_ ->];
        [|apply uniform_sample_readonly]. }
  intros ts h' Hmain. unfold main in Hmain.
  rewrite (bind_Ok _ _ _ _ _ (save_image_spec _ _ _ _ Himg Hlen)) in Hmain.
  apply bind_inv in Hmain as (ts' & h1 & Hbench & Hmain).
  apply bind_inv in Hmain as ([] & h2 & Hbin & Hret).
  injection Hret as -> ->.
  unfold benchmark in Hbench.
  apply bind_inv in Hbench as (t1 & s1 & H1 & Hbench).
  apply on_image_readonly in H1 as [H1 ->];
    [|apply counting_sort_readonly]. cbn [image] in H1.
  apply bind_inv in Hbench as (t2 & s2 & H2 & Hbench).
  apply run_std_sort_spec in H2 as [-> H2]; [|done].
  apply bind_inv in Hbench as (t3 & s3 & H3 & Hbench).
  apply run_nth_element_sort_spec in H3 as [-> H3]; [|done].
  apply bind_inv in Hbench as (t4 & s4 & H4 & Hbench).
  apply on_image_readonly in H4 as [H4 ->];
    [|apply normal_estimate_readonly]. cbn [image] in H4.
  apply bind_inv in Hbench as (t5 & s5 & H5 & Hbench).
  apply on_image_readonly in H5 as [H5 ->];
    [|apply weighted_estimate_readonly]. cbn [image] in H5.
  apply bind_inv in Hbench as (t6 & s6 & H6 & Hbench).
  apply on_image_readonly in H6 as [H6 ->];
    [|apply uniform_sample_readonly]. cbn [image] in H6.
  injection Hbench as <- <-. cbn.
  apply on_image_inv in Hbin as (b & Hbin & ->). cbn in *.
  repeat split; eauto.
Qed.
End HarnessProperties.

(** * Further properties of the estimators and of the harness *)

(** ** The threshold of counting_sort *)

(** The position at which the accumulation loop stops, read off the
    histogram of [l]: 0 for a cutoff of 0, the first bin at which the
    running total reaches the cutoff, or one past the last bin. *)
Lemma scan_count_stops (count l : list Z) (cutoff index : Z) :
  histogram_of count l -> Forall is_Pixel l ->
  Z.of_nat (length l) <= SIZE_MAX ->
  scan_count (Z.to_nat BINS) count cutoff 0 0 = Ok index ->
  0 <= index <= BINS /\
  (cutoff <= 0 -> index = 0) /\
  (1 <= cutoff <= Z.of_nat (length l) ->
   1 <= index /\ below (index - 1) l < cutoff <= below index l) /\
  (Z.of_nat (length l) < cutoff -> index = BINS).
Proof.
  intros Hhist Hpix Hsize Hscan.
  rewrite <- (below_0 l Hpix) in Hscan at 1.
  apply (scan_count_first_crossing count l cutoff Hhist Hsize) in Hscan
    as (Hindex & Hcross & Hfirst); [|change BINS with 256; lia|lia].
  split; [done|]. split; [|split].
  - intros Hc. destruct (Z.eq_dec index 0) as [|Hne]; [done|].
    pose proof (Hfirst 0 ltac:(lia)) as H0. pose proof (below_bounds 0 l). lia.
  - intros Hc.
    assert (cutoff <= below index l) as Hle.
    { destruct Hcross as [|Heq]; [done|]. rewrite Heq, below_BINS by done. lia. }
    assert (1 <= index) as Hpos.
    { destruct (Z.eq_dec index 0) as [->|]; [|lia].
      rewrite below_0 in Hle by done. lia. }
    split; [done|]. split; [|done]. apply Hfirst. lia.
  - intros Hc. destruct Hcross as [Hle|]; [|done].
    pose proof (below_bounds index l). lia.
Qed.

Lemma below_mono i j l : i <= j -> below i l <= below j l.
Proof.
  intros Hij. unfold below.
  assert (length (filter (fun x => (x < i)%Z) l)
          <= length (filter (fun x => (x < j)%Z) l))%nat
    by (apply filter_length_le; intros; lia). lia.
Qed.

Lemma occurrences_pos_elem v l : 0 < occurrences v l -> v ∈ l.
Proof.
  unfold occurrences. intros H.
  destruct (filter (fun x => x = v) l) as [|x f] eqn:Hf; [cbn in H; lia|].
  assert (x ∈ filter (fun x => x = v) l) as Hx by (rewrite Hf; left).
  apply list_elem_of_filter in Hx as [-> Hx]. done.
Qed.

(** X1: when the cutoff [(width * height) * ratio] lies between 1 and
    the number of pixels, [counting_sort] returns a pixel value [v] of
    the image and leaves the buffer as it is; [v] is the least value
    with at least [cutoff] pixels at or below it: for every [u], at
    least [cutoff] pixels are [<= u] exactly when [v <= u]. *)
Theorem counting_sort_least_threshold
    (buf : buffer) (width height : Z) (ratio : spec_float) (cutoff : Z) :
  image_of buf width height ->
  cutoff_of (width * height) ratio = Ok cutoff ->
  1 <= cutoff <= width * height ->
  exists v, counting_sort width height ratio buf = Ok (v, buf) /\
            v ∈ buf /\
            forall u, cutoff <= below (u + 1) buf <-> v <= u.
Proof.
  intros Himg Hcut Hrange.
  pose proof Himg as (Hlen & Hmax & Hpix). rewrite <- Hlen in Hcut, Hrange.
  destruct (counting_sort_run _ _ _ _ _ Himg Hcut)
    as (count & index & Hhist & Hscan & _ & Hrun).
  destruct (scan_count_stops count buf cutoff index Hhist Hpix) as
    (Hindex & _ & Hin & _); [unfold SIZE_MAX, INT_MAX in *; lia|done|].
  destruct (Hin Hrange) as (Hpos & Hlo & Hhi).
  exists (index - 1). split; [by rewrite Hrun, clamp_index_pos by lia|].
  split.
  - apply occurrences_pos_elem.
    pose proof (below_succ (index - 1) buf) as Hs.
    replace (index - 1 + 1) with index in Hs by lia. lia.
  - intros u. split.
    + intros Hu. destruct (Z.le_gt_cases (index - 1) u) as [|Hgt]; [done|].
      pose proof (below_mono (u + 1) (index - 1) buf ltac:(lia)). lia.
    + intros Hu. pose proof (below_mono index (u + 1) buf ltac:(lia)). lia.
Qed.

(** X2: when the cutoff exceeds the number of pixels (a ratio above 1),
    the running total never reaches it: the accumulation loop runs
    through all the bins and [counting_sort] returns the maximum pixel
    value, whatever the image holds. *)
Theorem counting_sort_cutoff_beyond_image
    (buf : buffer) (width height : Z) (ratio : spec_float) (cutoff : Z) :
  image_of buf width height ->
  cutoff_of (width * height) ratio = Ok cutoff ->
  width * height < cutoff ->
  counting_sort width height ratio buf = Ok (PIXEL_MAX, buf).
Proof.
  intros Himg Hcut Hrange.
  pose proof Himg as (Hlen & Hmax & Hpix). rewrite <- Hlen in Hcut, Hrange.
  destruct (counting_sort_run _ _ _ _ _ Himg Hcut)
    as (count & index & Hhist & Hscan & _ & Hrun).
  destruct (scan_count_stops count buf cutoff index Hhist Hpix) as
    (Hindex & _ & _ & Hout); [unfold SIZE_MAX, INT_MAX in *; lia|done|].
  rewrite Hrun, (Hout Hrange). reflexivity.
Qed.

(** X3: from a cutoff of 1 on, the threshold of [counting_sort] never
    decreases when the cutoff grows: for two ratios whose cutoffs are
    [1 <= c1 <= c2], the threshold for the first is at most the
    threshold for the second.  (A cutoff of 0 is the exception: it
    gives the maximum pixel value.) *)
Theorem counting_sort_monotone_in_cutoff
    (buf : buffer) (width height : Z) (r1 r2 : spec_float) (c1 c2 : Z) :
  image_of buf width height ->
  cutoff_of (width * height) r1 = Ok c1 ->
  cutoff_of (width * height) r2 = Ok c2 ->
  1 <= c1 <= c2 ->
  exists t1 t2, counting_sort width height r1 buf = Ok (t1, buf) /\
                counting_sort width height r2 buf = Ok (t2, buf) /\
                t1 <= t2.
Proof.
  intros Himg H1 H2 Hc.
  pose proof Himg as (Hlen & Hmax & Hpix). rewrite <- Hlen in H1, H2.
  destruct (counting_sort_run _ _ _ _ _ Himg H1)
    as (count1 & i1 & Hhist1 & Hscan1 & _ & Hrun1).
  destruct (counting_sort_run _ _ _ _ _ Himg H2)
    as (count2 & i2 & Hhist2 & Hscan2 & _ & Hrun2).
  assert (Z.of_nat (length buf) <= SIZE_MAX) as Hsize
    by (unfold SIZE_MAX, INT_MAX in *; lia).
  destruct (scan_count_stops count1 buf c1 i1 Hhist1 Hpix Hsize Hscan1) as
    (Hi1 & _ & Hin1 & Hout1).
  destruct (scan_count_stops count2 buf c2 i2 Hhist2 Hpix Hsize Hscan2) as
    (Hi2 & _ & Hin2 & Hout2).
  exists (clamp_index i1), (clamp_index i2). split; [done|]. split; [done|].
  assert (1 <= i1 <= i2) as Hi.
  { destruct (Z.le_gt_cases c2 (Z.of_nat (length buf))) as [Hle|Hgt].
    - destruct (Hin1 ltac:(lia)) as (? & Hlo1 & Hhi1).
      destruct (Hin2 ltac:(lia)) as (? & Hlo2 & Hhi2).
      split; [done|]. destruct (Z.le_gt_cases i1 i2) as [|Hgt]; [done|].
      pose proof (below_mono i2 (i1 - 1) buf ltac:(lia)). lia.
    - rewrite (Hout2 Hgt).
      destruct (Z.le_gt_cases c1 (Z.of_nat (length buf))) as [Hle1|Hgt1].
      + destruct (Hin1 ltac:(lia)) as (? & _). lia.
      + rewrite (Hout1 Hgt1). change BINS with 256. lia. }
  rewrite !clamp_index_pos by lia. lia.
Qed.

(** ** What the exact estimators depend on *)

Lemma histogram_unique count1 count2 l :
  histogram_of count1 l -> histogram_of count2 l -> count1 = count2.
Proof.
  intros [Hlen1 H1] [Hlen2 H2]. apply list_eq. intros i.
  destruct (count1 !! i) as [c1|] eqn:Hc1, (count2 !! i) as [c2|] eqn:Hc2.
  - by rewrite (H1 _ _ Hc1), (H2 _ _ Hc2).
  - apply lookup_lt_Some in Hc1. apply lookup_ge_None in Hc2. lia.
  - apply lookup_lt_Some in Hc2. apply lookup_ge_None in Hc1. lia.
  - done.
Qed.

Lemma histogram_perm count l1 l2 :
  l1 ≡ₚ l2 -> histogram_of count l1 -> histogram_of count l2.
Proof.
  intros Hperm [Hlen H]. split; [done|]. intros v c Hc.
  rewrite (H v c Hc). unfold occurrences. by rewrite Hperm.
Qed.

Lemma counting_sort_unfold buf width height ratio :
  image_of buf width height ->
  exists count,
    histogram_of count buf /\
    counting_sort width height ratio buf
    = match cutoff_of (Z.of_nat (length buf)) ratio with
      | Ok cutoff =>
          match scan_count (Z.to_nat BINS) count cutoff 0 0 with
          | Ok index => Ok (clamp_index index, buf)
          | Fault f => Fault f
          end
      | Fault f => Fault f
      end.
Proof.
  intros Himg.
  destruct (image_of_size _ _ _ Himg) as [Hmul Hsize].
  pose proof Himg as (Hlen & Hmax & Hpix).
  destruct (counting_sort_fill_histogram buf [] (length buf) new_count)
    as (count & Hfill & Hhist);
    [apply histogram_new_count|done| |lia|].
  { cbn [app]. unfold SIZE_MAX, INT_MAX in *. lia. }
  cbn [app length] in Hfill, Hhist.
  exists count. split; [done|].
  unfold counting_sort.
  rewrite (bind_Ok _ _ _ _ _ (lift_Ok _ _ _ Hmul)). cbv zeta.
  rewrite Hsize, Nat2Z.id.
  rewrite (bind_Ok _ _ _ _ _ Hfill).
  unfold bind, lift, ret.
  destruct (cutoff_of _ _) as [cutoff|]; [|done].
  by destruct (scan_count _ _ _ _ _).
Qed.

Lemma std_sort_unfold buf width height ratio :
  image_of buf width height ->
  std_sort width height ratio buf
  = match index_of (Z.of_nat (length buf)) ratio with
    | Ok n => read n (merge_sort Z.le buf)
    | Fault f => Fault f
    end.
Proof.
  intros Himg. destruct (index_of _ _) as [n|f] eqn:Hn.
  - by apply std_sort_read.
  - destruct (image_of_size _ _ _ Himg) as [Hmul _]. unfold std_sort.
    rewrite (bind_Ok _ _ _ _ buf) by (apply lift_Ok, Hmul).
    apply bind_Fault. unfold lift. by rewrite Hn.
Qed.

Section Permuted.
Context {nth : NthElement}.

Lemma nth_element_sort_unfold buf width height ratio :
  image_of buf width height ->
  threshold_of (nth_element_sort width height ratio buf)
  = match cutoff_of (Z.of_nat (length buf)) ratio with
    | Ok n =>
        if n <=? Z.of_nat (length buf)
        then match merge_sort Z.le buf !! Z.to_nat n with
             | Some v => Ok v
             | None => Fault OutOfBounds
             end
        else Fault BadRange
    | Fault f => Fault f
    end.
Proof.
  intros Himg. destruct (image_of_size _ _ _ Himg) as [Hmul _].
  destruct (cutoff_of _ _) as [n|f] eqn:Hn.
  - assert (0 <= n) as Hpos.
    { unfold cutoff_of, float_to_size_t, float_to in Hn.
      destruct (SFtrunc _) as [t|]; [|discriminate].
      destruct (Z.leb_spec 0 t); [|discriminate].
      destruct (t <=? SIZE_MAX); [|discriminate]. by injection Hn as <-. }
    destruct (Z.leb_spec n (Z.of_nat (length buf))) as [Hle|Hgt].
    + rewrite (nth_element_sort_read _ _ _ _ n Himg Hn Hle).
      rewrite read_nth_element by done.
      by destruct (merge_sort Z.le buf !! Z.to_nat n).
    + unfold nth_element_sort.
      rewrite (bind_Ok _ _ _ _ buf) by (apply lift_Ok, Hmul).
      rewrite (bind_Ok _ _ _ n buf) by (apply lift_Ok, Hn).
      rewrite bind_Fault with (f := BadRange); [done|].
      unfold nth_element_range.
      destruct (Z.leb_spec n (Z.of_nat (length buf))); [lia|].
      by rewrite andb_false_r.
  - unfold nth_element_sort.
    rewrite (bind_Ok _ _ _ _ buf) by (apply lift_Ok, Hmul).
    rewrite bind_Fault with (f := f); [done|]. unfold lift. by rewrite Hn.
Qed.

(** X4: the three exact estimators depend on the pixel values only,
    not on where they sit: on two images that are permutations of each
    other, [counting_sort] and [nth_element_sort] have the same
    outcome (threshold or fault), and [std_sort] has the same outcome
    and leaves the same sorted buffer. *)
Theorem exact_estimators_see_the_multiset
    (buf1 buf2 : buffer) (width height : Z) (ratio : spec_float) :
  image_of buf1 width height -> buf1 ≡ₚ buf2 ->
  threshold_of (counting_sort width height ratio buf1)
  = threshold_of (counting_sort width height ratio buf2) /\
  std_sort width height ratio buf1 = std_sort width height ratio buf2 /\
  threshold_of (nth_element_sort width height ratio buf1)
  = threshold_of (nth_element_sort width height ratio buf2).
Proof.
  intros Himg1 Hperm.
  assert (image_of buf2 width height) as Himg2.
  { destruct Himg1 as (Hlen & Hmax & Hpix).
    split; [by rewrite <- Hperm|]. split; [done|]. by rewrite <- Hperm. }
  assert (merge_sort Z.le buf1 = merge_sort Z.le buf2) as Hsorted.
  { symmetry. apply sorted_perm_unique.
    - apply Sorted_merge_sort. apply _.
    - by rewrite merge_sort_Permutation. }
  pose proof (Permutation_length Hperm) as Hlen.
  split; [|split].
  - destruct (counting_sort_unfold buf1 width height ratio Himg1)
      as (count1 & Hhist1 & ->).
    destruct (counting_sort_unfold buf2 width height ratio Himg2)
      as (count2 & Hhist2 & ->).
    rewrite (histogram_unique count1 count2 buf2), Hlen;
      [|exact (histogram_perm _ _ _ Hperm Hhist1)|done].
    destruct (cutoff_of _ _) as [cutoff|]; [|done].
    by destruct (scan_count _ _ _ _ _).
  - by rewrite !std_sort_unfold, Hsorted, Hlen by done.
  - by rewrite !nth_element_sort_unfold, Hsorted, Hlen by done.
Qed.
End Permuted.

(** ** The samples of uniform_sample *)

(** The samples taken in the first [k] rounds of the loop. *)
Lemma samples_seq_S (s : nat) (buf : buffer) (k : nat) (p : Z) :
  buf !! (k * s)%nat = Some p ->
  omap (fun i : nat => buf !! (i * s)%nat) (seq 0 (S k))
  = omap (fun i : nat => buf !! (i * s)%nat) (seq 0 k) ++ [p].
Proof.
  intros Hp. rewrite seq_S, omap_app. cbn [omap list_omap Nat.add].
  by rewrite Hp.
Qed.

Lemma samples_seq_past (s : nat) (buf : buffer) (k n : nat) :
  (length buf <= k * s)%nat ->
  omap (fun i : nat => buf !! (i * s)%nat) (seq k n) = [].
Proof.
  intros Hk. revert k Hk. induction n as [|n IH]; intros k Hk; [done|].
  cbn [seq omap list_omap]. rewrite (lookup_ge_None_2 buf (k * s)) by done.
  apply IH. lia.
Qed.

Lemma samples_seq_all (s : nat) (buf : buffer) (k : nat) :
  (k <= length buf)%nat -> (length buf <= k * s)%nat ->
  omap (fun i : nat => buf !! (i * s)%nat) (seq 0 k)
  = omap (fun i : nat => buf !! (i * s)%nat) (seq 0 (length buf)).
Proof.
  intros Hle Hk.
  replace (seq 0 (length buf)) with (seq 0 (k + (length buf - k)))
    by (f_equal; lia).
  rewrite seq_app, omap_app, (samples_seq_past s buf (0 + k)) by done.
  by rewrite app_nil_r.
Qed.

Lemma samples_seq_length (s : nat) (buf : buffer) (k : nat) :
  (k * s < length buf + s)%nat -> (0 < s)%nat ->
  length (omap (fun i : nat => buf !! (i * s)%nat) (seq 0 k)) = k.
Proof.
  intros Hk Hs. induction k as [|k IH]; [done|].
  destruct (lookup_lt_is_Some_2 buf (k * s)) as [p Hp]; [lia|].
  rewrite (samples_seq_S _ _ _ _ Hp), length_app, IH; [cbn; lia|lia].
Qed.

Lemma omap_length_le {A B} (f : A -> option B) (l : list A) :
  (length (omap f l) <= length l)%nat.
Proof.
  induction l as [|a l IH]; [done|]. cbn [omap list_omap length].
  destruct (f a); cbn [length]; change (list_omap A B f l) with (omap f l); lia.
Qed.

Lemma samples_pixels (sample_rate : Z) (buf : buffer) :
  Forall is_Pixel buf -> Forall is_Pixel (samples sample_rate buf).
Proof.
  intros Hpix. apply Forall_forall. intros p Hp.
  apply list_elem_of_omap in Hp as (i & _ & Hi).
  rewrite Forall_lookup in Hpix. by eapply Hpix.
Qed.

Lemma samples_length_le (sample_rate : Z) (buf : buffer) :
  (length (samples sample_rate buf) <= length buf)%nat.
Proof.
  unfold samples. etrans; [apply omap_length_le|]. by rewrite length_seq.
Qed.

(** There are at least [N / sample_rate] samples. *)
Lemma samples_length_ge (sample_rate : Z) (buf : buffer) :
  1 <= sample_rate ->
  Z.of_nat (length buf) / sample_rate
  <= Z.of_nat (length (samples sample_rate buf)).
Proof.
  intros Hs. set (N := Z.of_nat (length buf)).
  set (K := Z.to_nat (N / sample_rate)).
  assert (0 <= N / sample_rate) by (apply Z.div_pos; lia).
  assert (N / sample_rate * sample_rate <= N) as Hmul
    by (rewrite Z.mul_comm; apply Z.mul_div_le; lia).
  assert (K <= length buf)%nat as HK by (unfold K, N in *; nia).
  unfold samples.
  replace (seq 0 (length buf)) with (seq 0 (K + (length buf - K)))
    by (f_equal; lia).
  rewrite seq_app, omap_app, length_app, samples_seq_length; [lia| |lia].
  unfold K, N in *. nia.
Qed.

(** When the stride divides the size there are exactly that many. *)
Lemma samples_length_divides (sample_rate : Z) (buf : buffer) :
  1 <= sample_rate -> (sample_rate | Z.of_nat (length buf)) ->
  Z.of_nat (length (samples sample_rate buf))
  = Z.of_nat (length buf) / sample_rate.
Proof.
  intros Hs [q Hq]. rewrite Hq, Z.div_mul by lia.
  assert (0 <= q) by nia.
  assert (Z.to_nat q <= length buf)%nat as HK by nia.
  unfold samples.
  rewrite <- (samples_seq_all (Z.to_nat sample_rate) buf (Z.to_nat q));
    [|done|nia].
  rewrite samples_seq_length; [lia|nia|lia].
Qed.

Lemma uniform_sample_fill_histogram (buf : buffer) (sample_rate : Z) :
  Forall is_Pixel buf -> Z.of_nat (length buf) <= INT_MAX ->
  1 <= sample_rate < 2 ^ 32 ->
  forall (fuel k : nat) count,
    Z.of_nat (length buf) - Z.of_nat k * sample_rate <= Z.of_nat fuel ->
    (k <= length buf)%nat ->
    histogram_of count
      (omap (fun i : nat => buf !! (i * Z.to_nat sample_rate)%nat) (seq 0 k)) ->
    exists count',
      uniform_sample_fill fuel (Z.of_nat (length buf)) sample_rate
        (Z.of_nat k * sample_rate) count buf
      = Ok (count', buf) /\
      histogram_of count' (samples sample_rate buf).
Proof.
  intros Hpix Hmax Hrate fuel.
  induction fuel as [|fuel IH]; intros k count Hfuel Hk Hhist;
    cbn [uniform_sample_fill];
    destruct (Z.ltb_spec (Z.of_nat k * sample_rate) (Z.of_nat (length buf)))
      as [Hlt|Hge];
    try (exists count; split; [reflexivity|];
         unfold samples; rewrite <- (samples_seq_all _ _ k); [done|done|nia]);
    [lia|].
  destruct (lookup_lt_is_Some_2 buf (k * Z.to_nat sample_rate)) as [p Hp];
    [nia|].
  assert (is_Pixel p) as Hpx.
  { rewrite Forall_lookup in Hpix. by eapply Hpix. }
  destruct (histogram_incr count _ p Hhist Hpx) as (count' & Hincr & Hhist').
  { pose proof (omap_length_le
      (fun i : nat => buf !! (i * Z.to_nat sample_rate)%nat) (seq 0 k)) as Hl.
    rewrite length_seq in Hl. unfold SIZE_MAX, INT_MAX in *. lia. }
  rewrite (bind_Ok _ _ _ p buf).
  2:{ replace (Z.of_nat k * sample_rate)
        with (Z.of_nat (k * Z.to_nat sample_rate)) by nia.
      by apply read_Ok. }
  rewrite (bind_Ok _ _ _ count' buf) by by apply lift_Ok.
  rewrite to_size_t_small by (unfold SIZE_MAX, INT_MAX in *; nia).
  replace (Z.of_nat k * sample_rate + sample_rate)
    with (Z.of_nat (S k) * sample_rate) by lia.
  apply IH; [nia|nia|]. by rewrite (samples_seq_S _ _ _ _ Hp).
Qed.

Lemma uniform_sample_unfold buf width height sample_rate ratio :
  image_of buf width height -> 1 <= sample_rate < 2 ^ 32 ->
  exists count,
    histogram_of count (samples sample_rate buf) /\
    uniform_sample width height sample_rate ratio buf
    = match cutoff_of (Z.of_nat (length buf) / sample_rate) ratio with
      | Ok cutoff =>
          match scan_count (Z.to_nat BINS) count cutoff 0 0 with
          | Ok index => Ok (clamp_index index, buf)
          | Fault f => Fault f
          end
      | Fault f => Fault f
      end.
Proof.
  intros Himg Hrate.
  destruct (image_of_size _ _ _ Himg) as [Hmul Hsize].
  destruct Himg as (Hlen & Hmax & Hpix).
  destruct (uniform_sample_fill_histogram buf sample_rate Hpix ltac:(lia) Hrate
              (length buf) 0 new_count) as (count & Hfill & Hhist);
    [lia|lia|apply histogram_new_count|].
  exists count. split; [done|].
  unfold uniform_sample.
  rewrite (bind_Ok _ _ _ _ buf) by (apply lift_Ok, Hmul).
  cbv zeta. rewrite Hsize, Nat2Z.id.
  rewrite (bind_Ok _ _ _ _ _ Hfill).
  rewrite (bind_Ok _ _ _ (Z.of_nat (length buf) / sample_rate) buf).
  2:{ apply lift_Ok. unfold size_t_div.
      destruct (Z.eqb_spec sample_rate 0); [lia|done]. }
  unfold bind, lift, ret.
  destruct (cutoff_of _ _) as [cutoff|]; [|done].
  by destruct (scan_count _ _ _ _ _).
Qed.

(** X5: [uniform_sample] works on the pixels at the indices 0,
    [sample_rate], [2 * sample_rate], ... only, with the cutoff
    [(width * height / sample_rate) * ratio].  When the cutoff lies
    between 1 and [width * height / sample_rate], it returns the
    element at index [cutoff - 1] of the sorted samples, the least
    value with at least [cutoff] samples at or below it, and leaves the
    buffer as it is. *)
Theorem uniform_sample_order_statistic
    (buf : buffer) (width height sample_rate : Z) (ratio : spec_float)
    (cutoff : Z) :
  image_of buf width height -> 1 <= sample_rate < 2 ^ 32 ->
  cutoff_of (width * height / sample_rate) ratio = Ok cutoff ->
  1 <= cutoff <= width * height / sample_rate ->
  exists v,
    uniform_sample width height sample_rate ratio buf = Ok (v, buf) /\
    merge_sort Z.le (samples sample_rate buf) !! Z.to_nat (cutoff - 1)
    = Some v /\
    forall u, cutoff <= below (u + 1) (samples sample_rate buf) <-> v <= u.
Proof.
  intros Himg Hrate Hcut Hrange.
  pose proof Himg as (Hlen & Hmax & Hpix). rewrite <- Hlen in Hcut, Hrange.
  destruct (uniform_sample_unfold buf width height sample_rate ratio Himg Hrate)
    as (count & Hhist & Hrun).
  rewrite Hcut in Hrun.
  pose proof (samples_length_le sample_rate buf) as Hle.
  pose proof (samples_length_ge sample_rate buf ltac:(lia)) as Hge.
  pose proof (samples_pixels sample_rate buf Hpix) as Hspix.
  destruct (scan_count_Ok count cutoff (proj1 Hhist) (Z.to_nat BINS) 0 0)
    as (index & Hscan & _); [change BINS with 256; lia|lia|].
  rewrite Hscan in Hrun.
  destruct (scan_count_stops count _ cutoff index Hhist Hspix) as
    (Hindex & _ & Hin & _); [unfold SIZE_MAX, INT_MAX in *; lia|done|].
  destruct (Hin ltac:(lia)) as (Hpos & Hlo & Hhi).
  exists (index - 1). split; [by rewrite Hrun, clamp_index_pos by lia|].
  split.
  - apply rank_unique.
    replace index with (index - 1 + 1) in Hhi by lia.
    unfold below in Hlo, Hhi.
    assert (length (filter (fun x => (x < index - 1 + 1)%Z)
                      (samples sample_rate buf))
            <= length (filter (fun x => (x <= index - 1)%Z)
                         (samples sample_rate buf)))%nat
      by (apply filter_length_le; intros; lia).
    lia.
  - intros u. split.
    + intros Hu. destruct (Z.le_gt_cases (index - 1) u) as [|Hgt]; [done|].
      pose proof (below_mono (u + 1) (index - 1) (samples sample_rate buf)
                    ltac:(lia)). lia.
    + intros Hu.
      pose proof (below_mono index (u + 1) (samples sample_rate buf)
                    ltac:(lia)). lia.
Qed.

(** X6: [uniform_sample] never looks at a pixel off the sampling grid:
    two images of the same size that agree on the sampled pixels have
    the same outcome, for every ratio. *)
Theorem uniform_sample_sees_the_samples_only
    (buf1 buf2 : buffer) (width height sample_rate : Z) (ratio : spec_float) :
  image_of buf1 width height -> image_of buf2 width height ->
  1 <= sample_rate < 2 ^ 32 ->
  samples sample_rate buf1 = samples sample_rate buf2 ->
  threshold_of (uniform_sample width height sample_rate ratio buf1)
  = threshold_of (uniform_sample width height sample_rate ratio buf2).
Proof.
  intros Himg1 Himg2 Hrate Hsame.
  destruct (uniform_sample_unfold buf1 width height sample_rate ratio Himg1 Hrate)
    as (count1 & Hhist1 & ->).
  destruct (uniform_sample_unfold buf2 width height sample_rate ratio Himg2 Hrate)
    as (count2 & Hhist2 & ->).
  rewrite Hsame in Hhist1.
  rewrite (histogram_unique _ _ _ Hhist1 Hhist2).
  replace (Z.of_nat (length buf1)) with (Z.of_nat (length buf2))
    by (destruct Himg1 as [-> _], Himg2 as [-> _]; done).
  destruct (cutoff_of _ _) as [cutoff|]; [|done].
  by destruct (scan_count _ _ _ _ _).
Qed.

(** X7: when [sample_rate] divides the number of pixels,
    [uniform_sample] has the outcome of [counting_sort] run on the
    image made of the sampled pixels. *)
Theorem uniform_sample_is_counting_sort_of_samples
    (buf : buffer) (width height sample_rate : Z) (ratio : spec_float) :
  image_of buf width height -> 1 <= sample_rate < 2 ^ 32 ->
  (sample_rate | width * height) ->
  threshold_of (uniform_sample width height sample_rate ratio buf)
  = threshold_of (counting_sort (width * height / sample_rate) 1 ratio
                    (samples sample_rate buf)).
Proof.
  intros Himg Hrate Hdiv. pose proof Himg as (Hlen & Hmax & Hpix).
  rewrite <- Hlen in Hdiv |- *.
  pose proof (samples_length_divides sample_rate buf ltac:(lia) Hdiv) as Hs.
  assert (image_of (samples sample_rate buf)
            (Z.of_nat (length buf) / sample_rate) 1) as Himg'.
  { split; [lia|]. split; [|by apply samples_pixels].
    pose proof (samples_length_le sample_rate buf). lia. }
  destruct (uniform_sample_unfold buf width height sample_rate ratio Himg Hrate)
    as (count1 & Hhist1 & ->).
  destruct (counting_sort_unfold _ _ _ ratio Himg') as (count2 & Hhist2 & ->).
  rewrite (histogram_unique _ _ _ Hhist1 Hhist2), Hs.
  destruct (cutoff_of _ _) as [cutoff|]; [|done].
  by destruct (scan_count _ _ _ _ _).
Qed.

(** ** The binarized image *)

Lemma applier_idempotent (T p : Z) :
  is_Pixel p -> applier T (applier T p) = applier T p.
Proof.
  unfold is_Pixel, applier. change PIXEL_MAX with 255.
  intros Hp. repeat case_decide; lia.
Qed.

Lemma occurrences_cons v a l :
  occurrences v (a :: l) = (if decide (a = v) then 1 else 0) + occurrences v l.
Proof.
  unfold occurrences. rewrite filter_cons.
  destruct (decide (a = v)); cbn [length]; lia.
Qed.

Lemma below_cons i a l :
  below i (a :: l) = (if decide (a < i) then 1 else 0) + below i l.
Proof.
  unfold below. rewrite filter_cons.
  destruct (decide (a < i)); cbn [length]; lia.
Qed.

Lemma applier_black_count (T : Z) (l : list Z) :
  T <= PIXEL_MAX -> Forall is_Pixel l ->
  occurrences 0 (applier T <$> l) = below (Z.min (T + 1) PIXEL_MAX) l.
Proof.
  intros HT. induction 1 as [|p l Hp _ IH]; [done|].
  rewrite fmap_cons, occurrences_cons, below_cons, IH. f_equal.
  unfold is_Pixel, applier in *. change PIXEL_MAX with 255 in *.
  repeat case_decide; lia.
Qed.

Lemma applier_white_count (T : Z) (l : list Z) :
  occurrences 0 (applier T <$> l) + occurrences PIXEL_MAX (applier T <$> l)
  = Z.of_nat (length l).
Proof.
  induction l as [|p l IH]; [done|].
  rewrite fmap_cons, !occurrences_cons. cbn [length].
  destruct (applier_black_or_white T p) as [->| ->];
    change PIXEL_MAX with 255 in *; repeat case_decide; lia.
Qed.

(** X9: the binarization is idempotent: a second pass with the same
    threshold over the binarized image changes no pixel. *)
Theorem binarize_idempotent (buf : buffer) (width height T : Z) :
  image_of buf width height ->
  exists out, binarize width height T buf = Ok (tt, out) /\
              binarize width height T out = Ok (tt, out).
Proof.
  intros (Hlen & Hmax & Hpix). exists (applier T <$> buf).
  split; [by apply binarize_spec|].
  rewrite binarize_spec by (by rewrite ?length_fmap).
  f_equal. f_equal. rewrite <- list_fmap_compose.
  apply list_fmap_ext. intros i p Hp. apply applier_idempotent.
  rewrite Forall_lookup in Hpix. by eapply Hpix.
Qed.

(** X10: for a threshold [T] up to the maximum pixel value, the
    binarized image has as many black pixels as the image had pixels
    at or below [T] other than those at the maximum value (which stay
    white), and all its other pixels are white. *)
Theorem binarize_black_pixels (buf : buffer) (width height T : Z) :
  image_of buf width height -> T <= PIXEL_MAX ->
  exists out,
    binarize width height T buf = Ok (tt, out) /\
    occurrences 0 out = below (Z.min (T + 1) PIXEL_MAX) buf /\
    occurrences PIXEL_MAX out
    = width * height - below (Z.min (T + 1) PIXEL_MAX) buf.
Proof.
  intros (Hlen & Hmax & Hpix) HT. exists (applier T <$> buf).
  split; [by apply binarize_spec|].
  pose proof (applier_black_count T buf HT Hpix).
  pose proof (applier_white_count T buf). lia.
Qed.

Lemma samples_fmap (f : Z -> Z) (sample_rate : Z) (buf : buffer) :
  samples sample_rate (f <$> buf) = f <$> samples sample_rate buf.
Proof.
  unfold samples. rewrite length_fmap, list_fmap_omap.
  apply list_omap_ext, Forall2_same_length_lookup_2; [done|].
  intros i x y Hx Hy. rewrite Hx in Hy. injection Hy as <-.
  by rewrite list_lookup_fmap.
Qed.

(** X11: the threshold of [uniform_sample] applied by the
    binarization, as [main] does.  With a cutoff between 1 and
    [width * height / sample_rate] and a threshold [T] below the
    maximum pixel value, at least [cutoff] of the sampled pixels of the
    binarized image are black, and no smaller threshold achieves that;
    with [T] at the maximum, fewer than [cutoff] are. *)
Theorem uniform_sample_then_binarize
    (buf : buffer) (width height sample_rate : Z) (ratio : spec_float)
    (cutoff : Z) :
  image_of buf width height -> 1 <= sample_rate < 2 ^ 32 ->
  cutoff_of (width * height / sample_rate) ratio = Ok cutoff ->
  1 <= cutoff <= width * height / sample_rate ->
  exists T out,
    uniform_sample width height sample_rate ratio buf = Ok (T, buf) /\
    binarize width height T buf = Ok (tt, out) /\
    (cutoff <= occurrences 0 (samples sample_rate out) <-> T < PIXEL_MAX) /\
    forall T' out',
      T' < T -> binarize width height T' buf = Ok (tt, out') ->
      occurrences 0 (samples sample_rate out') < cutoff.
Proof.
  intros Himg Hrate Hcut Hrange.
  destruct (uniform_sample_order_statistic buf width height sample_rate ratio
              cutoff Himg Hrate Hcut Hrange) as (T & Hrun & Hsorted & Hleast).
  pose proof Himg as (Hlen & Hmax & Hpix).
  pose proof (samples_pixels sample_rate buf Hpix) as Hspix.
  assert (is_Pixel T) as HT.
  { assert (T ∈ samples sample_rate buf) as Hin.
    { rewrite <- (merge_sort_Permutation Z.le). by eapply list_elem_of_lookup_2. }
    rewrite Forall_forall in Hspix. by apply Hspix. }
  exists T, (applier T <$> buf). split; [done|].
  split; [by apply binarize_spec|]. split.
  - rewrite samples_fmap, applier_black_count by (done || apply HT).
    unfold is_Pixel in HT. change PIXEL_MAX with 255 in *.
    destruct (Z.eq_dec T 255) as [->|Hne].
    + change (Z.min (255 + 1) 255) with (254 + 1).
      pose proof (proj1 (Hleast 254)). lia.
    + rewrite Z.min_l by lia. pose proof (proj2 (Hleast T)). lia.
  - intros T' out' HT'. rewrite binarize_spec by done. intros [= <-].
    unfold is_Pixel in HT. change PIXEL_MAX with 255 in *.
    rewrite samples_fmap, applier_black_count by (done || change PIXEL_MAX with 255; lia).
    change PIXEL_MAX with 255.
    pose proof (below_mono (Z.min (T' + 1) 255) (T' + 1)
                  (samples sample_rate buf) ltac:(lia)).
    pose proof (proj1 (Hleast T')). lia.
Qed.

(** ** The empty image *)

Section EmptyImage.
Context {nth : NthElement} {libm : Libm}.

Lemma index_of_empty (ratio : spec_float) :
  in_unit ratio -> index_of 0 ratio = Ok 0.
Proof. intros [H0 H1]. by destruct ratio as [s|[]| |s m e]. Qed.

(** X12: on an image without pixels ([width * height = 0]) and for a
    ratio in [0,1], [normal_estimate] and [weighted_estimate] divide
    by zero when they form the average, [std_sort] and
    [nth_element_sort] read [greyscale[0]] of an empty buffer, and only
    [counting_sort] and [uniform_sample] return (the maximum pixel
    value). *)
Theorem empty_image (width height : Z) (ratio : spec_float) :
  width * height = 0 -> in_unit ratio ->
  normal_estimate width height ratio [] = Fault DivisionByZero /\
  weighted_estimate width height ratio [] = Fault DivisionByZero /\
  std_sort width height ratio [] = Fault OutOfBounds /\
  nth_element_sort width height ratio [] = Fault OutOfBounds /\
  counting_sort width height ratio [] = Ok (PIXEL_MAX, []) /\
  uniform_sample width height SampleRate ratio [] = Ok (PIXEL_MAX, []).
Proof.
  intros Hsize Hunit.
  assert (int_mul width height = Ok 0) as Hmul by (unfold int_mul; by rewrite Hsize).
  assert (image_of [] width height) as Himg.
  { split; [by rewrite Hsize|]. split; [rewrite Hsize; done|constructor]. }
  split; [|split; [|split; [|split; [|split]]]].
  - unfold normal_estimate, normal_estimate_value.
    rewrite bind_Fault with (f := DivisionByZero); [done|].
    by rewrite (bind_Ok _ _ _ 0 []) by (apply lift_Ok, Hmul).
  - unfold weighted_estimate.
    by rewrite (bind_Ok _ _ _ 0 []) by (apply lift_Ok, Hmul).
  - rewrite (std_sort_read [] width height ratio 0 Himg);
      [done|by apply index_of_empty].
  - rewrite (nth_element_sort_read [] width height ratio 0 Himg);
      [|by apply cutoff_of_empty|done].
    apply read_past_end. rewrite nth_element_length. done.
  - destruct (counting_sort_run [] width height ratio 0 Himg)
      as (count & index & _ & Hscan & _ & ->); [by apply cutoff_of_empty|].
    rewrite scan_count_cutoff_0 in Hscan. by injection Hscan as <-.
  - destruct (uniform_sample_run [] width height SampleRate ratio 0 Himg)
      as (count & index & _ & Hscan & _ & ->);
      [done|by apply cutoff_of_empty|].
    rewrite scan_count_cutoff_0 in Hscan. by injection Hscan as <-.
Qed.
End EmptyImage.

(** ** A stride of zero *)

Lemma uniform_sample_fill_stride_0 (buf : buffer) (p : Z) :
  buf !! 0%nat = Some p -> is_Pixel p ->
  forall (fuel : nat) count,
    length count = Z.to_nat BINS ->
    uniform_sample_fill fuel (Z.of_nat (length buf)) 0 0 count buf
    = Fault OutOfFuel.
Proof.
  intros Hp Hpx fuel.
  pose proof (lookup_lt_Some _ _ _ Hp) as Hlen.
  induction fuel as [|fuel IH]; intros count Hcount;
    cbn [uniform_sample_fill];
    destruct (Z.ltb_spec 0 (Z.of_nat (length buf))); try lia; [done|].
  destruct (count_incr_Ok count p Hcount Hpx) as (count' & Hincr & Hlen').
  rewrite (bind_Ok _ _ _ p buf) by (by apply (read_Ok buf 0%nat)).
  rewrite (bind_Ok _ _ _ count' buf) by by apply lift_Ok.
  by apply IH.
Qed.

(** X8: with [sample_rate = 0] the histogram loop of [uniform_sample]
    does not advance: on a non-empty image it runs out of any amount of
    fuel, so the call never returns; on an empty image the loop is
    skipped and [image_size / sample_rate] divides by zero. *)
Theorem uniform_sample_stride_0
    (buf : buffer) (width height : Z) (ratio : spec_float) :
  image_of buf width height ->
  (buf <> [] ->
   (forall fuel count, length count = Z.to_nat BINS ->
      uniform_sample_fill fuel (width * height) 0 0 count buf
      = Fault OutOfFuel) /\
   uniform_sample width height 0 ratio buf = Fault OutOfFuel) /\
  (buf = [] -> uniform_sample width height 0 ratio buf = Fault DivisionByZero).
Proof.
  intros Himg. destruct (image_of_size _ _ _ Himg) as [Hmul Hsize].
  pose proof Himg as (Hlen & Hmax & Hpix). split.
  - intros Hne. destruct buf as [|p buf']; [done|].
    apply Forall_cons in Hpix as [Hp _].
    assert (forall fuel count, length count = Z.to_nat BINS ->
              uniform_sample_fill fuel (width * height) 0 0 count (p :: buf')
              = Fault OutOfFuel) as Hloop.
    { intros fuel count Hcount. rewrite <- Hlen.
      by apply (uniform_sample_fill_stride_0 (p :: buf') p). }
    split; [done|]. unfold uniform_sample.
    rewrite (bind_Ok _ _ _ _ _ (lift_Ok _ _ _ Hmul)). cbv zeta.
    apply bind_Fault. rewrite Hsize, Hlen. apply Hloop, new_count_length.
  - intros ->. unfold uniform_sample.
    by rewrite (bind_Ok _ _ _ _ _ (lift_Ok _ _ _ Hmul)).
Qed.

(** ** std_sort writes *)

(** X13: [std_sort] sorts in place: when it returns, the buffer it
    leaves equals the buffer it was given exactly when the image was
    already in ascending order. *)
Theorem std_sort_keeps_sorted_images_only
    (buf : buffer) (width height : Z) (ratio : spec_float) (n : Z) :
  image_of buf width height ->
  index_of (width * height) ratio = Ok n -> 0 <= n < width * height ->
  exists v buf',
    std_sort width height ratio buf = Ok (v, buf') /\
    (buf' = buf <-> Sorted Z.le buf).
Proof.
  intros Himg Hn Hrange. pose proof Himg as (Hlen & _).
  rewrite <- Hlen in Hn, Hrange.
  destruct (read_sorted_in_bounds buf n Hrange) as (v & Hv & Hread).
  exists v, (merge_sort Z.le buf).
  rewrite (std_sort_read _ _ _ _ _ Himg Hn). split; [done|]. split.
  - intros <-. apply Sorted_merge_sort. apply _.
  - intros Hs. by apply sorted_perm_unique.
Qed.

(** ** Small images in main *)

(** With [SampleRate = 10] and [Ratio = 0.33f], fewer than 40 pixels
    give fewer than 4 samples to count, and a cutoff of 0. *)
Lemma cutoff_of_Ratio_small (size : Z) :
  0 <= size < 40 -> cutoff_of (size / SampleRate) Ratio = Ok 0.
Proof.
  intros Hsize.
  assert (0 <= size / SampleRate <= 3) as Hq.
  { unfold SampleRate. split; [apply Z.div_pos; lia|].
    assert (size / 10 < 4) by (apply Z.div_lt_upper_bound; lia). lia. }
  revert Hq. generalize (size / SampleRate). intros q Hq.
  assert (q = 0 \/ q = 1 \/ q = 2 \/ q = 3) as [->|[->|[->| ->]]] by lia;
    vm_compute; reflexivity.
Qed.

Section SmallImages.
Context {nth : NthElement} {libm : Libm}.

Lemma main_inv (img garbage : buffer) (width height : Z) ts h' :
  image_of img width height -> length garbage = length img ->
  main width height {| image := img; copy := garbage |} = Ok (ts, h') ->
  uniform_sample width height SampleRate Ratio img
  = Ok (uniform_sample_threshold ts, img) /\
  binarize width height (uniform_sample_threshold ts) img = Ok (tt, image h').
Proof.
  intros Himg Hlen Hmain. unfold main in Hmain.
  rewrite (bind_Ok _ _ _ _ _ (save_image_spec _ _ _ _ Himg Hlen)) in Hmain.
  apply bind_inv in Hmain as (ts' & h1 & Hbench & Hmain).
  apply bind_inv in Hmain as ([] & h2 & Hbin & Hret).
  injection Hret as -> ->.
  unfold benchmark in Hbench.
  apply bind_inv in Hbench as (t1 & s1 & H1 & Hbench).
  apply on_image_readonly in H1 as [_ ->]; [|apply counting_sort_readonly].
  apply bind_inv in Hbench as (t2 & s2 & H2 & Hbench).
  apply run_std_sort_spec in H2 as [-> _]; [|done].
  apply bind_inv in Hbench as (t3 & s3 & H3 & Hbench).
  apply run_nth_element_sort_spec in H3 as [-> _]; [|done].
  apply bind_inv in Hbench as (t4 & s4 & H4 & Hbench).
  apply on_image_readonly in H4 as [_ ->]; [|apply normal_estimate_readonly].
  apply bind_inv in Hbench as (t5 & s5 & H5 & Hbench).
  apply on_image_readonly in H5 as [_ ->]; [|apply weighted_estimate_readonly].
  apply bind_inv in Hbench as (t6 & s6 & H6 & Hbench).
  apply on_image_readonly in H6 as [H6 ->]; [|apply uniform_sample_readonly].
  cbn [image] in H6.
  injection Hbench as <- <-. cbn.
  apply on_image_inv in Hbin as (b & Hbin & ->). cbn in *. done.
Qed.

(** X14: with [SampleRate = 10] and [Ratio = 0.33f], an image of
    fewer than 40 pixels has fewer than 4 sampled pixels counted and a
    cutoff of 0: whenever [main] completes on it, the threshold used is
    the maximum pixel value and every pixel of the written image is
    black, except the pixels that were at the maximum value, which
    stay white. *)
Theorem main_blackens_small_images
    (img garbage : buffer) (width height : Z) ts h' :
  image_of img width height -> length garbage = length img ->
  width * height < 40 ->
  main width height {| image := img; copy := garbage |} = Ok (ts, h') ->
  uniform_sample_threshold ts = PIXEL_MAX /\
  image h' = (fun p => if decide (p = PIXEL_MAX) then PIXEL_MAX else 0) <$> img.
Proof.
  intros Himg Hlen Hsmall Hmain.
  destruct (main_inv _ _ _ _ _ _ Himg Hlen Hmain) as [Hsample Hbin].
  pose proof Himg as (Hsize & Hmax & Hpix).
  destruct (uniform_sample_run img width height SampleRate Ratio 0 Himg)
    as (count & index & _ & Hscan & _ & Hrun);
    [done|apply cutoff_of_Ratio_small; lia|].
  rewrite scan_count_cutoff_0 in Hscan. injection Hscan as <-.
  rewrite Hrun in Hsample. injection Hsample as Hsample.
  change (clamp_index 0) with PIXEL_MAX in Hsample.
  split; [done|]. rewrite <- Hsample, binarize_spec in Hbin by done.
  injection Hbin as <-. apply list_fmap_ext. intros i p Hp.
  assert (is_Pixel p) as Hpx by (rewrite Forall_lookup in Hpix; by eapply Hpix).
  unfold is_Pixel, applier in *. change PIXEL_MAX with 255 in *.
  repeat case_decide; lia.
Qed.
End SmallImages.

(** * The arithmetic of the estimators

    The products, sums and conversions of the estimators are followed
    on the values of the floating-point numbers: every operation gives
    the exact result rounded to nearest even, and rounding is monotone
    and never crosses a number of the format. *)

(** ** Rounding to nearest, on integers *)

Lemma rne_bounds (v n : Z) : v / 2 ^ n <= rne v n <= v / 2 ^ n + 1.
Proof.
  unfold rne. cbv zeta.
  destruct (2 * (v mod 2 ^ n) <? 2 ^ n); [lia|].
  destruct (2 ^ n <? 2 * (v mod 2 ^ n)); [lia|].
  destruct (Z.even (v / 2 ^ n)); lia.
Qed.

Lemma rne_exact (v n : Z) : 0 <= n -> v mod 2 ^ n = 0 -> rne v n = v / 2 ^ n.
Proof.
  intros Hn Hr. unfold rne. cbv zeta. rewrite Hr.
  assert (0 < 2 ^ n) by (apply Z.pow_pos_nonneg; lia).
  destruct (Z.ltb_spec (2 * 0) (2 ^ n)); [done|lia].
Qed.

Lemma rne_le_grid (v n c : Z) : 0 <= n -> v <= c * 2 ^ n -> rne v n <= c.
Proof.
  intros Hn Hv. assert (0 < 2 ^ n) as Hp by (apply Z.pow_pos_nonneg; lia).
  pose proof (Z.div_mod v (2 ^ n) ltac:(lia)) as Hdm.
  pose proof (Z.mod_pos_bound v (2 ^ n) Hp) as Hr.
  assert (v / 2 ^ n <= c) as Hq by nia.
  destruct (Z.eq_dec (v / 2 ^ n) c) as [Heq|Hne].
  - rewrite rne_exact; [lia|lia|nia].
  - pose proof (rne_bounds v n). lia.
Qed.

Lemma rne_ge_grid (v n c : Z) : 0 <= n -> c * 2 ^ n <= v -> c <= rne v n.
Proof.
  intros Hn Hv. assert (0 < 2 ^ n) as Hp by (apply Z.pow_pos_nonneg; lia).
  pose proof (Z.div_mod v (2 ^ n) ltac:(lia)) as Hdm.
  pose proof (Z.mod_pos_bound v (2 ^ n) Hp) as Hr.
  pose proof (rne_bounds v n). nia.
Qed.

Lemma rne_mono (v1 v2 n : Z) : 0 <= n -> v1 <= v2 -> rne v1 n <= rne v2 n.
Proof.
  intros Hn Hv. assert (0 < 2 ^ n) as Hp by (apply Z.pow_pos_nonneg; lia).
  pose proof (Z.div_mod v1 (2 ^ n) ltac:(lia)) as Hdm1.
  pose proof (Z.div_mod v2 (2 ^ n) ltac:(lia)) as Hdm2.
  pose proof (Z.mod_pos_bound v1 (2 ^ n) Hp) as Hr1.
  pose proof (Z.mod_pos_bound v2 (2 ^ n) Hp) as Hr2.
  assert (v1 / 2 ^ n <= v2 / 2 ^ n) as Hq by (apply Z.div_le_mono; lia).
  destruct (Z.eq_dec (v1 / 2 ^ n) (v2 / 2 ^ n)) as [Heq|Hne].
  - unfold rne. cbv zeta. rewrite Heq.
    assert (v1 mod 2 ^ n <= v2 mod 2 ^ n) by nia.
    destruct (Z.ltb_spec (2 * (v1 mod 2 ^ n)) (2 ^ n));
      destruct (Z.ltb_spec (2 * (v2 mod 2 ^ n)) (2 ^ n));
      destruct (Z.ltb_spec (2 ^ n) (2 * (v1 mod 2 ^ n)));
      destruct (Z.ltb_spec (2 ^ n) (2 * (v2 mod 2 ^ n)));
      destruct (Z.even (v2 / 2 ^ n)); lia.
  - pose proof (rne_bounds v1 n). pose proof (rne_bounds v2 n). lia.
Qed.

Lemma rne_scale (v n k : Z) :
  0 <= n -> 0 <= k -> rne (v * 2 ^ k) (n + k) = rne v n.
Proof.
  intros Hn Hk. assert (0 < 2 ^ n) as Hp by (apply Z.pow_pos_nonneg; lia).
  assert (0 < 2 ^ k) as Hpk by (apply Z.pow_pos_nonneg; lia).
  unfold rne. cbv zeta. rewrite Z.pow_add_r by lia.
  rewrite Z.div_mul_cancel_r by lia.
  rewrite Z.mul_mod_distr_r by lia.
  set (r := v mod 2 ^ n).
  assert ((2 * (r * 2 ^ k) <? 2 ^ n * 2 ^ k) = (2 * r <? 2 ^ n)) as ->.
  { destruct (Z.ltb_spec (2 * (r * 2 ^ k)) (2 ^ n * 2 ^ k)),
      (Z.ltb_spec (2 * r) (2 ^ n)); (done || nia). }
  assert ((2 ^ n * 2 ^ k <? 2 * (r * 2 ^ k)) = (2 ^ n <? 2 * r)) as ->.
  { destruct (Z.ltb_spec (2 ^ n * 2 ^ k) (2 * (r * 2 ^ k))),
      (Z.ltb_spec (2 ^ n) (2 * r)); (done || nia). }
  done.
Qed.

Lemma rne_0 (v : Z) : rne v 0 = v.
Proof. rewrite rne_exact; [apply Z.div_1_r|lia|apply Z.mod_1_r]. Qed.

Lemma rne_nonneg (v n : Z) : 0 <= n -> 0 <= v -> 0 <= rne v n.
Proof. intros Hn Hv. apply (rne_ge_grid v n 0); lia. Qed.

(** ** The shifts of [SpecFloat] *)

Lemma shr_1_spec (m : Z) (r s : bool) :
  0 <= m ->
  shr_1 {| shr_m := m; shr_r := r; shr_s := s |}
  = {| shr_m := m / 2; shr_r := Z.odd m; shr_s := r || s |}.
Proof.
  intros Hm. destruct m as [|[p|p|]|p]; try lia; cbn [shr_1].
  - reflexivity.
  - assert (Zpos p~1 / 2 = Zpos p) as ->; [|reflexivity].
    change (Zpos p~1) with (2 * Zpos p + 1).
    symmetry. apply (Z.div_unique _ 2 _ 1); lia.
  - assert (Zpos p~0 / 2 = Zpos p) as ->; [|reflexivity].
    change (Zpos p~0) with (2 * Zpos p).
    symmetry. apply (Z.div_unique _ 2 _ 0); lia.
  - reflexivity.
Qed.

Lemma shr_iter_spec (n : nat) (m : Z) :
  0 <= m ->
  let r := Nat.iter n shr_1 {| shr_m := m; shr_r := false; shr_s := false |} in
  let rho := m mod 2 ^ Z.of_nat n in
  shr_m r = m / 2 ^ Z.of_nat n /\
  (shr_r r = true <-> 2 ^ Z.of_nat n <= 2 * rho) /\
  (shr_s r = true <-> rho <> 0 /\ 2 * rho <> 2 ^ Z.of_nat n).
Proof.
  intros Hm. induction n as [|n IH]; cbv zeta in *.
  - change (2 ^ Z.of_nat 0) with 1. rewrite Z.div_1_r, Z.mod_1_r. cbn.
    repeat split; intros; try lia; try discriminate.
  - destruct IH as (IHm & IHr & IHs).
    change (Nat.iter (S n) shr_1 ?x) with (shr_1 (Nat.iter n shr_1 x)).
    destruct (Nat.iter n shr_1 _) as [M rb sb]. cbn [shr_m shr_r shr_s] in *.
    assert (0 < 2 ^ Z.of_nat n) as Hp by (apply Z.pow_pos_nonneg; lia).
    assert (0 <= M) as HM by (rewrite IHm; apply Z.div_pos; lia).
    rewrite shr_1_spec by done. cbn [shr_m shr_r shr_s].
    rewrite Nat2Z.inj_succ, Z.pow_succ_r by lia.
    rewrite (Z.mul_comm 2 (2 ^ Z.of_nat n)).
    rewrite Z.rem_mul_r by lia. rewrite <- IHm.
    rewrite <- Z.div_div by lia. rewrite <- IHm.
    pose proof (Z.mod_pos_bound m (2 ^ Z.of_nat n) Hp) as Hrho.
    set (rho := m mod 2 ^ Z.of_nat n) in *.
    pose proof (Z.mod_pos_bound M 2 ltac:(lia)) as Hb.
    split; [done|]. rewrite Zmod_odd. clear Hb.
    assert (rb || sb = true <-> rho <> 0) as Hor.
    { rewrite orb_true_iff, IHr, IHs. lia. }
    rewrite Hor.
    destruct (Z.odd M); split; split; intros; try lia; try done.
Qed.

(** The mantissa [SpecFloat] rounds to after [n] shifts is the nearest
    multiple, ties to even. *)
Lemma shr_round (n : nat) (m : Z) :
  0 <= m ->
  let r := Nat.iter n shr_1 {| shr_m := m; shr_r := false; shr_s := false |} in
  round_nearest_even (shr_m r) (loc_of_shr_record r) = rne m (Z.of_nat n).
Proof.
  intros Hm. pose proof (shr_iter_spec n m Hm) as (HM & Hr & Hs).
  cbv zeta in *. destruct (Nat.iter n shr_1 _) as [M rb sb].
  cbn [shr_m shr_r shr_s] in *.
  assert (0 < 2 ^ Z.of_nat n) as Hp by (apply Z.pow_pos_nonneg; lia).
  pose proof (Z.mod_pos_bound m (2 ^ Z.of_nat n) Hp) as Hrho.
  unfold rne. cbv zeta. rewrite <- HM.
  set (rho := m mod 2 ^ Z.of_nat n) in *.
  destruct rb, sb; cbn [loc_of_shr_record round_nearest_even].
  - destruct (Z.ltb_spec (2 * rho) (2 ^ Z.of_nat n)); [lia|].
    destruct (Z.ltb_spec (2 ^ Z.of_nat n) (2 * rho)); [done|]. lia.
  - destruct (Z.ltb_spec (2 * rho) (2 ^ Z.of_nat n)); [lia|].
    destruct (Z.ltb_spec (2 ^ Z.of_nat n) (2 * rho)); [|done].
    assert (~ (rho <> 0 /\ 2 * rho <> 2 ^ Z.of_nat n)) by (rewrite <- Hs; done).
    lia.
  - destruct (Z.ltb_spec (2 * rho) (2 ^ Z.of_nat n)); [done|].
    assert (~ (2 ^ Z.of_nat n <= 2 * rho)) by (rewrite <- Hr; done). lia.
  - destruct (Z.ltb_spec (2 * rho) (2 ^ Z.of_nat n)); [done|].
    assert (~ (2 ^ Z.of_nat n <= 2 * rho)) by (rewrite <- Hr; done). lia.
Qed.

(** ** Floating-point numbers as scaled integers *)

Lemma pow2_pos (n : Z) : 0 <= n -> 0 < 2 ^ n.
Proof. intros. apply Z.pow_pos_nonneg; lia. Qed.

Lemma round_to_exact (n v : Z) :
  0 <= n -> v mod 2 ^ n = 0 -> round_to n v = v.
Proof.
  intros Hn Hv. unfold round_to. rewrite rne_exact by done.
  pose proof (Z.div_mod v (2 ^ n) ltac:(pose proof (pow2_pos n Hn); lia)). lia.
Qed.

Lemma round_to_multiple (n v : Z) :
  0 <= n -> round_to n (v * 2 ^ n) = v * 2 ^ n.
Proof. intros Hn. apply round_to_exact; [done|]. apply Z.mod_mul. pose proof (pow2_pos n Hn). lia. Qed.

Lemma digits2_log2 (m : positive) :
  Zpos (digits2_pos m) = Z.log2 (Zpos m) + 1.
Proof.
  pose proof (digits2_pos_bounds m) as Hb.
  rewrite (Z.log2_unique (Zpos m) (Zpos (digits2_pos m) - 1)); [lia|lia|].
  by replace (Z.succ (Zpos (digits2_pos m) - 1)) with (Zpos (digits2_pos m))
    by lia.
Qed.

Lemma magnitude_scaled (m : positive) (e : Z) :
  0 <= e + K ->
  Z.log2 (Zpos m * 2 ^ (e + K)) + 1 - K = Zpos (digits2_pos m) + e.
Proof.
  intros He. rewrite Z.log2_mul_pow2 by lia. rewrite digits2_log2. lia.
Qed.

Lemma round_to_mono (n v1 v2 : Z) :
  0 <= n -> v1 <= v2 -> round_to n v1 <= round_to n v2.
Proof.
  intros Hn Hv. unfold round_to. pose proof (rne_mono v1 v2 n Hn Hv).
  pose proof (pow2_pos n Hn). nia.
Qed.

Lemma round_to_le (n v c : Z) :
  0 <= n -> v <= c * 2 ^ n -> round_to n v <= c * 2 ^ n.
Proof.
  intros Hn Hv. unfold round_to. pose proof (rne_le_grid v n c Hn Hv).
  pose proof (pow2_pos n Hn). nia.
Qed.

Lemma round_to_ge (n v c : Z) :
  0 <= n -> c * 2 ^ n <= v -> c * 2 ^ n <= round_to n v.
Proof.
  intros Hn Hv. unfold round_to. pose proof (rne_ge_grid v n c Hn Hv).
  pose proof (pow2_pos n Hn). nia.
Qed.

#[export] Instance binary32 : Format F32.prec F32.emax.
Proof. split; unfold emin, F32.prec, F32.emax, K; lia. Qed.

#[export] Instance binary64 : Format F64.prec F64.emax.
Proof. split; unfold emin, F64.prec, F64.emax, K; lia. Qed.

Section FloatFormat.
Context {prec emax : Z} {fmt : Format prec emax}.
Let prec_pos : 0 < prec := format_prec.
Let emax_large : 2 <= emax := format_emax.
Let emin_neg : emin prec emax <= 0 := format_emin.
Let emin_scale : 0 <= 2 * emin prec emax + K := format_scale.

Lemma emin_K : 0 <= emin prec emax + K.
Proof. lia. Qed.

Lemma fexp_ge_emin (e : Z) : emin prec emax <= fexp prec emax e.
Proof. unfold fexp. lia. Qed.

(** [binary_round_aux] on an exact mantissa: the value [m * 2^e] is
    rounded to a multiple of [2^f], [f] the exponent the format gives
    to numbers of its magnitude. *)
Lemma binary_round_aux_scaled (s : bool) (m : positive) (e : Z) :
  0 <= e + K ->
  let f := fexp prec emax (Zpos (digits2_pos m) + e) in
  Z.max e f < emax - prec ->
  let R := binary_round_aux prec emax s (Zpos m) e loc_Exact in
  dyadic prec emax R /\ has_sign s R /\
  scaled R = cond_Zopp s (round_to (f + K) (Zpos m * 2 ^ (e + K))) /\
  (e <= f -> valid_binary prec emax R = true).
Proof.
  intros He f Hmax R.
  pose proof (fexp_ge_emin (Zpos (digits2_pos m) + e)) as Hf. fold f in Hf.
  destruct (Z.le_gt_cases f e) as [Hshort|Hshift].
  - (* the mantissa is on the grid already: nothing to round *)
    assert (R = S754_finite s m e) as ->.
    { unfold R, binary_round_aux, shr_fexp. cbn [Zdigits2 shr_record_of_loc].
      fold f. unfold shr.
      destruct (f - e) as [|p|p] eqn:Hn; [|lia|];
        cbn [shr_m loc_of_shr_record round_nearest_even Zdigits2]; fold f;
        rewrite Hn; cbn [shr_m];
        by destruct (Z.leb_spec e (emax - prec)); [|lia]. }
    cbn [dyadic has_sign scaled]. split; [lia|]. split; [done|]. split.
    { f_equal. symmetry. apply round_to_exact; [lia|].
      replace (e + K) with ((e - f) + (f + K)) by lia.
      rewrite Z.pow_add_r by lia. rewrite Z.mul_assoc. apply Z.mod_mul.
      pose proof (pow2_pos (f + K) ltac:(lia)). lia. }
    intros Hle. cbn [valid_binary]. unfold bounded, canonical_mantissa.
    fold f. apply andb_true_iff. split; [apply Z.eqb_eq|apply Z.leb_le]; lia.
  - (* [f - e] bits are shifted out *)
    destruct (f - e) as [|p|p] eqn:Hn; [lia| |lia].
    set (m1 := rne (Zpos m) (Zpos p)).
    assert (0 <= m1) as Hm1 by (apply rne_nonneg; lia).
    assert (m1 <= 2 ^ prec) as Hm1'.
    { apply rne_le_grid; [lia|].
      pose proof (digits2_pos_bounds m) as [_ Hlt].
      rewrite <- Z.pow_add_r by lia.
      assert (2 ^ Zpos (digits2_pos m) <= 2 ^ (prec + Zpos p)); [|lia].
      apply Z.pow_le_mono_r; [lia|]. unfold f, fexp in Hn. lia. }
    assert (round_to (f + K) (Zpos m * 2 ^ (e + K)) = m1 * 2 ^ (f + K)) as ->.
    { unfold round_to. replace (f + K) with (Zpos p + (e + K)) by lia.
      rewrite rne_scale by lia. fold m1. lia. }
    assert (Zdigits2 m1 <= prec + 1) as Hd1.
    { apply Zdigits2_lt_pow; [lia..|]. rewrite Z.pow_add_r by lia. lia. }
    assert (R = let '(mrs'', e'') := shr_fexp prec emax m1 f loc_Exact in
                match shr_m mrs'' with
                | 0 => S754_zero s
                | Zpos m0 => if e'' <=? emax - prec then S754_finite s m0 e''
                             else S754_infinity s
                | Zneg _ => S754_nan
                end) as ->.
    { unfold R, binary_round_aux, shr_fexp at 1.
      cbn [Zdigits2 shr_record_of_loc]. fold f. rewrite Hn. unfold shr at 1.
      rewrite iter_pos_nat.
      pose proof (shr_round (Pos.to_nat p) (Zpos m) ltac:(lia)) as Hround.
      cbv zeta in Hround. rewrite positive_nat_Z in Hround.
      rewrite Hround. fold m1. by replace (e + Zpos p) with f by lia. }
    unfold shr_fexp, shr. cbn [shr_record_of_loc].
    destruct (fexp prec emax (Zdigits2 m1 + f) - f) as [|q|q] eqn:Hn2.
    + cbn [shr_m].
      destruct m1 as [|p1|p1]; [cbn; by destruct s| |lia].
      destruct (Z.leb_spec f (emax - prec)); [|lia].
      cbn [dyadic has_sign scaled]. split; [lia|]. split; [done|].
      split; [done|]. intros _. cbn [valid_binary].
      unfold bounded, canonical_mantissa. cbn [Zdigits2] in Hn2.
      apply andb_true_iff. split; [apply Z.eqb_eq|apply Z.leb_le]; lia.
    + assert (q = 1%positive) as -> by (unfold fexp in Hn2; lia).
      assert (m1 = 2 ^ prec) as Hm1eq.
      { assert (Zdigits2 m1 = prec + 1) as Hd by (unfold fexp in Hn2; lia).
        destruct (Z.le_gt_cases (2 ^ prec) m1) as [|Hgt]; [lia|].
        pose proof (Zdigits2_lt_pow m1 prec Hm1 ltac:(lia) Hgt). lia. }
      cbn [SpecFloat.iter_pos]. rewrite shr_1_spec by done. cbn [shr_m].
      rewrite Hm1eq.
      replace (2 ^ prec) with (2 ^ (prec - 1) * 2)
        by (rewrite Z.mul_comm, <- Z.pow_succ_r by lia; f_equal; lia).
      rewrite Z.div_mul by lia.
      pose proof (pow2_pos (prec - 1) ltac:(lia)) as Hpp.
      destruct (2 ^ (prec - 1)) as [|p1|p1] eqn:Hp1; [lia| |lia].
      destruct (Z.leb_spec (f + 1) (emax - prec)); [|lia].
      cbn [dyadic has_sign scaled]. split; [lia|]. split; [done|]. split.
      { f_equal. replace (f + 1 + K) with (Z.succ (f + K)) by lia.
        rewrite Z.pow_succ_r by lia. lia. }
      intros _. cbn [valid_binary]. unfold bounded, canonical_mantissa.
      assert (Zpos (digits2_pos p1) = prec) as ->.
      { change (Zpos (digits2_pos p1)) with (Zdigits2 (Zpos p1)).
        rewrite <- Hp1. apply Z.le_antisymm.
        - apply Zdigits2_lt_pow; [lia..|]. apply Z.pow_lt_mono_r; lia.
        - pose proof (Zdigits2_pow_gt (2 ^ (prec - 1)) ltac:(lia)) as Hgt.
          apply Z.pow_lt_mono_r_iff in Hgt; [lia|lia|].
          rewrite Hp1. cbn. lia. }
      apply andb_true_iff. split; [apply Z.eqb_eq|apply Z.leb_le]; [|lia].
      unfold fexp. lia.
    + (* the rounded mantissa is never too short for its exponent *)
      exfalso. unfold fexp in Hn2.
      assert (emin prec emax < f) as Hnormal by lia.
      assert (2 ^ (prec - 1) <= m1) as Hlow.
      { apply rne_ge_grid; [lia|].
        pose proof (digits2_pos_bounds m) as [Hlo _].
        rewrite <- Z.pow_add_r by lia.
        replace (prec - 1 + Zpos p) with (Zpos (digits2_pos m) - 1); [done|].
        unfold f, fexp in Hn, Hnormal. lia. }
      assert (prec <= Zdigits2 m1); [|lia].
      pose proof (Zdigits2_pow_gt m1 Hm1) as Hgt.
      pose proof (Zdigits2_nonneg m1).
      destruct (Z.le_gt_cases prec (Zdigits2 m1)) as [|Hlt]; [done|].
      assert (2 ^ Zdigits2 m1 <= 2 ^ (prec - 1))
        by (apply Z.pow_le_mono_r; lia). lia.
Qed.

Lemma grid_nonneg (V : Z) : 0 <= grid prec emax V.
Proof. unfold grid, fexp. lia. Qed.

Lemma grid_mono (V1 V2 : Z) : V1 <= V2 -> grid prec emax V1 <= grid prec emax V2.
Proof.
  intros HV. unfold grid, fexp. pose proof (Z.log2_le_mono V1 V2 HV). lia.
Qed.

Lemma rounded_0 : rounded prec emax 0 = 0.
Proof.
  unfold rounded. pose proof (grid_nonneg 0).
  apply round_to_exact; [done|]. apply Z.mod_0_l.
  pose proof (pow2_pos (grid prec emax 0) ltac:(done)). lia.
Qed.

Lemma rounded_representable (V : Z) :
  representable prec emax V -> rounded prec emax V = V.
Proof. intros HV. apply round_to_exact; [apply grid_nonneg|done]. Qed.

Lemma below_top (V : Z) : 0 < V -> V < 2 ^ (grid prec emax V + prec).
Proof.
  intros HV. pose proof (Z.log2_spec V HV) as [_ Hlt].
  pose proof (Z.log2_nonneg V).
  eapply Z.lt_le_trans; [exact Hlt|].
  apply Z.pow_le_mono_r; [lia|]. unfold grid, fexp. lia.
Qed.

Lemma above_bottom (V : Z) :
  0 < V -> emin prec emax + K < grid prec emax V ->
  2 ^ (grid prec emax V + prec - 1) <= V.
Proof.
  intros HV Hg. pose proof (Z.log2_spec V HV) as [Hle _].
  replace (grid prec emax V + prec - 1) with (Z.log2 V); [done|].
  unfold grid, fexp in *. lia.
Qed.

Lemma rounded_nonneg (V : Z) : 0 <= V -> 0 <= rounded prec emax V.
Proof.
  intros HV. unfold rounded.
  pose proof (round_to_ge (grid prec emax V) V 0 (grid_nonneg V) ltac:(lia)).
  lia.
Qed.

(** Rounding is monotone. *)
Lemma rounded_mono (V1 V2 : Z) :
  0 <= V1 <= V2 -> rounded prec emax V1 <= rounded prec emax V2.
Proof.
  intros [H1 H12].
  destruct (Z.eq_dec V1 0) as [->|Hne].
  { rewrite rounded_0. apply rounded_nonneg. lia. }
  pose proof (grid_mono V1 V2 H12) as Hg.
  pose proof (grid_nonneg V1) as Hg1.
  unfold rounded.
  destruct (Z.eq_dec (grid prec emax V1) (grid prec emax V2)) as [->|Hlt].
  { apply round_to_mono; [apply grid_nonneg|done]. }
  set (n1 := grid prec emax V1) in *. set (n2 := grid prec emax V2) in *.
  pose proof (below_top V1 ltac:(lia)) as Htop. fold n1 in Htop.
  pose proof (above_bottom V2 ltac:(lia)) as Hbot. fold n2 in Hbot.
  specialize (Hbot ltac:(unfold n1, n2, grid, fexp in *; lia)).
  apply Z.le_trans with (2 ^ prec * 2 ^ n1).
  - apply round_to_le; [done|]. rewrite <- Z.pow_add_r by lia.
    rewrite Z.add_comm. lia.
  - apply Z.le_trans with (2 ^ (prec - 1) * 2 ^ n2).
    + rewrite <- !Z.pow_add_r by lia. apply Z.pow_le_mono_r; lia.
    + apply round_to_ge; [lia|]. rewrite <- Z.pow_add_r by lia.
      by replace (prec - 1 + n2) with (n2 + prec - 1) by lia.
Qed.

Lemma rounded_le (V c : Z) :
  0 <= V <= c -> representable prec emax c -> rounded prec emax V <= c.
Proof.
  intros HV Hc. rewrite <- (rounded_representable c Hc). by apply rounded_mono.
Qed.

Lemma rounded_ge (V c : Z) :
  0 <= c <= V -> representable prec emax c -> c <= rounded prec emax V.
Proof.
  intros HV Hc. rewrite <- (rounded_representable c Hc). by apply rounded_mono.
Qed.

(** Integers of at most [prec] bits are representable. *)
Lemma representable_Z (c : Z) :
  emin prec emax <= 0 -> 0 <= c < 2 ^ prec -> representable prec emax (c * 2 ^ K).
Proof.
  intros Hemin Hc. unfold representable.
  destruct (Z.eq_dec c 0) as [->|Hne].
  { apply Z.mod_0_l. pose proof (pow2_pos _ (grid_nonneg (0 * 2 ^ K))). lia. }
  assert (0 <= K) by (unfold emin in *; lia).
  assert (grid prec emax (c * 2 ^ K) <= K) as Hg.
  { unfold grid, fexp. rewrite Z.log2_mul_pow2 by lia.
    assert (Z.log2 c < prec) by (apply Z.log2_lt_pow2; lia). lia. }
  pose proof (grid_nonneg (c * 2 ^ K)) as Hg0.
  set (g := grid prec emax (c * 2 ^ K)) in *.
  replace K with ((K - g) + g) at 1 by lia.
  rewrite Z.pow_add_r by lia. rewrite Z.mul_assoc. apply Z.mod_mul.
  pose proof (pow2_pos g Hg0). lia.
Qed.

(** So are the values of the format. *)
Lemma representable_scaled (m : positive) (e : Z) :
  bounded prec emax m e = true ->
  representable prec emax (Zpos m * 2 ^ (e + K)) /\ emin prec emax <= e.
Proof.
  unfold bounded, canonical_mantissa. intros [Hc%Z.eqb_eq _]%andb_true_iff.
  assert (emin prec emax <= e) as He by (unfold fexp in Hc; lia).
  split; [|done]. unfold representable, grid.
  rewrite magnitude_scaled by lia. rewrite Hc.
  apply Z.mod_mul. pose proof (pow2_pos (e + K) ltac:(lia)). lia.
Qed.

(** ** The operations, on values *)

Lemma binary_round_aux_rounded (s : bool) (m : positive) (e : Z) :
  0 <= e + K ->
  let f := fexp prec emax (Zpos (digits2_pos m) + e) in
  Z.max e f < emax - prec ->
  let R := binary_round_aux prec emax s (Zpos m) e loc_Exact in
  dyadic prec emax R /\ has_sign s R /\
  scaled R = cond_Zopp s (rounded prec emax (Zpos m * 2 ^ (e + K))) /\
  (e <= f -> regular prec emax R).
Proof.
  intros He f Hmax R.
  destruct (binary_round_aux_scaled s m e He Hmax)
    as (Hd & Hs & Hv & Hvalid).
  fold R in Hd, Hs, Hv, Hvalid.
  split; [done|]. split; [done|]. split.
  - rewrite Hv. unfold rounded, grid. by rewrite magnitude_scaled.
  - intros Hle. specialize (Hvalid Hle).
    destruct R; try done.
Qed.

Lemma binary_round_rounded (s : bool) (m : positive) (e : Z) :
  0 <= e + K ->
  fexp prec emax (Zpos (digits2_pos m) + e) < emax - prec ->
  let R := binary_round prec emax s m e in
  regular prec emax R /\ has_sign s R /\
  scaled R = cond_Zopp s (rounded prec emax (Zpos m * 2 ^ (e + K))).
Proof.
  intros He Hmax R. unfold R, binary_round, shl_align.
  set (f := fexp prec emax (Zpos (digits2_pos m) + e)) in *.
  pose proof (fexp_ge_emin (Zpos (digits2_pos m) + e)) as Hf.
  fold f in Hf.
  destruct (f - e) as [|p|p] eqn:Hn.
  - destruct (binary_round_aux_rounded s m e He) as (_ & Hs & Hv & Hr);
      [fold f; lia|]. fold f in Hr. split; [apply Hr; lia|done].
  - destruct (binary_round_aux_rounded s m e He) as (_ & Hs & Hv & Hr);
      [fold f; lia|]. fold f in Hr. split; [apply Hr; lia|done].
  - assert (Zpos (digits2_pos (Pos.iter xO m p)) + f
            = Zpos (digits2_pos m) + e) as Hmag.
    { rewrite digits2_pos_iter_xO. lia. }
    destruct (binary_round_aux_rounded s (Pos.iter xO m p) f ltac:(lia))
      as (_ & Hs & Hv & Hr); [rewrite Hmag; fold f; lia|].
    rewrite Hmag in Hr. fold f in Hr.
    split; [apply Hr; lia|]. split; [done|]. rewrite Hv. do 2 f_equal.
    rewrite Zpos_iter_xO. replace (e + K) with (Zpos p + (f + K)) by lia.
    rewrite (Z.pow_add_r 2 (Zpos p) (f + K)) by lia. lia.
Qed.

Lemma regular_nonneg (x : spec_float) :
  regular prec emax x -> has_sign false x -> nonneg prec emax x.
Proof. by destruct x. Qed.

Lemma nonneg_finite (s : bool) (m : positive) (e : Z) :
  nonneg prec emax (S754_finite s m e) ->
  s = false /\
  emin prec emax <= e /\
  fexp prec emax (Zpos (digits2_pos m) + e) = e /\
  Zpos (digits2_pos m) <= prec.
Proof.
  intros [-> Hr]. unfold bounded, canonical_mantissa in Hr.
  apply andb_true_iff in Hr as [Hc%Z.eqb_eq _]. unfold fexp in *. lia.
Qed.

Lemma nonneg_scaled (x : spec_float) :
  nonneg prec emax x -> 0 <= scaled x /\ representable prec emax (scaled x).
Proof.
  intros Hx. destruct x as [s|s| |s m e]; try done.
  destruct Hx as [-> Hr]. cbn [scaled cond_Zopp].
  destruct (representable_scaled m e Hr) as [Hrep He].
  split; [|done]. pose proof (pow2_pos (e + K) ltac:(lia)). lia.
Qed.

(** The magnitude of a value below [2^k]. *)
Lemma magnitude_below (m : positive) (e k : Z) :
  0 <= e + K -> Zpos m * 2 ^ (e + K) < 2 ^ (k + K) ->
  Zpos (digits2_pos m) + e <= k.
Proof.
  intros He Hlt. pose proof (digits2_pos_bounds m) as [Hlo _].
  pose proof (pow2_pos (e + K) He).
  assert (0 <= k + K) as Hk.
  { destruct (Z.le_gt_cases 0 (k + K)) as [|Hneg]; [done|].
    rewrite (Z.pow_neg_r 2 (k + K)) in Hlt by lia. lia. }
  assert (2 ^ (Zpos (digits2_pos m) - 1 + (e + K)) < 2 ^ (k + K)) as Hp.
  { rewrite Z.pow_add_r by lia. nia. }
  apply Z.pow_lt_mono_r_iff in Hp; lia.
Qed.

Lemma SFtrunc_scaled (x : spec_float) :
  nonneg prec emax x -> SFtrunc x = Some (scaled x / 2 ^ K).
Proof.
  intros Hx. assert (0 <= K) as HK by lia.
  destruct x as [s|s| |s m e]; try (destruct Hx; fail).
  - reflexivity.
  - destruct (nonneg_finite s m e Hx) as (-> & He & _).
    cbn [SFtrunc scaled cond_Zopp]. f_equal.
    destruct e as [|p|p].
    + rewrite Z.shiftl_0_r. cbn [Z.add]. rewrite Z.div_mul; [done|].
      pose proof (pow2_pos K HK). lia.
    + rewrite Z.shiftl_mul_pow2 by lia. rewrite Z.pow_add_r by lia.
      rewrite Z.mul_assoc, Z.div_mul; [done|].
      pose proof (pow2_pos K HK). lia.
    + rewrite Z.shiftr_div_pow2 by lia.
      replace K with ((Zneg p + K) + Zpos p) at 2 by lia.
      rewrite (Z.pow_add_r 2 (Zneg p + K) (Zpos p)) by lia.
      rewrite (Z.mul_comm (Zpos m)).
      rewrite Z.div_mul_cancel_l; [done| |].
      * pose proof (pow2_pos (Zpos p) ltac:(lia)). lia.
      * pose proof (pow2_pos (Zneg p + K) ltac:(lia)). lia.
Qed.

(** Comparison of two non-negative numbers of the format. *)
Lemma SFcompare_scaled (x y : spec_float) :
  nonneg prec emax x -> nonneg prec emax y ->
  SFcompare x y = Some (scaled x ?= scaled y).
Proof.
  intros Hx Hy.
  destruct x as [sx|sx| |sx mx ex]; try (destruct Hx; fail);
    destruct y as [sy|sy| |sy my ey]; try (destruct Hy; fail).
  - done.
  - destruct (nonneg_finite sy my ey Hy) as (-> & He & _).
    cbn [SFcompare scaled cond_Zopp]. f_equal. symmetry.
    apply Z.compare_lt_iff. pose proof (pow2_pos (ey + K) ltac:(lia)). lia.
  - destruct (nonneg_finite sx mx ex Hx) as (-> & He & _).
    cbn [SFcompare scaled cond_Zopp]. f_equal. symmetry.
    apply Z.compare_gt_iff. pose proof (pow2_pos (ex + K) ltac:(lia)). lia.
  - destruct (nonneg_finite sx mx ex Hx) as (-> & Hex & Hcx & Hdx).
    destruct (nonneg_finite sy my ey Hy) as (-> & Hey & Hcy & Hdy).
    pose proof (digits2_pos_bounds mx) as [Hlox Hhix].
    pose proof (digits2_pos_bounds my) as [Hloy Hhiy].
    cbn [SFcompare scaled cond_Zopp]. f_equal.
    change (Pos.compare_cont Eq mx my) with (Zpos mx ?= Zpos my).
    destruct (Z.compare_spec ex ey) as [->|Hlt|Hgt].
    + symmetry. pose proof (pow2_pos (ey + K) ltac:(lia)).
      destruct (Z.compare_spec (Zpos mx) (Zpos my)) as [->|Hm|Hm].
      * apply Z.compare_refl.
      * apply Z.compare_lt_iff. nia.
      * apply Z.compare_gt_iff. nia.
    + symmetry. apply Z.compare_lt_iff.
      assert (Zpos (digits2_pos my) = prec) as Hnorm
        by (unfold fexp in Hcy; lia).
      apply Z.lt_le_trans with (2 ^ (prec + (ex + K))).
      * rewrite (Z.pow_add_r 2 prec (ex + K)) by lia.
        pose proof (pow2_pos (ex + K) ltac:(lia)).
        assert (2 ^ Zpos (digits2_pos mx) <= 2 ^ prec)
          by (apply Z.pow_le_mono_r; lia). nia.
      * apply Z.le_trans with (2 ^ (prec - 1 + (ey + K))).
        { apply Z.pow_le_mono_r; lia. }
        rewrite (Z.pow_add_r 2 (prec - 1) (ey + K)) by lia.
        rewrite Hnorm in Hloy.
        pose proof (pow2_pos (ey + K) ltac:(lia)). nia.
    + symmetry. apply Z.compare_gt_iff.
      assert (Zpos (digits2_pos mx) = prec) as Hnorm
        by (unfold fexp in Hcx; lia).
      apply Z.lt_le_trans with (2 ^ (prec + (ey + K))).
      * rewrite (Z.pow_add_r 2 prec (ey + K)) by lia.
        pose proof (pow2_pos (ey + K) ltac:(lia)).
        assert (2 ^ Zpos (digits2_pos my) <= 2 ^ prec)
          by (apply Z.pow_le_mono_r; lia). nia.
      * apply Z.le_trans with (2 ^ (prec - 1 + (ex + K))).
        { apply Z.pow_le_mono_r; lia. }
        rewrite (Z.pow_add_r 2 (prec - 1) (ex + K)) by lia.
        rewrite Hnorm in Hlox.
        pose proof (pow2_pos (ex + K) ltac:(lia)). nia.
Qed.

Lemma SFleb_scaled (x y : spec_float) :
  nonneg prec emax x -> nonneg prec emax y ->
  SFleb x y = true <-> scaled x <= scaled y.
Proof.
  intros Hx Hy. unfold SFleb. rewrite (SFcompare_scaled x y Hx Hy).
  destruct (Z.compare_spec (scaled x) (scaled y)); split; (done || lia).
Qed.

Lemma SFltb_scaled (x y : spec_float) :
  nonneg prec emax x -> nonneg prec emax y ->
  SFltb x y = true <-> scaled x < scaled y.
Proof.
  intros Hx Hy. unfold SFltb. rewrite (SFcompare_scaled x y Hx Hy).
  destruct (Z.compare_spec (scaled x) (scaled y)); split; (done || lia).
Qed.

(** Rounding of a positive value given by mantissa and exponent. *)
Lemma binary_round_nonneg (m : positive) (e k : Z) :
  0 <= e + K -> Zpos m * 2 ^ (e + K) < 2 ^ (k + K) -> k < emax ->
  nonneg prec emax (binary_round prec emax false m e) /\
  scaled (binary_round prec emax false m e)
  = rounded prec emax (Zpos m * 2 ^ (e + K)).
Proof.
  intros He Hlt Hk.
  pose proof (magnitude_below m e k He Hlt) as Hmag.
  destruct (binary_round_rounded false m e)
    as (Hr & Hs & Hv); [lia|unfold fexp, emin in *; lia|].
  cbv zeta in Hr, Hs, Hv. split; [by apply regular_nonneg|]. by rewrite Hv.
Qed.

Lemma digits2_pos_mul_ge (a b : positive) :
  Zpos (digits2_pos a) + Zpos (digits2_pos b) - 1 <= Zpos (digits2_pos (a * b)).
Proof.
  pose proof (digits2_pos_bounds a) as [Ha _].
  pose proof (digits2_pos_bounds b) as [Hb _].
  pose proof (digits2_pos_bounds (a * b)) as [_ Hab].
  rewrite Pos2Z.inj_mul in Hab.
  set (da := Zpos (digits2_pos a)) in *. set (db := Zpos (digits2_pos b)) in *.
  set (d := Zpos (digits2_pos (a * b))) in *.
  assert (2 ^ (da - 1 + (db - 1)) < 2 ^ d) as Hp.
  { rewrite Z.pow_add_r by lia. nia. }
  apply Z.pow_lt_mono_r_iff in Hp; lia.
Qed.

(** Multiplication. *)
Lemma SFmul_scaled (x y : spec_float) (k : Z) :
  nonneg prec emax x -> nonneg prec emax y ->
  scaled x * scaled y < 2 ^ (k + K) * 2 ^ K -> k < emax ->
  nonneg prec emax (SFmul prec emax x y) /\
  scaled (SFmul prec emax x y)
  = rounded prec emax (scaled x * scaled y / 2 ^ K).
Proof.
  intros Hx Hy Hlt Hk.
  assert (0 <= K) as HK by lia. pose proof (pow2_pos K HK) as HpK.
  destruct x as [sx|sx| |sx mx ex]; try (destruct Hx; fail);
    destruct y as [sy|sy| |sy my ey]; try (destruct Hy; fail).
  1-3: cbn [SFmul scaled nonneg];
       rewrite ?Z.mul_0_l, ?Z.mul_0_r, Z.div_0_l by lia;
       by rewrite rounded_0.
  destruct (nonneg_finite sx mx ex Hx) as (-> & Hex & Hcx & Hdx).
  destruct (nonneg_finite sy my ey Hy) as (-> & Hey & Hcy & Hdy).
  cbn [SFmul xorb scaled cond_Zopp] in *.
  assert (Zpos mx * 2 ^ (ex + K) * (Zpos my * 2 ^ (ey + K))
          = Zpos (mx * my) * 2 ^ (ex + ey + K) * 2 ^ K) as Hprod.
  { assert (2 ^ (ex + K) * 2 ^ (ey + K) = 2 ^ (ex + ey + K) * 2 ^ K) as Hpow
      by (rewrite <- !Z.pow_add_r by lia; f_equal; lia).
    rewrite Pos2Z.inj_mul. nia. }
  rewrite Hprod in Hlt |- *. rewrite Z.div_mul by lia.
  assert (Zpos (mx * my) * 2 ^ (ex + ey + K) < 2 ^ (k + K)) as Hlt' by nia.
  pose proof (magnitude_below (mx * my) (ex + ey) k ltac:(lia) Hlt') as Hmag.
  pose proof (digits2_pos_mul_ge mx my) as Hd.
  destruct (binary_round_aux_rounded false (mx * my) (ex + ey))
    as (_ & Hs & Hv & Hr); [lia|unfold fexp, emin in *; lia|].
  cbv zeta in Hs, Hv, Hr. cbn [cond_Zopp] in Hv.
  split; [|done]. apply regular_nonneg; [|done].
  apply Hr. unfold fexp in *. lia.
Qed.

(** The alignment of two mantissas keeps the values. *)
Lemma shl_align_value (m : positive) (e e' : Z) :
  e' <= e -> 0 <= e' + K ->
  Zpos (fst (shl_align m e e')) * 2 ^ (e' + K) = Zpos m * 2 ^ (e + K).
Proof.
  intros Hle He'. unfold shl_align.
  destruct (e' - e) as [|p|p] eqn:Hd; cbn [fst].
  - by replace e' with e by lia.
  - lia.
  - rewrite Zpos_iter_xO. replace (e + K) with (Zpos p + (e' + K)) by lia.
    rewrite (Z.pow_add_r 2 (Zpos p) (e' + K)) by lia. lia.
Qed.

(** Addition. *)
Lemma SFadd_scaled (x y : spec_float) (k : Z) :
  nonneg prec emax x -> nonneg prec emax y ->
  scaled x + scaled y < 2 ^ (k + K) -> k < emax ->
  nonneg prec emax (SFadd prec emax x y) /\
  scaled (SFadd prec emax x y) = rounded prec emax (scaled x + scaled y).
Proof.
  intros Hx Hy Hlt Hk.
  destruct (nonneg_scaled x Hx) as [Hx0 Hxr].
  destruct (nonneg_scaled y Hy) as [Hy0 Hyr].
  destruct x as [sx|sx| |sx mx ex]; try (destruct Hx; fail);
    destruct y as [sy|sy| |sy my ey]; try (destruct Hy; fail).
  - cbn [scaled]. rewrite Z.add_0_l, rounded_0. by destruct sx, sy.
  - cbn [SFadd scaled] in *. rewrite Z.add_0_l.
    by rewrite rounded_representable.
  - cbn [SFadd scaled] in *. rewrite Z.add_0_r.
    by rewrite rounded_representable.
  - destruct (nonneg_finite sx mx ex Hx) as (-> & Hex & _).
    destruct (nonneg_finite sy my ey Hy) as (-> & Hey & _).
    cbn [SFadd scaled cond_Zopp] in *.
    set (ez := Z.min ex ey).
    pose proof (shl_align_value mx ex ez ltac:(lia) ltac:(lia)) as Hax.
    pose proof (shl_align_value my ey ez ltac:(lia) ltac:(lia)) as Hay.
    set (ax := fst (shl_align mx ex ez)) in *.
    set (ay := fst (shl_align my ey ez)) in *.
    change (Zpos ax + Zpos ay) with (Zpos (ax + ay)).
    cbn [binary_normalize].
    replace (Zpos mx * 2 ^ (ex + K) + Zpos my * 2 ^ (ey + K))
      with (Zpos (ax + ay) * 2 ^ (ez + K)) in * by lia.
    apply (binary_round_nonneg (ax + ay) ez k); [lia|done|done].
Qed.

(** Subtraction of a smaller number. *)
Lemma SFsub_scaled (x y : spec_float) (k : Z) :
  nonneg prec emax x -> nonneg prec emax y ->
  scaled y < scaled x < 2 ^ (k + K) -> k < emax ->
  nonneg prec emax (SFsub prec emax x y) /\
  scaled (SFsub prec emax x y) = rounded prec emax (scaled x - scaled y).
Proof.
  intros Hx Hy Hlt Hk.
  destruct (nonneg_scaled x Hx) as [Hx0 Hxr].
  destruct (nonneg_scaled y Hy) as [Hy0 Hyr].
  destruct x as [sx|sx| |sx mx ex]; try (destruct Hx; fail);
    destruct y as [sy|sy| |sy my ey]; try (destruct Hy; fail).
  - cbn [scaled] in Hlt. lia.
  - cbn [scaled] in Hlt, Hy0. lia.
  - cbn [SFsub scaled] in *. rewrite Z.sub_0_r.
    by rewrite rounded_representable.
  - destruct (nonneg_finite sx mx ex Hx) as (-> & Hex & _).
    destruct (nonneg_finite sy my ey Hy) as (-> & Hey & _).
    cbn [SFsub scaled cond_Zopp] in *.
    set (ez := Z.min ex ey).
    pose proof (shl_align_value mx ex ez ltac:(lia) ltac:(lia)) as Hax.
    pose proof (shl_align_value my ey ez ltac:(lia) ltac:(lia)) as Hay.
    set (ax := fst (shl_align mx ex ez)) in *.
    set (ay := fst (shl_align my ey ez)) in *.
    pose proof (pow2_pos (ez + K) ltac:(lia)) as Hp.
    assert (Zpos ay < Zpos ax) as Hm by nia.
    destruct (Zpos ax - Zpos ay) as [|d|d] eqn:Hd; [lia| |lia].
    cbn [binary_normalize].
    replace (Zpos mx * 2 ^ (ex + K) - Zpos my * 2 ^ (ey + K))
      with (Zpos d * 2 ^ (ez + K)) in * by nia.
    apply (binary_round_nonneg d ez k); [lia|lia|done].
Qed.

(** Conversion of an integer. *)
Lemma binary_normalize_scaled (n k : Z) :
  0 <= n < 2 ^ k -> k < emax ->
  nonneg prec emax (binary_normalize prec emax n 0 false) /\
  scaled (binary_normalize prec emax n 0 false)
  = rounded prec emax (n * 2 ^ K).
Proof.
  intros Hn Hk. destruct n as [|p|p]; [|  |lia]; cbn [binary_normalize].
  - by rewrite Z.mul_0_l, rounded_0.
  - apply (binary_round_nonneg p 0 k); [lia| |done]. rewrite Z.add_0_l.
    assert (0 <= k) as Hk0.
    { destruct (Z.le_gt_cases 0 k) as [|Hneg]; [done|].
      rewrite (Z.pow_neg_r 2 k) in Hn by lia. lia. }
    rewrite (Z.pow_add_r 2 k K) by lia. pose proof (pow2_pos K ltac:(lia)).
    nia.
Qed.

End FloatFormat.

(** ** binary32 and binary64 *)

Lemma K_pos : 0 < K.
Proof. reflexivity. Qed.

Lemma representable_multiple `{Format prec emax} (j g : Z) :
  0 <= j -> 0 <= g -> grid prec emax (j * 2 ^ g) <= g ->
  representable prec emax (j * 2 ^ g).
Proof.
  intros Hj Hg Hgrid. unfold representable.
  pose proof (grid_nonneg (prec := prec) (emax := emax) (j * 2 ^ g)) as H0.
  set (n := grid prec emax (j * 2 ^ g)) in *.
  replace g with ((g - n) + n) at 1 by lia.
  rewrite Z.pow_add_r by lia. rewrite Z.mul_assoc. apply Z.mod_mul.
  pose proof (pow2_pos n H0). lia.
Qed.

(** A finer format represents what a coarser one does. *)
Lemma representable_finer (V : Z) :
  0 <= V -> representable F32.prec F32.emax V ->
  representable F64.prec F64.emax V.
Proof.
  unfold representable. intros HV H32.
  assert (grid F64.prec F64.emax V <= grid F32.prec F32.emax V) as Hle.
  { unfold grid, fexp, emin, F32.prec, F32.emax, F64.prec, F64.emax. lia. }
  pose proof (grid_nonneg (prec := F64.prec) (emax := F64.emax) V) as H0.
  set (n64 := grid F64.prec F64.emax V) in *.
  set (n32 := grid F32.prec F32.emax V) in *.
  apply Z.mod_divide in H32 as [q Hq];
    [|pose proof (pow2_pos n32 ltac:(lia)); lia].
  rewrite Hq. replace n32 with ((n32 - n64) + n64) by lia.
  rewrite Z.pow_add_r by lia. rewrite Z.mul_assoc. apply Z.mod_mul.
  pose proof (pow2_pos n64 H0). lia.
Qed.

Lemma scaled_one : scaled F32.one = 2 ^ K.
Proof.
  change F32.one with (S754_finite false 8388608 (-23)).
  cbn [scaled cond_Zopp]. change 8388608 with (2 ^ 23).
  rewrite <- Z.pow_add_r by (unfold K; lia). reflexivity.
Qed.

Lemma nonneg_one : nonneg F32.prec F32.emax F32.one.
Proof. split; reflexivity. Qed.

Lemma nonneg_zero prec emax (s : bool) : nonneg prec emax (S754_zero s).
Proof. exact I. Qed.

(** A ratio in [0,1]. *)
Lemma in_unit_scaled (ratio : spec_float) :
  in_unit ratio -> valid_binary F32.prec F32.emax ratio = true ->
  nonneg F32.prec F32.emax ratio /\ 0 <= scaled ratio <= 2 ^ K.
Proof.
  intros [H0 H1] Hvalid.
  assert (nonneg F32.prec F32.emax ratio) as Hnn.
  { destruct ratio as [s|[]| |[] m e]; done. }
  split; [done|]. destruct (nonneg_scaled ratio Hnn) as [Hpos _].
  split; [done|]. rewrite <- scaled_one.
  by apply (SFleb_scaled ratio F32.one Hnn nonneg_one).
Qed.

(** ** The constant 1/2 *)

Lemma half32 : F32.div (F32.of_Z 1) (F32.of_Z 2) = S754_finite false 8388608 (-24).
Proof. vm_compute. reflexivity. Qed.

Lemma half64 :
  F64.div (F64.of_Z 1) (F64.of_Z 2) = S754_finite false 4503599627370496 (-53).
Proof. vm_compute. reflexivity. Qed.

Lemma scaled_half32 : scaled (S754_finite false 8388608 (-24)) = 2 ^ (K - 1).
Proof.
  cbn [scaled cond_Zopp]. change 8388608 with (2 ^ 23).
  rewrite <- Z.pow_add_r by (unfold K; lia). reflexivity.
Qed.

Lemma scaled_half64 :
  scaled (S754_finite false 4503599627370496 (-53)) = 2 ^ (K - 1).
Proof.
  cbn [scaled cond_Zopp]. change 4503599627370496 with (2 ^ 52).
  rewrite <- Z.pow_add_r by (unfold K; lia). reflexivity.
Qed.

(** Division by 1/2 is exact. *)
Lemma F32_div_half (x : spec_float) :
  nonneg F32.prec F32.emax x -> scaled x <= 2 ^ K ->
  nonneg F32.prec F32.emax (F32.div x (S754_finite false 8388608 (-24))) /\
  scaled (F32.div x (S754_finite false 8388608 (-24))) = 2 * scaled x.
Proof.
  intros Hx Hle. destruct x as [s|s| |s m e]; try done.
  destruct (nonneg_finite s m e Hx) as (-> & He & Hc & Hd).
  unfold F32.div, SFdiv, SFdiv_core_binary. cbn [xorb Zdigits2 digits2_pos].
  change (Zpos (Pos.succ _)) with 24.
  replace (Zpos (digits2_pos m) + e - (24 + -24))
    with (Zpos (digits2_pos m) + e) by lia.
  rewrite Hc. rewrite Z.min_l by lia.
  replace (e - -24 - e) with 24 by lia.
  assert (Z.shiftl (Zpos m) 24 = 8388608 * Zpos m~0 + 0) as Hsh
    by (rewrite Z.shiftl_mul_pow2 by lia; lia).
  pose proof (Z_div_mod (Z.shiftl (Zpos m) 24) 8388608 ltac:(lia)) as Hdm.
  destruct (Z.div_eucl (Z.shiftl (Zpos m) 24) 8388608) as [q r] eqn:Hqr.
  assert (q = Zpos m~0 /\ r = 0) as [-> ->].
  { apply (Z.div_mod_unique 8388608); [lia|lia|].
    destruct Hdm as [<- _]. exact Hsh. }
  change (new_location 8388608 0) with loc_Exact. cbv iota beta.
  assert (0 <= K - 1) as HK by (unfold K; lia).
  pose proof (pow2_pos (e + K) ltac:(unfold emin, K, F32.prec, F32.emax in *; lia))
    as Hp.
  cbn [scaled cond_Zopp] in Hle |- *.
  assert (Zpos (digits2_pos m) + e <= 1) as Hmag.
  { apply magnitude_below;
      [unfold emin, K, F32.prec, F32.emax in *; lia|].
    rewrite (Z.pow_add_r 2 1 K) by (unfold K; lia). change (2 ^ 1) with 2.
    pose proof (pow2_pos K ltac:(unfold K; lia)). lia. }
  destruct (binary_round_aux_rounded (prec := F32.prec) (emax := F32.emax)
              false m~0 e) as (_ & Hs & Hv & Hr);
    [unfold emin, K, F32.prec, F32.emax in *; lia
    |cbn [digits2_pos]; rewrite Pos2Z.inj_succ;
     unfold fexp, emin, F32.prec, F32.emax in *; lia|].
  cbv zeta in Hs, Hv, Hr. cbn [cond_Zopp] in Hv.
  split.
  - apply regular_nonneg; [|done]. apply Hr.
    cbn [digits2_pos]. rewrite Pos2Z.inj_succ.
    unfold fexp, emin, F32.prec, F32.emax in *. lia.
  - rewrite Hv. change (Zpos m~0) with (2 * Zpos m).
    replace (2 * Zpos m * 2 ^ (e + K)) with (Zpos m * 2 ^ (e + 1 + K)).
    2:{ replace (e + 1 + K) with (Z.succ (e + K)) by lia.
        rewrite Z.pow_succ_r by (unfold emin, K, F32.prec, F32.emax in *; lia).
        lia. }
    rewrite rounded_representable; [|apply representable_multiple].
    + replace (e + 1 + K) with (Z.succ (e + K)) by lia.
      rewrite Z.pow_succ_r by (unfold emin, K, F32.prec, F32.emax in *; lia).
      lia.
    + lia.
    + unfold emin, K, F32.prec, F32.emax in *. lia.
    + unfold grid. rewrite magnitude_scaled
        by (unfold emin, K, F32.prec, F32.emax in *; lia).
      unfold fexp, emin, F32.prec, F32.emax in *. lia.
Qed.

Ltac format_lia :=
  unfold fexp, emin, K, F32.prec, F32.emax, F64.prec, F64.emax in *; lia.

Lemma nonneg_half64 :
  nonneg F64.prec F64.emax (S754_finite false 4503599627370496 (-53)).
Proof. split; reflexivity. Qed.

(** A [float] seen as a [double] keeps its value. *)
Lemma F64_of_float_scaled (x : spec_float) :
  nonneg F32.prec F32.emax x ->
  nonneg F64.prec F64.emax (F64.of_float x) /\
  scaled (F64.of_float x) = scaled x.
Proof.
  intros Hx. destruct (nonneg_scaled x Hx) as [Hpos Hrep].
  destruct x as [s|s| |s m e]; try done.
  destruct (nonneg_finite s m e Hx) as (-> & He & Hc & Hd).
  destruct Hx as [_ Hb]. unfold bounded in Hb.
  apply andb_true_iff in Hb as [_ Hmax%Z.leb_le].
  cbn [F64.of_float scaled cond_Zopp] in *.
  destruct (binary_round_nonneg (prec := F64.prec) (emax := F64.emax)
              m e 128) as [Hnn Hv]; [format_lia| |format_lia|].
  - pose proof (digits2_pos_bounds m) as [_ Hlt].
    pose proof (pow2_pos (e + K) ltac:(format_lia)).
    apply Z.lt_le_trans with (2 ^ 24 * 2 ^ (e + K)).
    + assert (2 ^ Zpos (digits2_pos m) <= 2 ^ 24)
        by (apply Z.pow_le_mono_r; format_lia). nia.
    + rewrite <- Z.pow_add_r by format_lia.
      apply Z.pow_le_mono_r; format_lia.
  - split; [done|]. rewrite Hv. apply rounded_representable.
    apply representable_finer; [lia|done].
Qed.

(** [ratio > 0.5] *)
Lemma above_half_scaled (ratio : spec_float) :
  nonneg F32.prec F32.emax ratio ->
  above_half ratio = true <-> 2 ^ (K - 1) < scaled ratio.
Proof.
  intros Hr. unfold above_half. rewrite half64.
  destruct (F64_of_float_scaled ratio Hr) as [Hnn Hv].
  rewrite (SFltb_scaled _ _ nonneg_half64 Hnn).
  by rewrite scaled_half64, Hv.
Qed.

(** [ratio -= 0.5], for a ratio above one half and up to 1: the
    difference is formed in [double] and stored as a [float], without
    any rounding. *)
Lemma ratio_minus_half (ratio : spec_float) :
  nonneg F32.prec F32.emax ratio -> 2 ^ (K - 1) < scaled ratio <= 2 ^ K ->
  let ratio' :=
    F32.of_double (F64.sub (F64.of_float ratio)
                           (F64.div (F64.of_Z 1) (F64.of_Z 2))) in
  nonneg F32.prec F32.emax ratio' /\
  scaled ratio' = scaled ratio - 2 ^ (K - 1).
Proof.
  intros Hr Hrange. rewrite half64.
  destruct (F64_of_float_scaled ratio Hr) as [Hnn Hv].
  destruct (nonneg_scaled ratio Hr) as [_ Hrep].
  assert (0 < 2 ^ (K - 1)) as Hhalf by (apply pow2_pos; unfold K; lia).
  assert (2 ^ K = 2 * 2 ^ (K - 1)) as HK.
  { rewrite <- Z.pow_succ_r by (unfold K; lia). f_equal; lia. }
  set (D := scaled ratio - 2 ^ (K - 1)).
  assert (0 < D <= 2 ^ (K - 1)) as HD by (unfold D; lia).
  (* the difference is on the grids of both formats *)
  assert (representable F32.prec F32.emax D) as HD32.
  { assert (K - 1 <= Z.log2 (scaled ratio)) as Hlog
      by (apply Z.log2_le_pow2; lia).
    assert (Z.log2 D <= K - 1) as HlogD.
    { destruct (Z.eq_dec D (2 ^ (K - 1))) as [->|Hne].
      - rewrite Z.log2_pow2; unfold K; lia.
      - assert (Z.log2 D < K - 1); [|lia]. apply Z.log2_lt_pow2; lia. }
    assert (exists j, 0 <= j /\ D = j * 2 ^ (K - 24)) as (j & Hj & HDj).
    { unfold representable in Hrep.
      apply Z.mod_divide in Hrep as [q Hq];
        [|pose proof (pow2_pos _ (grid_nonneg (prec := F32.prec)
                                    (emax := F32.emax) (scaled ratio))); lia].
      set (g := grid F32.prec F32.emax (scaled ratio)) in *.
      assert (K - 24 <= g) as Hg by (unfold g, grid; format_lia).
      exists (q * 2 ^ (g - (K - 24)) - 2 ^ 23).
      assert (2 ^ g = 2 ^ (g - (K - 24)) * 2 ^ (K - 24)) as Hsplit.
      { rewrite <- Z.pow_add_r by (unfold K in *; lia). f_equal; lia. }
      assert (2 ^ (K - 1) = 2 ^ 23 * 2 ^ (K - 24)) as Hsplit'.
      { rewrite <- Z.pow_add_r by (unfold K; lia). f_equal; lia. }
      pose proof (pow2_pos (K - 24) ltac:(unfold K; lia)).
      split; [|unfold D; nia]. unfold D in HD. nia. }
    rewrite HDj. apply representable_multiple; [done|unfold K; lia|].
    rewrite <- HDj. unfold grid. format_lia. }
  destruct (SFsub_scaled (prec := F64.prec) (emax := F64.emax)
              (F64.of_float ratio) (S754_finite false 4503599627370496 (-53)) 1)
    as [Hnn' Hv']; [done|apply nonneg_half64| |format_lia|].
  { rewrite scaled_half64, Hv. split; [lia|].
    rewrite Z.pow_add_r by (unfold K; lia). change (2 ^ 1) with 2.
    pose proof (pow2_pos K ltac:(unfold K; lia)). lia. }
  rewrite scaled_half64, Hv in Hv'. fold D in Hv'.
  rewrite rounded_representable in Hv' by (apply representable_finer; [lia|done]).
  unfold F64.sub. cbv zeta.
  set (y := SFsub F64.prec F64.emax (F64.of_float ratio) _) in *.
  clearbody y. destruct y as [s|s| |s m e]; try done.
  destruct (nonneg_finite s m e Hnn') as (-> & He & _).
  cbn [F32.of_double scaled cond_Zopp] in *.
  destruct (binary_round_nonneg (prec := F32.prec) (emax := F32.emax) m e 0)
    as [Hnn32 Hv32]; [format_lia| |format_lia|].
  { rewrite Hv'. rewrite Z.add_0_l. lia. }
  split; [done|]. rewrite Hv32, Hv'. by apply rounded_representable.
Qed.

(** ** Integers as [float]s *)

Lemma F32_of_Z_rounded (c : Z) :
  0 <= c < 2 ^ 31 ->
  nonneg F32.prec F32.emax (F32.of_Z c) /\
  scaled (F32.of_Z c) = rounded F32.prec F32.emax (c * 2 ^ K).
Proof.
  intros Hc. apply (binary_normalize_scaled c 31); [done|format_lia].
Qed.

Lemma F32_of_Z_scaled (c : Z) :
  0 <= c < 2 ^ 24 ->
  nonneg F32.prec F32.emax (F32.of_Z c) /\ scaled (F32.of_Z c) = c * 2 ^ K.
Proof.
  intros Hc. destruct (F32_of_Z_rounded c) as [Hnn Hv]; [lia|].
  split; [done|]. rewrite Hv. apply rounded_representable.
  apply representable_Z; [format_lia|done].
Qed.

(** ** The interpolation of [weighted_estimate] *)

(** [min + ((max - min) * percentage)] and its conversion to [Pixel]. *)
Lemma weighted_cast (lo hi : Z) (p : spec_float) :
  0 <= lo <= hi -> hi <= 255 ->
  nonneg F32.prec F32.emax p -> scaled p <= 2 ^ K ->
  float_to_Pixel (F32.add (F32.of_Z lo) (F32.mul (F32.of_Z (hi - lo)) p))
  = Ok (interpolate lo hi (scaled p)) /\
  lo <= interpolate lo hi (scaled p) <= hi.
Proof.
  intros Hlo Hhi Hp Hle. unfold interpolate.
  set (t := rounded F32.prec F32.emax
             (lo * 2 ^ K + rounded F32.prec F32.emax ((hi - lo) * scaled p))
           / 2 ^ K).
  assert (0 <= K) as HK by (unfold K; lia).
  pose proof (pow2_pos K HK) as HpK.
  destruct (nonneg_scaled p Hp) as [Hp0 _].
  destruct (F32_of_Z_scaled lo) as [Hnlo Hvlo]; [lia|].
  destruct (F32_of_Z_scaled (hi - lo)) as [Hnd Hvd]; [lia|].
  destruct (SFmul_scaled (prec := F32.prec) (emax := F32.emax)
              (F32.of_Z (hi - lo)) p 9) as [Hnm Hvm];
    [done|done| |format_lia|].
  { rewrite Hvd. rewrite (Z.pow_add_r 2 9 K) by lia. change (2 ^ 9) with 512.
    assert ((hi - lo) * 2 ^ K * scaled p <= 255 * 2 ^ K * 2 ^ K)
      by (apply Z.mul_le_mono_nonneg; nia).
    nia. }
  rewrite Hvd in Hvm.
  replace ((hi - lo) * 2 ^ K * scaled p) with ((hi - lo) * scaled p * 2 ^ K)
    in Hvm by lia.
  rewrite Z.div_mul in Hvm by lia.
  set (X := rounded F32.prec F32.emax ((hi - lo) * scaled p)) in *.
  assert (0 <= X <= (hi - lo) * 2 ^ K) as HX.
  { split.
    - apply rounded_nonneg. nia.
    - apply rounded_le; [split; [nia|apply Z.mul_le_mono_nonneg_l; lia]|].
      apply representable_Z; [format_lia|unfold F32.prec; lia]. }
  destruct (SFadd_scaled (prec := F32.prec) (emax := F32.emax)
              (F32.of_Z lo) (F32.mul (F32.of_Z (hi - lo)) p) 9) as [Hna Hva];
    [done|done| |format_lia|].
  { unfold F32.mul. rewrite Hvlo, Hvm. rewrite (Z.pow_add_r 2 9 K) by lia.
    change (2 ^ 9) with 512. nia. }
  unfold F32.mul in Hva. rewrite Hvlo, Hvm in Hva.
  set (Y := rounded F32.prec F32.emax (lo * 2 ^ K + X)) in *.
  assert (lo * 2 ^ K <= Y <= hi * 2 ^ K) as HY.
  { split.
    - apply rounded_ge; [nia|]. apply representable_Z; [format_lia|unfold F32.prec; lia].
    - apply rounded_le; [nia|]. apply representable_Z; [format_lia|unfold F32.prec; lia]. }
  assert (lo <= t <= hi) as Ht.
  { unfold t. split.
    - apply Z.div_le_lower_bound; lia.
    - apply Z.div_le_upper_bound; lia. }
  split; [|done].
  unfold float_to_Pixel, float_to, F32.add, F32.mul in *.
  rewrite (SFtrunc_scaled (prec := F32.prec) (emax := F32.emax) _ Hna), Hva.
  fold t. change PIXEL_MAX with 255.
  destruct (Z.leb_spec 0 t); [|lia]. destruct (Z.leb_spec t 255); [|lia].
  done.
Qed.

(** ** The average of [normal_estimate] and [weighted_estimate] *)

Lemma pixel_sum_bounds (buf : buffer) :
  Forall is_Pixel buf ->
  0 <= pixel_sum buf <= PIXEL_MAX * Z.of_nat (length buf).
Proof.
  induction 1 as [|p buf Hp _ IH]; cbn [pixel_sum foldr length].
  - lia.
  - fold (pixel_sum buf). unfold is_Pixel in Hp. lia.
Qed.

Lemma sum_pixels_spec (buf : buffer) (fuel k : nat) (total : Z) :
  Forall is_Pixel buf -> (length buf - k <= fuel)%nat ->
  0 <= total -> total + pixel_sum (drop k buf) <= SIZE_MAX ->
  sum_pixels fuel (Z.of_nat (length buf)) (Z.of_nat k) total buf
  = Ok (total + pixel_sum (drop k buf), buf).
Proof.
  intros Hpix. revert k total.
  induction fuel as [|fuel IH]; intros k total Hfuel Htotal Hmax;
    cbn [sum_pixels];
    destruct (Z.ltb_spec (Z.of_nat k) (Z.of_nat (length buf))) as [Hlt|Hge];
    try lia.
  - rewrite drop_ge by lia. cbn [pixel_sum foldr]. by rewrite Z.add_0_r.
  - destruct (lookup_lt_is_Some_2 buf k ltac:(lia)) as [p Hp].
    rewrite (bind_Ok _ _ _ p buf) by (by apply read_Ok).
    rewrite (drop_S _ _ _ Hp) in Hmax |- *.
    cbn [pixel_sum foldr] in Hmax |- *. fold (pixel_sum (drop (S k) buf)) in *.
    assert (is_Pixel p) as Hpp
      by (eapply Forall_lookup_1; [exact Hpix|exact Hp]).
    pose proof (pixel_sum_bounds (drop (S k) buf)
                  (Forall_drop _ _ _ Hpix)) as [Hrest _].
    unfold is_Pixel in Hpp.
    rewrite to_size_t_small by lia.
    replace (Z.of_nat k + 1) with (Z.of_nat (S k)) by lia.
    rewrite IH by lia. f_equal. f_equal. lia.
  - rewrite drop_ge by lia. cbn [pixel_sum foldr]. by rewrite Z.add_0_r.
Qed.

Lemma mean_is_Pixel (buf : buffer) : Forall is_Pixel buf -> is_Pixel (mean buf).
Proof.
  intros Hpix. pose proof (pixel_sum_bounds buf Hpix) as [H0 H1].
  unfold is_Pixel. destruct buf as [|p buf].
  - change (mean []) with 0. change PIXEL_MAX with 255. lia.
  - unfold mean. split; [apply Z.div_pos; cbn [length]; lia|].
    apply Z.div_le_upper_bound; cbn [length] in *; lia.
Qed.

(** The loop and the division of the two estimators on an image. *)
Lemma average_run (buf : buffer) (width height : Z) {A}
    (k : Z -> Z -> prog buffer A) :
  image_of buf width height -> buf <> [] ->
  (let* size := lift (int_mul width height) in
   let* total := sum_pixels (Z.to_nat size) size 0 0 in
   let* average := lift (average_of total size) in
   k size average) buf
  = k (Z.of_nat (length buf)) (mean buf) buf.
Proof.
  intros Himg Hne. pose proof Himg as (Hlen & Hmax & Hpix).
  destruct (image_of_size _ _ _ Himg) as [Hmul Hsize].
  pose proof (pixel_sum_bounds buf Hpix) as [H0 H1].
  change PIXEL_MAX with 255 in H1.
  rewrite (bind_Ok _ _ _ _ buf (lift_Ok _ _ _ Hmul)).
  rewrite (bind_Ok _ _ _ (pixel_sum buf) buf).
  2:{ rewrite Nat2Z.id, (sum_pixels_spec buf _ 0 0 Hpix); rewrite ?drop_0;
        [done|lia|lia|unfold SIZE_MAX, INT_MAX in *; lia]. }
  apply bind_Ok, lift_Ok. unfold average_of, size_t_div. rewrite Hsize.
  destruct (Z.eqb_spec (Z.of_nat (length buf)) 0) as [Hz|_].
  { destruct buf; [done|cbn [length] in Hz; lia]. }
  f_equal. pose proof (mean_is_Pixel buf Hpix) as Hm.
  unfold is_Pixel in Hm. change PIXEL_MAX with 255 in Hm.
  unfold to_Pixel. change BIT_DEPTH with 8. apply Z.mod_small.
  fold (mean buf). lia.
Qed.

(** ** The interpolation *)

Lemma interpolate_mono (lo hi P1 P2 : Z) :
  0 <= lo <= hi -> 0 <= P1 <= P2 ->
  interpolate lo hi P1 <= interpolate lo hi P2.
Proof.
  intros Hlo HP. unfold interpolate.
  assert (0 <= K) as HK by (unfold K; lia). pose proof (pow2_pos K HK).
  apply Z.div_le_mono; [lia|].
  assert (0 <= rounded F32.prec F32.emax ((hi - lo) * P1)
          <= rounded F32.prec F32.emax ((hi - lo) * P2)) as HX.
  { split; [apply rounded_nonneg; nia|].
    apply rounded_mono. split; [nia|]. apply Z.mul_le_mono_nonneg_l; lia. }
  apply rounded_mono. nia.
Qed.

Lemma interpolate_0 (lo hi : Z) : 0 <= lo < 2 ^ 24 -> interpolate lo hi 0 = lo.
Proof.
  intros Hlo. unfold interpolate.
  assert (0 <= K) as HK by (unfold K; lia). pose proof (pow2_pos K HK).
  rewrite Z.mul_0_r, rounded_0, Z.add_0_r.
  rewrite rounded_representable
    by (apply representable_Z; [format_lia|done]).
  apply Z.div_mul. lia.
Qed.

Lemma interpolate_1 (lo hi : Z) :
  0 <= lo <= hi -> hi < 2 ^ 24 -> interpolate lo hi (2 ^ K) = hi.
Proof.
  intros Hlo Hhi. unfold interpolate.
  assert (0 <= K) as HK by (unfold K; lia). pose proof (pow2_pos K HK).
  rewrite (rounded_representable ((hi - lo) * 2 ^ K))
    by (apply representable_Z; [format_lia|unfold F32.prec; lia]).
  replace (lo * 2 ^ K + (hi - lo) * 2 ^ K) with (hi * 2 ^ K) by lia.
  rewrite rounded_representable
    by (apply representable_Z; [format_lia|unfold F32.prec; lia]).
  apply Z.div_mul. lia.
Qed.

(** ** weighted_estimate *)

Lemma weighted_estimate_run (buf : buffer) (width height : Z)
    (ratio : spec_float) :
  image_of buf width height -> buf <> [] -> in_unit ratio ->
  valid_binary F32.prec F32.emax ratio = true ->
  weighted_estimate width height ratio buf
  = Ok (weighted_value (mean buf) (scaled ratio), buf) /\
  (above_half ratio = true <-> 2 ^ (K - 1) < scaled ratio) /\
  if above_half ratio
  then mean buf <= weighted_value (mean buf) (scaled ratio) <= PIXEL_MAX
  else 0 <= weighted_value (mean buf) (scaled ratio) <= mean buf.
Proof.
  intros Himg Hne Hunit Hvalid. pose proof Himg as (_ & _ & Hpix).
  destruct (in_unit_scaled ratio Hunit Hvalid) as [Hnn [HR0 HR1]].
  pose proof (mean_is_Pixel buf Hpix) as Hm. unfold is_Pixel in Hm.
  change PIXEL_MAX with 255 in *.
  pose proof (above_half_scaled ratio Hnn) as Hhalf.
  assert (0 < 2 ^ (K - 1)) as Hh by (apply pow2_pos; unfold K; lia).
  assert (2 ^ K = 2 * 2 ^ (K - 1)) as HK.
  { rewrite <- Z.pow_succ_r by (unfold K; lia). f_equal; lia. }
  unfold weighted_estimate. rewrite (average_run buf width height _ Himg Hne).
  cbv zeta. rewrite half32. unfold weighted_value.
  change (to_Pixel (Z.shiftl 1 BIT_DEPTH - 1)) with 255.
  destruct (above_half ratio) eqn:Habove.
  - apply proj1 in Hhalf. specialize (Hhalf eq_refl).
    destruct (Z.ltb_spec (2 ^ (K - 1)) (scaled ratio)); [|lia].
    destruct (ratio_minus_half ratio Hnn ltac:(lia)) as [Hnn' Hv'].
    cbv zeta in Hnn', Hv'. rewrite half64 in Hnn', Hv'. rewrite half64.
    destruct (F32_div_half _ Hnn' ltac:(lia)) as [Hnp Hvp].
    destruct (weighted_cast (mean buf) 255 _ ltac:(lia) ltac:(lia) Hnp
                ltac:(lia)) as [Hcast Hrange].
    rewrite Hvp, Hv' in Hcast, Hrange.
    split; [by rewrite (lift_Ok _ _ _ Hcast)|]. split; [done|]. done.
  - assert (scaled ratio <= 2 ^ (K - 1)) as Hle.
    { destruct (Z.le_gt_cases (scaled ratio) (2 ^ (K - 1))) as [|Hgt]; [done|].
      apply Hhalf in Hgt. discriminate. }
    destruct (Z.ltb_spec (2 ^ (K - 1)) (scaled ratio)); [lia|].
    destruct (F32_div_half _ Hnn ltac:(lia)) as [Hnp Hvp].
    destruct (weighted_cast 0 (mean buf) _ ltac:(lia) ltac:(lia) Hnp
                ltac:(lia)) as [Hcast Hrange].
    rewrite Hvp in Hcast, Hrange.
    split; [by rewrite (lift_Ok _ _ _ Hcast)|]. split; [|done].
    split; [done|lia].
Qed.

(** X15: on an image with at least one pixel and for every ratio in
    [0,1], [weighted_estimate] returns and leaves the buffer as it is;
    its threshold lies between 0 and the average of the pixels when
    the ratio is at most one half, and between the average and the
    maximum pixel value when the ratio is above one half.  The final
    conversion to [Pixel] is always in range. *)
Theorem weighted_estimate_between (buf : buffer) (width height : Z)
    (ratio : spec_float) :
  image_of buf width height -> buf <> [] -> in_unit ratio ->
  valid_binary F32.prec F32.emax ratio = true ->
  exists t, weighted_estimate width height ratio buf = Ok (t, buf) /\
    if above_half ratio then mean buf <= t <= PIXEL_MAX
    else 0 <= t <= mean buf.
Proof.
  intros Himg Hne Hunit Hvalid.
  destruct (weighted_estimate_run buf width height ratio Himg Hne Hunit Hvalid)
    as (Hrun & _ & Hrange).
  eauto.
Qed.

(** X16: [weighted_estimate] is monotone in the ratio: on an image
    with at least one pixel, ratios [r1 <= r2] in [0,1] give
    thresholds [t1 <= t2].  The roundings of the product and of the
    sum to [float] and the jump of [min], [max] at one half do not
    break the order. *)
Theorem weighted_estimate_monotone (buf : buffer) (width height : Z)
    (r1 r2 : spec_float) :
  image_of buf width height -> buf <> [] ->
  in_unit r1 -> valid_binary F32.prec F32.emax r1 = true ->
  in_unit r2 -> valid_binary F32.prec F32.emax r2 = true ->
  SFleb r1 r2 = true ->
  exists t1 t2, weighted_estimate width height r1 buf = Ok (t1, buf) /\
                weighted_estimate width height r2 buf = Ok (t2, buf) /\
                t1 <= t2.
Proof.
  intros Himg Hne Hu1 Hv1 Hu2 Hv2 Hle. pose proof Himg as (_ & _ & Hpix).
  destruct (weighted_estimate_run buf width height r1 Himg Hne Hu1 Hv1)
    as (Hrun1 & Hhalf1 & Hrange1).
  destruct (weighted_estimate_run buf width height r2 Himg Hne Hu2 Hv2)
    as (Hrun2 & Hhalf2 & Hrange2).
  destruct (in_unit_scaled r1 Hu1 Hv1) as [Hn1 [H10 H11]].
  destruct (in_unit_scaled r2 Hu2 Hv2) as [Hn2 [H20 H21]].
  apply (SFleb_scaled r1 r2 Hn1 Hn2) in Hle.
  pose proof (mean_is_Pixel buf Hpix) as Hm. unfold is_Pixel in Hm.
  change PIXEL_MAX with 255 in *.
  eexists _, _. split; [exact Hrun1|]. split; [exact Hrun2|].
  destruct (above_half r1) eqn:Ha1, (above_half r2) eqn:Ha2.
  - apply proj1 in Hhalf1, Hhalf2.
    specialize (Hhalf1 eq_refl). specialize (Hhalf2 eq_refl).
    unfold weighted_value. change PIXEL_MAX with 255.
    destruct (Z.ltb_spec (2 ^ (K - 1)) (scaled r1)); [|lia].
    destruct (Z.ltb_spec (2 ^ (K - 1)) (scaled r2)); [|lia].
    apply interpolate_mono; lia.
  - apply proj1 in Hhalf1. specialize (Hhalf1 eq_refl).
    assert (2 ^ (K - 1) < scaled r2) as Hgt by lia.
    apply Hhalf2 in Hgt. discriminate.
  - lia.
  - unfold weighted_value.
    destruct (Z.ltb_spec (2 ^ (K - 1)) (scaled r1)) as [Hgt|_];
      [apply Hhalf1 in Hgt; discriminate|].
    destruct (Z.ltb_spec (2 ^ (K - 1)) (scaled r2)) as [Hgt|_];
      [apply Hhalf2 in Hgt; discriminate|].
    apply interpolate_mono; lia.
Qed.

Lemma in_unit_half : in_unit (F32.div (F32.of_Z 1) (F32.of_Z 2)).
Proof. split; reflexivity. Qed.

(** X17: the three anchors of [weighted_estimate] on an image with at
    least one pixel: the ratio 0 gives the threshold 0, the ratio 1/2
    gives the average of the pixels, and the ratio 1 gives the maximum
    pixel value. *)
Theorem weighted_estimate_anchors (buf : buffer) (width height : Z) :
  image_of buf width height -> buf <> [] ->
  weighted_estimate width height F32.zero buf = Ok (0, buf) /\
  weighted_estimate width height (F32.div (F32.of_Z 1) (F32.of_Z 2)) buf
  = Ok (mean buf, buf) /\
  weighted_estimate width height F32.one buf = Ok (PIXEL_MAX, buf).
Proof.
  intros Himg Hne. pose proof Himg as (_ & _ & Hpix).
  pose proof (mean_is_Pixel buf Hpix) as Hm. unfold is_Pixel in Hm.
  change PIXEL_MAX with 255 in *.
  assert (0 < 2 ^ (K - 1)) as Hh by (apply pow2_pos; unfold K; lia).
  assert (2 ^ K = 2 * 2 ^ (K - 1)) as HK.
  { rewrite <- Z.pow_succ_r by (unfold K; lia). f_equal; lia. }
  split; [|split].
  - destruct (weighted_estimate_run buf width height F32.zero Himg Hne)
      as (-> & _); [split; reflexivity|reflexivity|].
    do 2 f_equal. change (scaled F32.zero) with 0. unfold weighted_value.
    destruct (Z.ltb_spec (2 ^ (K - 1)) 0); [lia|].
    apply interpolate_0. lia.
  - destruct (weighted_estimate_run buf width height _ Himg Hne in_unit_half)
      as (-> & _); [reflexivity|].
    do 2 f_equal. rewrite half32, scaled_half32. unfold weighted_value.
    destruct (Z.ltb_spec (2 ^ (K - 1)) (2 ^ (K - 1))); [lia|].
    rewrite <- HK. apply interpolate_1; lia.
  - destruct (weighted_estimate_run buf width height F32.one Himg Hne)
      as (-> & _); [split; reflexivity|reflexivity|].
    do 2 f_equal. rewrite scaled_one. unfold weighted_value.
    destruct (Z.ltb_spec (2 ^ (K - 1)) (2 ^ K)); [|lia].
    replace (2 * (2 ^ K - 2 ^ (K - 1))) with (2 ^ K) by lia.
    change PIXEL_MAX with 255. apply interpolate_1; lia.
Qed.

(** ** The cutoff [image_size * ratio] *)

Lemma F32_of_Z_int (size : Z) :
  0 <= size <= INT_MAX ->
  nonneg F32.prec F32.emax (F32.of_Z size) /\
  scaled (F32.of_Z size) = rounded F32.prec F32.emax (size * 2 ^ K) /\
  0 <= scaled (F32.of_Z size) <= 2 ^ (31 + K).
Proof.
  intros Hsize. unfold INT_MAX in Hsize.
  assert (0 <= K) as HK by (unfold K; lia). pose proof (pow2_pos K HK).
  destruct (F32_of_Z_rounded size) as [Hnn Hv]; [lia|].
  split; [done|]. split; [done|]. rewrite Hv. split.
  - apply rounded_nonneg. lia.
  - apply rounded_le.
    + rewrite (Z.pow_add_r 2 31 K) by lia. nia.
    + rewrite <- (Z.mul_1_l (2 ^ (31 + K))).
      apply representable_multiple; [lia|lia|].
      rewrite Z.mul_1_l. unfold grid. rewrite Z.log2_pow2 by lia. format_lia.
Qed.

Lemma cutoff_of_scaled (size : Z) (ratio : spec_float) :
  0 <= size <= INT_MAX ->
  in_unit ratio -> valid_binary F32.prec F32.emax ratio = true ->
  let V := rounded F32.prec F32.emax
             (scaled (F32.of_Z size) * scaled ratio / 2 ^ K) in
  cutoff_of size ratio = Ok (V / 2 ^ K) /\
  0 <= V <= scaled (F32.of_Z size).
Proof.
  intros Hsize Hunit Hvalid V.
  assert (0 <= K) as HK by (unfold K; lia). pose proof (pow2_pos K HK) as HpK.
  destruct (in_unit_scaled ratio Hunit Hvalid) as [Hnn [HR0 HR1]].
  destruct (F32_of_Z_int size Hsize) as (HnS & _ & HS0 & HS1).
  destruct (nonneg_scaled _ HnS) as [_ HSrep].
  set (S := scaled (F32.of_Z size)) in *.
  assert (S * scaled ratio <= S * 2 ^ K) as Hprod
    by (apply Z.mul_le_mono_nonneg_l; lia).
  destruct (SFmul_scaled (prec := F32.prec) (emax := F32.emax)
              (F32.of_Z size) ratio 32) as [Hnm Hvm];
    [done|done| |format_lia|].
  { fold S. rewrite (Z.pow_add_r 2 32 K) by lia.
    rewrite (Z.pow_add_r 2 31 K) in HS1 by lia.
    change (2 ^ 31) with 2147483648 in HS1.
    change (2 ^ 32) with 4294967296. nia. }
  fold S in Hvm. fold V in Hvm.
  assert (0 <= S * scaled ratio / 2 ^ K <= S) as Hq.
  { split; [apply Z.div_pos; nia|].
    apply Z.div_le_upper_bound; lia. }
  assert (0 <= V <= S) as HV.
  { split; [apply rounded_nonneg; lia|]. by apply rounded_le. }
  split; [|done].
  unfold cutoff_of, float_to_size_t, float_to, F32.mul.
  rewrite (SFtrunc_scaled (prec := F32.prec) (emax := F32.emax) _ Hnm), Hvm.
  assert (0 <= V / 2 ^ K <= 2 ^ 31) as Hc.
  { split; [apply Z.div_pos; lia|].
    apply Z.div_le_upper_bound; [lia|].
    rewrite (Z.pow_add_r 2 31 K) in HS1 by lia. lia. }
  destruct (Z.leb_spec 0 (V / 2 ^ K)); [|lia].
  destruct (Z.leb_spec (V / 2 ^ K) SIZE_MAX); [done|].
  unfold SIZE_MAX in *. lia.
Qed.

(** X18: the cutoff [image_size * ratio] (the size converted to
    [float], the product rounded to [float] and truncated) is defined
    for every size that fits an [int] and every ratio in [0,1], and it
    is monotone in both: [size1 <= size2] and [r1 <= r2] give cutoffs
    [0 <= c1 <= c2]. *)
Theorem cutoff_of_monotone (size1 size2 : Z) (r1 r2 : spec_float) :
  0 <= size1 <= size2 -> size2 <= INT_MAX ->
  in_unit r1 -> valid_binary F32.prec F32.emax r1 = true ->
  in_unit r2 -> valid_binary F32.prec F32.emax r2 = true ->
  SFleb r1 r2 = true ->
  exists c1 c2, cutoff_of size1 r1 = Ok c1 /\ cutoff_of size2 r2 = Ok c2 /\
                0 <= c1 <= c2.
Proof.
  intros Hs1 Hs2 Hu1 Hv1 Hu2 Hv2 Hle.
  assert (0 <= K) as HK by (unfold K; lia). pose proof (pow2_pos K HK) as HpK.
  destruct (cutoff_of_scaled size1 r1 ltac:(lia) Hu1 Hv1) as [Hc1 HV1].
  destruct (cutoff_of_scaled size2 r2 ltac:(lia) Hu2 Hv2) as [Hc2 HV2].
  cbv zeta in *.
  destruct (in_unit_scaled r1 Hu1 Hv1) as [Hn1 [H10 H11]].
  destruct (in_unit_scaled r2 Hu2 Hv2) as [Hn2 [H20 H21]].
  apply (SFleb_scaled r1 r2 Hn1 Hn2) in Hle.
  destruct (F32_of_Z_int size1 ltac:(lia)) as (_ & HS1 & HS10 & _).
  destruct (F32_of_Z_int size2 ltac:(lia)) as (_ & HS2 & HS20 & _).
  assert (scaled (F32.of_Z size1) <= scaled (F32.of_Z size2)) as HS.
  { rewrite HS1, HS2. apply rounded_mono. nia. }
  eexists _, _. split; [exact Hc1|]. split; [exact Hc2|].
  split; [apply Z.div_pos; lia|].
  apply Z.div_le_mono; [lia|]. apply rounded_mono.
  split; [apply Z.div_pos; nia|].
  apply Z.div_le_mono; [lia|]. apply Z.mul_le_mono_nonneg; lia.
Qed.

(** Integers up to [2^24] are [float]s. *)
Lemma representable_small (c : Z) :
  0 <= c <= 2 ^ 24 -> representable F32.prec F32.emax (c * 2 ^ K).
Proof.
  intros Hc. assert (0 <= K) as HK by (unfold K; lia).
  destruct (Z.eq_dec c (2 ^ 24)) as [->|Hne].
  - rewrite <- Z.pow_add_r by lia.
    rewrite <- (Z.mul_1_l (2 ^ (24 + K))).
    apply representable_multiple; [lia|lia|].
    rewrite Z.mul_1_l. unfold grid. rewrite Z.log2_pow2 by lia. format_lia.
  - apply representable_Z; [format_lia|unfold F32.prec; lia].
Qed.

(** Rounding does not cross an integer up to [2^24]. *)
Lemma rounded_between (x lo hi : Z) :
  0 <= lo -> hi <= 2 ^ 24 -> lo * 2 ^ K <= x <= hi * 2 ^ K ->
  lo <= rounded F32.prec F32.emax x / 2 ^ K <= hi.
Proof.
  intros Hlo Hhi Hx.
  assert (0 <= K) as HK by (unfold K; lia). pose proof (pow2_pos K HK) as HpK.
  assert (lo <= hi) by nia.
  split.
  - apply Z.div_le_lower_bound; [lia|]. rewrite Z.mul_comm.
    apply rounded_ge; [nia|]. apply representable_small. lia.
  - apply Z.div_le_upper_bound; [lia|]. rewrite Z.mul_comm.
    apply rounded_le; [nia|]. apply representable_small. lia.
Qed.

(** The cutoff of an image of at most [2^24] pixels: the size is a
    [float], and the product is rounded once. *)
Lemma cutoff_of_small (size : Z) (ratio : spec_float) :
  0 <= size <= 2 ^ 24 ->
  in_unit ratio -> valid_binary F32.prec F32.emax ratio = true ->
  cutoff_of size ratio
  = Ok (rounded F32.prec F32.emax (size * scaled ratio) / 2 ^ K) /\
  0 <= size * scaled ratio <= size * 2 ^ K.
Proof.
  intros Hsize Hunit Hvalid.
  assert (0 <= K) as HK by (unfold K; lia). pose proof (pow2_pos K HK) as HpK.
  destruct (cutoff_of_scaled size ratio ltac:(unfold INT_MAX; lia) Hunit Hvalid)
    as [Hc _].
  cbv zeta in Hc.
  destruct (in_unit_scaled ratio Hunit Hvalid) as [Hnn [HR0 HR1]].
  assert (scaled (F32.of_Z size) = size * 2 ^ K) as HS.
  { destruct (Z.eq_dec size (2 ^ 24)) as [->|Hne].
    - vm_compute. reflexivity.
    - apply F32_of_Z_scaled. lia. }
  rewrite HS in Hc.
  replace (size * 2 ^ K * scaled ratio) with (size * scaled ratio * 2 ^ K)
    in Hc by lia.
  rewrite Z.div_mul in Hc by lia.
  split; [done|]. split; [nia|]. apply Z.mul_le_mono_nonneg_l; lia.
Qed.

Lemma cutoff_of_index_of (size : Z) (ratio : spec_float) (n : Z) :
  cutoff_of size ratio = Ok n -> n <= INT_MAX -> index_of size ratio = Ok n.
Proof.
  unfold index_of, cutoff_of, float_to_int, float_to_size_t, float_to.
  destruct (SFtrunc _) as [t|]; [|discriminate].
  destruct (Z.leb_spec 0 t); [|discriminate].
  destruct (Z.leb_spec t SIZE_MAX); [|discriminate].
  intros [= ->] Hn.
  destruct (Z.leb_spec INT_MIN n); [|unfold INT_MIN in *; lia].
  destruct (Z.leb_spec n INT_MAX); [done|lia].
Qed.

(** X19: for a size of at most 2^24 and a ratio in [0,1], the cutoff
    is the integer part of the exact product [size * ratio] or one
    more (the product is rounded to a [float] before it is truncated),
    and it is never more than the size.  [scaled ratio] is the value
    of the ratio in units of [2^-K]. *)
Theorem cutoff_of_near_product (size : Z) (ratio : spec_float) :
  0 <= size <= 2 ^ 24 ->
  in_unit ratio -> valid_binary F32.prec F32.emax ratio = true ->
  exists cutoff, cutoff_of size ratio = Ok cutoff /\
    size * scaled ratio / 2 ^ K <= cutoff <= size * scaled ratio / 2 ^ K + 1 /\
    cutoff <= size.
Proof.
  intros Hsize Hunit Hvalid.
  assert (0 <= K) as HK by (unfold K; lia). pose proof (pow2_pos K HK) as HpK.
  destruct (cutoff_of_small size ratio Hsize Hunit Hvalid) as [Hc Hx].
  set (x := size * scaled ratio) in *.
  pose proof (Z.mul_div_le x (2 ^ K) ltac:(lia)) as Hlo.
  pose proof (Z.mul_succ_div_gt x (2 ^ K) ltac:(lia)) as Hhi.
  assert (0 <= x / 2 ^ K <= size) as Hq.
  { split; [apply Z.div_pos; lia|]. apply Z.div_le_upper_bound; lia. }
  eexists. split; [exact Hc|].
  pose proof (rounded_between x (x / 2 ^ K) (Z.min (x / 2 ^ K + 1) size)
                ltac:(lia) ltac:(lia)) as Hb.
  destruct Hb as [Hb1 Hb2]; [|lia].
  split; [lia|].
  destruct (Z.min_spec (x / 2 ^ K + 1) size) as [[_ ->]|[_ ->]]; lia.
Qed.

(** C5: [std_sort] reads the sorted buffer at the index the code
    computes, [int n = (width * height) * ratio]: the single-precision
    product, truncated.  Whenever that index is below the number [N]
    of pixels, [std_sort] leaves the buffer sorted in ascending order,
    a permutation of what it was, and returns the element at index [n]
    of the sorted buffer, the [(n+1)]-th smallest pixel: at most [n]
    pixels are below it and at least [n + 1] are not above it.  On an
    image of at most 2^24 pixels and for a ratio in [0,1] the index is
    defined, it is the integer part of the exact product [N * ratio]
    or one more, and it is at most [N].  [scaled ratio] is the value
    of the ratio in units of [2^-K]. *)
Theorem std_sort_returns_order_statistic
    (buf : buffer) (width height : Z) (ratio : spec_float) :
  image_of buf width height -> in_unit ratio ->
  valid_binary F32.prec F32.emax ratio = true ->
  (forall n, index_of (width * height) ratio = Ok n -> n < width * height ->
     exists v sorted,
       std_sort width height ratio buf = Ok (v, sorted) /\
       Sorted Z.le sorted /\ sorted ≡ₚ buf /\
       0 <= n /\ sorted !! Z.to_nat n = Some v /\
       Z.of_nat (length (filter (fun x => x < v) buf)) <= n
       < Z.of_nat (length (filter (fun x => x <= v) buf))) /\
  (width * height <= 2 ^ 24 ->
   exists n, index_of (width * height) ratio = Ok n /\
     width * height * scaled ratio / 2 ^ K <= n
       <= width * height * scaled ratio / 2 ^ K + 1 /\
     n <= width * height).
Proof.
  intros Himg Hunit Hvalid. pose proof Himg as (Hlen & Hmax & _). split.
  - intros n Hn Hlt. rewrite <- Hlen in Hn, Hlt.
    assert (0 <= n) as Hpos.
    { apply (index_of_nonneg (Z.of_nat (length buf)) ratio);
        [lia|apply Hunit|done]. }
    destruct (read_sorted_in_bounds buf n ltac:(lia)) as (v & Hv & Hread).
    exists v, (merge_sort Z.le buf).
    rewrite (std_sort_read _ _ _ _ _ Himg Hn).
    split; [done|]. split; [apply Sorted_merge_sort; apply _|].
    split; [apply merge_sort_Permutation|]. split; [done|]. split; [done|].
    pose proof (sorted_rank _ _ _ (merge_sort_sorted buf) Hv) as Hrank.
    rewrite !(merge_sort_Permutation Z.le buf) in Hrank. lia.
  - intros Hsmall.
    assert (0 <= K) as HK by (unfold K; lia).
    pose proof (pow2_pos K HK) as HpK.
    set (N := width * height) in *.
    destruct (cutoff_of_small N ratio ltac:(lia) Hunit Hvalid) as [Hc Hx].
    set (x := N * scaled ratio) in *.
    pose proof (Z.mul_div_le x (2 ^ K) ltac:(lia)) as Hlo.
    pose proof (Z.mul_succ_div_gt x (2 ^ K) ltac:(lia)) as Hhi.
    assert (0 <= x / 2 ^ K <= N) as Hq.
    { split; [apply Z.div_pos; lia|]. apply Z.div_le_upper_bound; lia. }
    destruct (rounded_between x (x / 2 ^ K) (Z.min (x / 2 ^ K + 1) N))
      as [Hb1 Hb2]; [lia|lia| |].
    { split; [lia|].
      destruct (Z.min_spec (x / 2 ^ K + 1) N) as [[_ ->]|[_ ->]]; lia. }
    eexists. split; [|split; [split; [exact Hb1|]|]]; [|lia..].
    apply cutoff_of_index_of; [exact Hc|]. unfold INT_MAX. lia.
Qed.

Section SortsBelowOne.
Context {nth : NthElement}.

(** X20: a condition on the ratio under which [std_sort] and
    [nth_element_sort] read within the buffer: on an image of at most
    2^24 pixels with [N * ratio <= N - 1], for [N] the number of
    pixels, the index [n] is the integer part of [N * ratio] or one
    more, it is below [N], and both functions return the element at
    index [n] of the sorted image. *)
Theorem sorts_return_below_one (buf : buffer) (width height : Z)
    (ratio : spec_float) :
  image_of buf width height -> width * height <= 2 ^ 24 ->
  in_unit ratio -> valid_binary F32.prec F32.emax ratio = true ->
  width * height * scaled ratio <= (width * height - 1) * 2 ^ K ->
  exists n v b,
    width * height * scaled ratio / 2 ^ K <= n
      <= width * height * scaled ratio / 2 ^ K + 1 /\
    n < width * height /\
    merge_sort Z.le buf !! Z.to_nat n = Some v /\
    std_sort width height ratio buf = Ok (v, merge_sort Z.le buf) /\
    nth_element_sort width height ratio buf = Ok (v, b).
Proof.
  intros Himg Hsmall Hunit Hvalid Hbelow.
  pose proof Himg as (Hlen & _ & _).
  assert (0 <= K) as HK by (unfold K; lia). pose proof (pow2_pos K HK) as HpK.
  set (N := width * height) in *.
  assert (0 <= N) as HN by lia.
  destruct (cutoff_of_small N ratio ltac:(lia) Hunit Hvalid) as [Hc Hx].
  set (x := N * scaled ratio) in *.
  pose proof (Z.mul_div_le x (2 ^ K) ltac:(lia)) as Hlo.
  pose proof (Z.mul_succ_div_gt x (2 ^ K) ltac:(lia)) as Hhi.
  assert (0 <= x / 2 ^ K <= N - 1) as Hq.
  { split; [apply Z.div_pos; lia|]. apply Z.div_le_upper_bound; lia. }
  pose proof (rounded_between x (x / 2 ^ K) (Z.min (x / 2 ^ K + 1) (N - 1))
                ltac:(lia) ltac:(lia)) as Hb.
  destruct Hb as [Hb1 Hb2].
  { split; [lia|].
    destruct (Z.min_spec (x / 2 ^ K + 1) (N - 1)) as [[_ ->]|[_ ->]]; lia. }
  set (n := rounded F32.prec F32.emax x / 2 ^ K) in *.
  assert (index_of N ratio = Ok n) as Hn.
  { apply cutoff_of_index_of; [done|]. unfold INT_MAX. lia. }
  destruct (sorts_agree_in_bounds buf width height ratio n Himg Hn)
    as (v & b & Hv & Hs & Hnth); [lia|].
  exists n, v, b. repeat split; try done; lia.
Qed.
End SortsBelowOne.

(** ** The deviation of [normal_estimate] *)

Lemma F64_of_Z_scaled (c : Z) :
  0 <= c < 2 ^ 53 ->
  nonneg F64.prec F64.emax (F64.of_Z c) /\ scaled (F64.of_Z c) = c * 2 ^ K.
Proof.
  intros Hc.
  destruct (binary_normalize_scaled (prec := F64.prec) (emax := F64.emax) c 53)
    as [Hnn Hv]; [done|format_lia|].
  split; [done|]. unfold F64.of_Z. rewrite Hv. apply rounded_representable.
  apply representable_Z; [format_lia|done].
Qed.

(** [sigma_total += ...]: the sum is formed in [double] and converted
    back; below [2^53] nothing is lost. *)
Lemma sigma_total_step (sigma d : Z) :
  0 <= sigma -> 0 <= d -> sigma + d < 2 ^ 53 ->
  float_to_size_t (F64.add (F64.of_Z sigma) (F64.of_Z d)) = Ok (sigma + d).
Proof.
  intros Hs Hd Hlt.
  assert (0 <= K) as HK by (unfold K; lia). pose proof (pow2_pos K HK) as HpK.
  destruct (F64_of_Z_scaled sigma) as [Hn1 Hv1]; [lia|].
  destruct (F64_of_Z_scaled d) as [Hn2 Hv2]; [lia|].
  destruct (SFadd_scaled (prec := F64.prec) (emax := F64.emax)
              (F64.of_Z sigma) (F64.of_Z d) 53) as [Hna Hva];
    [done|done| |format_lia|].
  { rewrite Hv1, Hv2, (Z.pow_add_r 2 53 K) by lia. nia. }
  rewrite Hv1, Hv2, <- Z.mul_add_distr_r in Hva.
  rewrite rounded_representable in Hva
    by (apply representable_Z; [format_lia|unfold F64.prec; lia]).
  unfold float_to_size_t, float_to, F64.add.
  rewrite (SFtrunc_scaled (prec := F64.prec) (emax := F64.emax) _ Hna), Hva.
  rewrite Z.div_mul by lia.
  destruct (Z.leb_spec 0 (sigma + d)); [|lia].
  destruct (Z.leb_spec (sigma + d) SIZE_MAX); [done|unfold SIZE_MAX in *; lia].
Qed.

Lemma square_sum_cons (average p : Z) (buf : buffer) :
  square_sum average (p :: buf)
  = (p - average) * (p - average) + square_sum average buf.
Proof. reflexivity. Qed.

Lemma square_sum_bounds (average : Z) (buf : buffer) :
  Forall is_Pixel buf -> is_Pixel average ->
  0 <= square_sum average buf <= 65025 * Z.of_nat (length buf).
Proof.
  intros Hpix Ha. unfold is_Pixel in Ha. change PIXEL_MAX with 255 in Ha.
  induction Hpix as [|p buf Hp _ IH].
  - cbn. lia.
  - rewrite square_sum_cons. cbn [length]. unfold is_Pixel in Hp.
    change PIXEL_MAX with 255 in Hp.
    assert (- 255 <= p - average <= 255) as Hd by lia.
    set (d := p - average) in *.
    assert (0 <= d * d <= 65025) by nia. lia.
Qed.

Lemma sum_squares_spec `{Libm} (buf : buffer) (average : Z) (fuel k : nat)
    (sigma : Z) :
  Forall is_Pixel buf -> is_Pixel average -> (length buf - k <= fuel)%nat ->
  0 <= sigma -> sigma + square_sum average (drop k buf) < 2 ^ 53 ->
  sum_squares fuel (Z.of_nat (length buf)) average (Z.of_nat k) sigma buf
  = Ok (sigma + square_sum average (drop k buf), buf).
Proof.
  intros Hpix Ha. revert k sigma.
  induction fuel as [|fuel IH]; intros k sigma Hfuel Hsigma Hmax;
    cbn [sum_squares];
    destruct (Z.ltb_spec (Z.of_nat k) (Z.of_nat (length buf))) as [Hlt|Hge];
    try lia.
  - rewrite drop_ge by lia. cbn [square_sum foldr]. by rewrite Z.add_0_r.
  - destruct (lookup_lt_is_Some_2 buf k ltac:(lia)) as [p Hp].
    rewrite (bind_Ok _ _ _ p buf) by (by apply read_Ok).
    rewrite (drop_S _ _ _ Hp) in Hmax |- *.
    rewrite square_sum_cons in Hmax |- *.
    assert (is_Pixel p) as Hpp
      by (eapply Forall_lookup_1; [exact Hpix|exact Hp]).
    pose proof (square_sum_bounds average (drop (S k) buf)
                  (Forall_drop _ _ _ Hpix) Ha) as [Hrest _].
    unfold is_Pixel in Hpp, Ha.
    assert (0 <= (p - average) * (p - average)) as Hsq
      by apply Z.square_nonneg.
    rewrite pow_square by lia.
    rewrite (bind_Ok _ _ _ (sigma + (p - average) * (p - average)) buf).
    2:{ apply lift_Ok, sigma_total_step; lia. }
    replace (Z.of_nat k + 1) with (Z.of_nat (S k)) by lia.
    rewrite IH by lia. f_equal. f_equal. lia.
  - rewrite drop_ge by lia. cbn [square_sum foldr]. by rewrite Z.add_0_r.
Qed.

(** ** Quotients and square roots that stay finite *)

Lemma SFdiv_core_magnitude (m1 m2 : positive) (e1 e2 : Z) :
  let D := Zpos (digits2_pos m1) + e1 - (Zpos (digits2_pos m2) + e2) in
  - 125 <= D ->
  exists q e' l,
    SFdiv_core_binary F32.prec F32.emax (Zpos m1) e1 (Zpos m2) e2
    = (Zpos q, e', l) /\
    e' <= D - 24 /\ Zpos (digits2_pos q) + e' <= D + 1.
Proof.
  intros D HD. unfold SFdiv_core_binary. cbn [Zdigits2]. fold D.
  pose proof (digits2_pos_bounds m1) as [Hlo1 Hhi1].
  pose proof (digits2_pos_bounds m2) as [Hlo2 Hhi2].
  set (d1 := Zpos (digits2_pos m1)) in *. set (d2 := Zpos (digits2_pos m2)) in *.
  set (e' := Z.min (fexp F32.prec F32.emax D) (e1 - e2)).
  assert (e' <= D - 24 /\ e' <= e1 - e2) as [He' Hs].
  { unfold e', fexp, emin, F32.prec, F32.emax. lia. }
  set (s := e1 - e2 - e').
  assert (0 <= s /\ d2 - d1 + 24 <= s) as [Hs0 Hs1] by (unfold s, D in *; lia).
  set (m' := match s with Zpos _ => Z.shiftl (Zpos m1) s | 0 => Zpos m1
                        | Zneg _ => 0 end).
  assert (m' = Zpos m1 * 2 ^ s) as Hm'.
  { unfold m'. destruct s as [|p|p]; [lia| |lia].
    by rewrite Z.shiftl_mul_pow2. }
  clearbody m'.
  pose proof (Z_div_mod m' (Zpos m2) ltac:(lia)) as Hdm.
  destruct (Z.div_eucl m' (Zpos m2)) as [q r]. destruct Hdm as [Hq Hr].
  pose proof (pow2_pos s Hs0) as Hps.
  assert (2 ^ (d1 - 1 + s) <= m' < 2 ^ (d1 + s)) as [Hmlo Hmhi].
  { rewrite !Z.pow_add_r by lia. nia. }
  assert (2 ^ d2 <= 2 ^ (d1 - 1 + s)) by (apply Z.pow_le_mono_r; lia).
  assert (1 <= q) as Hq1 by nia.
  destruct q as [|q|q]; [lia| |lia].
  exists q, e', (new_location (Zpos m2) r). split; [done|]. split; [done|].
  pose proof (digits2_pos_bounds q) as [Hloq _].
  set (dq := Zpos (digits2_pos q)) in *.
  assert (2 ^ (dq - 1 + (d2 - 1)) < 2 ^ (d1 + s)) as Hp.
  { rewrite (Z.pow_add_r 2 (dq - 1) (d2 - 1)) by lia. nia. }
  apply Z.pow_lt_mono_r_iff in Hp; [|lia|lia]. unfold s, D in *. lia.
Qed.

Lemma SFsqrt_core_magnitude (m : positive) (e : Z) :
  exists q e' l,
    SFsqrt_core_binary F32.prec F32.emax (Zpos m) e = (Zpos q, e', l) /\
    2 * e' <= e /\
    2 * (Zpos (digits2_pos q) + e') <= Zpos (digits2_pos m) + e + 1.
Proof.
  unfold SFsqrt_core_binary. cbn [Zdigits2].
  pose proof (digits2_pos_bounds m) as [Hlo Hhi].
  set (d := Zpos (digits2_pos m)) in *.
  set (e' := Z.min (fexp F32.prec F32.emax (Z.div2 (d + e + 1))) (Z.div2 e)).
  assert (2 * e' <= e) as He'.
  { assert (e' <= Z.div2 e) by (unfold e'; lia).
    rewrite Z.div2_div in *. pose proof (Z.mul_div_le e 2 ltac:(lia)). lia. }
  set (s := e - 2 * e').
  assert (0 <= s) as Hs0 by (unfold s; lia).
  set (m' := match s with Zpos _ => Z.shiftl (Zpos m) s | 0 => Zpos m
                        | Zneg _ => 0 end).
  assert (m' = Zpos m * 2 ^ s) as Hm'.
  { unfold m'. destruct s as [|p|p]; [lia| |lia].
    by rewrite Z.shiftl_mul_pow2. }
  clearbody m'.
  pose proof (pow2_pos s Hs0) as Hps.
  assert (1 <= m' < 2 ^ (d + s)) as [Hmlo Hmhi].
  { rewrite Z.pow_add_r by lia. nia. }
  pose proof (Z.sqrtrem_spec m' ltac:(lia)) as Hsq.
  destruct (Z.sqrtrem m') as [q r]. destruct Hsq as [Hq Hr].
  assert (1 <= q) as Hq1 by nia.
  destruct q as [|q|q]; [lia| |lia].
  eexists q, e', _. split; [done|]. split; [done|].
  pose proof (digits2_pos_bounds q) as [Hloq _].
  set (dq := Zpos (digits2_pos q)) in *.
  assert (2 ^ (dq - 1 + (dq - 1)) < 2 ^ (d + s)) as Hp.
  { rewrite (Z.pow_add_r 2 (dq - 1) (dq - 1)) by lia. nia. }
  apply Z.pow_lt_mono_r_iff in Hp; [|lia|lia]. unfold s in *. lia.
Qed.

(** [1 / n] for a positive [n] up to [2^32]. *)
Lemma F32_div_one_magnitude (y : spec_float) :
  nonneg F32.prec F32.emax y -> 2 ^ K <= scaled y < 2 ^ (33 + K) ->
  magnitude_le 2 (F32.div F32.one y) /\ has_sign false (F32.div F32.one y).
Proof.
  intros Hy Hval. assert (0 <= K) as HK by (unfold K; lia).
  pose proof (pow2_pos K HK) as HpK.
  destruct y as [s|s| |s m e]; try (destruct Hy; fail).
  { cbn [scaled] in Hval. lia. }
  destruct (nonneg_finite s m e Hy) as (-> & He & _).
  cbn [scaled cond_Zopp] in Hval. destruct Hval as [Hlo Hhi].
  assert (0 <= e + K) as HeK by format_lia.
  pose proof (magnitude_below m e 33 HeK Hhi) as Hmag.
  pose proof (digits2_pos_bounds m) as [_ Hm].
  assert (1 <= Zpos (digits2_pos m) + e) as Hmag1.
  { pose proof (pow2_pos (e + K) HeK).
    assert (2 ^ K < 2 ^ (Zpos (digits2_pos m) + (e + K))) as Hp.
    { rewrite Z.pow_add_r by lia. nia. }
    apply Z.pow_lt_mono_r_iff in Hp; lia. }
  change F32.one with (S754_finite false 8388608 (-23)).
  unfold F32.div, SFdiv. cbn [xorb].
  destruct (SFdiv_core_magnitude 8388608 m (-23) e) as (q & e' & l & -> & He' & Hq).
  { cbn [digits2_pos Pos.succ]. lia. }
  cbn [digits2_pos Pos.succ] in He', Hq.
  split; [|apply binary_round_aux_sign].
  eapply magnitude_le_mono; [|apply binary_round_aux_magnitude; lia]. lia.
Qed.

Lemma F32_mul_sign (x y : spec_float) (a b : Z) :
  magnitude_le a x -> magnitude_le b y ->
  has_sign false x -> has_sign false y -> has_sign false (F32.mul x y).
Proof.
  destruct x as [sx|sx| |sx mx ex], y as [sy|sy| |sy my ey];
    cbn [magnitude_le has_sign]; try done; intros _ _ -> ->; try done.
  apply binary_round_aux_sign.
Qed.

Lemma F32_sqrt_magnitude (x : spec_float) (k : Z) :
  magnitude_le k x -> has_sign false x -> k <= 100 ->
  magnitude_le (Z.max (k + 2) 0) (F32.sqrt x).
Proof.
  intros Hx Hs Hk. destruct x as [s|s| |s m e]; cbn [magnitude_le] in Hx;
    try done.
  cbn [has_sign] in Hs. subst s. unfold F32.sqrt, SFsqrt.
  destruct (SFsqrt_core_magnitude m e) as (q & e' & l & -> & He' & Hq).
  pose proof (digits2_pos_bounds m) as [_ _].
  assert (0 < Zpos (digits2_pos m)) by lia.
  eapply magnitude_le_mono; [|apply binary_round_aux_magnitude; lia]. lia.
Qed.

(** ** normal_estimate at the ratio 0 *)

Lemma z_zero `{Libm} :
  F32.of_double (F64.mul F64.sqrt2 (F64.of_float (approximation F32.zero)))
  = S754_zero false.
Proof. rewrite approximation_zero. reflexivity. Qed.

(** [sigma] is a number: neither the product under the root nor the
    root overflows. *)
Lemma sigma_finite (sigma_total size : Z) :
  0 <= sigma_total < 2 ^ 48 -> 1 <= size <= INT_MAX ->
  exists k,
    magnitude_le k
      (F32.sqrt (F32.mul (F32.of_Z sigma_total)
                         (F32.div F32.one (F32.of_Z size)))).
Proof.
  intros Hsigma Hsize. assert (0 <= K) as HK by (unfold K; lia).
  pose proof (pow2_pos K HK) as HpK.
  destruct (F32_of_Z_int size ltac:(lia)) as (Hnn & Hv & _ & Hhi).
  assert (2 ^ K <= scaled (F32.of_Z size)) as Hlo.
  { rewrite Hv. rewrite <- (Z.mul_1_l (2 ^ K)) at 1.
    apply rounded_ge; [nia|]. apply representable_Z; [format_lia|].
    unfold F32.prec. lia. }
  destruct (F32_div_one_magnitude (F32.of_Z size) Hnn) as [Hq Hqs].
  { split; [done|]. eapply Z.le_lt_trans; [exact Hhi|].
    apply Z.pow_lt_mono_r; lia. }
  pose proof (F32_of_Z_magnitude sigma_total 48 Hsigma ltac:(lia)) as Hs.
  pose proof (F32_of_Z_sign sigma_total ltac:(lia)) as Hss.
  pose proof (F32_mul_magnitude _ _ _ _ Hs Hq ltac:(lia)) as Hm.
  pose proof (F32_mul_sign _ _ _ _ Hs Hq Hss Hqs) as Hms.
  eexists. apply (F32_sqrt_magnitude _ _ Hm Hms). lia.
Qed.

(** X21: on every image with at least one pixel, [normal_estimate]
    with the ratio 0 returns the average of the pixels and leaves the
    buffer as it is, whatever [pow] the library provides:
    [sigma_total] is the exact sum of the squared distances to the
    average, [sigma] is a number, [z] is 0, and the sum
    [average + z * sigma] is the average. *)
Theorem normal_estimate_ratio_0 `{Libm} (buf : buffer) (width height : Z) :
  image_of buf width height -> buf <> [] ->
  normal_estimate width height F32.zero buf = Ok (mean buf, buf).
Proof.
  intros Himg Hne. pose proof Himg as (Hlen & Hmax & Hpix).
  assert (0 <= K) as HK by (unfold K; lia).
  pose proof (pow2_pos K HK) as HpK.
  pose proof (mean_is_Pixel buf Hpix) as Hm.
  pose proof (square_sum_bounds (mean buf) buf Hpix Hm) as Hsq.
  assert (1 <= Z.of_nat (length buf)) as Hlen1
    by (destruct buf; [done|cbn [length]; lia]).
  assert (0 <= square_sum (mean buf) buf < 2 ^ 48) as Hsq'
    by (unfold INT_MAX in *; lia).
  unfold normal_estimate, normal_estimate_value.
  rewrite (bind_Ok _ _ _
             (F32.add (F32.of_Z (mean buf))
                (F32.mul (S754_zero false)
                   (F32.sqrt (F32.mul (F32.of_Z (square_sum (mean buf) buf))
                      (F32.div F32.one (F32.of_Z (Z.of_nat (length buf))))))))
             buf).
  2:{ rewrite (average_run buf width height _ Himg Hne).
      rewrite (bind_Ok _ _ _ (square_sum (mean buf) buf) buf).
      2:{ rewrite Nat2Z.id.
          rewrite (sum_squares_spec buf (mean buf) _ 0 0 Hpix Hm);
            rewrite ?drop_0; [done|lia|lia|lia]. }
      cbv zeta. by rewrite z_zero. }
  apply lift_Ok.
  destruct (sigma_finite (square_sum (mean buf) buf) (Z.of_nat (length buf)))
    as [k Hk]; [done|lia|].
  set (sigma := F32.sqrt _) in *. clearbody sigma.
  assert (exists s, F32.mul (S754_zero false) sigma = S754_zero s) as [s ->].
  { destruct sigma as [s|s| |s m e]; cbn [magnitude_le] in Hk; try done;
      eexists; reflexivity. }
  unfold is_Pixel in Hm. change PIXEL_MAX with 255 in Hm.
  destruct (F32_of_Z_scaled (mean buf)) as [Hna Hva]; [lia|].
  destruct (SFadd_scaled (prec := F32.prec) (emax := F32.emax)
              (F32.of_Z (mean buf)) (S754_zero s) 9) as [Hnn Hv];
    [done|done| |format_lia|].
  { rewrite Hva. cbn [scaled]. rewrite (Z.pow_add_r 2 9 K) by lia.
    change (2 ^ 9) with 512. nia. }
  rewrite Hva in Hv. cbn [scaled] in Hv. rewrite Z.add_0_r in Hv.
  rewrite rounded_representable in Hv
    by (apply representable_Z; [format_lia|unfold F32.prec; lia]).
  unfold float_to_Pixel, float_to, F32.add.
  rewrite (SFtrunc_scaled (prec := F32.prec) (emax := F32.emax) _ Hnn), Hv.
  rewrite Z.div_mul by lia. change PIXEL_MAX with 255.
  destruct (Z.leb_spec 0 (mean buf)); [|lia].
  destruct (Z.leb_spec (mean buf) 255); [done|lia].
Qed.

(** ** The undefined behaviour main can reach *)

Lemma on_image_Ok {A} (c : prog buffer A) (img cp b : buffer) (a : A) :
  c img = Ok (a, b) ->
  on_image c {| image := img; copy := cp |}
  = Ok (a, {| image := b; copy := cp |}).
Proof. unfold on_image. cbn [image copy]. by intros ->. Qed.

Lemma on_image_Fault {A} (c : prog buffer A) (img cp : buffer) (f : fault) :
  c img = Fault f ->
  on_image c {| image := img; copy := cp |} = Fault f.
Proof. unfold on_image. cbn [image]. by intros ->. Qed.

Lemma in_unit_Ratio : in_unit Ratio.
Proof. split; reflexivity. Qed.

Lemma index_of_Ratio (size : Z) :
  0 < size <= 2 ^ 24 ->
  exists n, index_of size Ratio = Ok n /\ 0 <= n < size.
Proof.
  intros Hsize. assert (0 <= K) as HK by (unfold K; lia).
  pose proof (pow2_pos K HK) as HpK.
  destruct (cutoff_of_small size Ratio ltac:(lia) in_unit_Ratio eq_refl)
    as [Hc Hx].
  assert (2 * scaled Ratio <= 2 ^ K) as Hhalf
    by (apply Z.leb_le; vm_compute; reflexivity).
  assert (scaled Ratio < 2 ^ K) as Hone by lia.
  destruct (Z.eq_dec size 1) as [->|Hne].
  { exists 0. split; [reflexivity|lia]. }
  destruct (rounded_between (size * scaled Ratio) 0 (size - 1)) as [Hlo Hhi];
    [lia|lia| |].
  { split; [lia|]. nia. }
  eexists. split; [|split; [exact Hlo|lia]].
  apply cutoff_of_index_of; [exact Hc|]. unfold INT_MAX. lia.
Qed.

Section MainOutcome.
Context {nth : NthElement} {libm : Libm}.

Lemma run_std_sort_Ok (img : buffer) (width height : Z) :
  image_of img width height -> 0 < width * height <= 2 ^ 24 ->
  exists t, run_std_sort width height {| image := img; copy := img |}
            = Ok (t, {| image := img; copy := img |}).
Proof.
  intros Himg Hsize.
  destruct (index_of_Ratio (width * height) Hsize) as (n & Hn & Hb).
  destruct (sorts_agree_in_bounds img width height Ratio n Himg Hn)
    as (v & b & _ & Hs & _); [lia|].
  exists v. unfold run_std_sort.
  rewrite (bind_Ok _ _ _ _ _ (on_image_Ok _ _ _ _ _ Hs)).
  rewrite (bind_Ok _ _ _ _ _
             (restore_image_spec img _ width height Himg
                (merge_sort_length _))).
  done.
Qed.

Lemma run_nth_element_sort_Ok (img : buffer) (width height : Z) :
  image_of img width height -> 0 < width * height <= 2 ^ 24 ->
  exists t, run_nth_element_sort width height {| image := img; copy := img |}
            = Ok (t, {| image := img; copy := img |}).
Proof.
  intros Himg Hsize.
  destruct (index_of_Ratio (width * height) Hsize) as (n & Hn & Hb).
  destruct (sorts_agree_in_bounds img width height Ratio n Himg Hn)
    as (v & b & _ & _ & Hs); [lia|].
  exists v. unfold run_nth_element_sort.
  rewrite (bind_Ok _ _ _ _ _ (on_image_Ok _ _ _ _ _ Hs)).
  rewrite (bind_Ok _ _ _ _ _
             (restore_image_spec img _ width height Himg
                (nth_element_sort_length _ _ _ _ _ _ Hs))).
  done.
Qed.

Lemma float_to_Fault (lo hi : Z) (x : spec_float) (f : fault) :
  float_to lo hi x = Fault f -> f = FloatToInt.
Proof.
  unfold float_to.
  destruct (SFtrunc x) as [n|]; [destruct (_ && _)|]; congruence.
Qed.

(** Up to the final conversion [normal_estimate] is defined on every
    image with at least one pixel. *)
Lemma normal_estimate_value_returns (buf : buffer) (width height : Z)
    (ratio : spec_float) :
  image_of buf width height -> buf <> [] ->
  exists x, normal_estimate_value width height ratio buf = Ok (x, buf).
Proof.
  intros Himg Hne. pose proof Himg as (Hlen & Hmax & Hpix).
  pose proof (mean_is_Pixel buf Hpix) as Hm.
  pose proof (square_sum_bounds (mean buf) buf Hpix Hm) as Hsq.
  unfold normal_estimate_value.
  rewrite (average_run buf width height _ Himg Hne).
  rewrite (bind_Ok _ _ _ (square_sum (mean buf) buf) buf).
  2:{ rewrite Nat2Z.id.
      rewrite (sum_squares_spec buf (mean buf) _ 0 0 Hpix Hm);
        rewrite ?drop_0; [done|lia|lia|unfold INT_MAX in *; lia]. }
  eexists. reflexivity.
Qed.

Lemma normal_estimate_Fault (buf : buffer) (width height : Z)
    (ratio : spec_float) (f : fault) :
  image_of buf width height -> buf <> [] ->
  normal_estimate width height ratio buf = Fault f -> f = FloatToInt.
Proof.
  intros Himg Hne. unfold normal_estimate, bind.
  destruct (normal_estimate_value_returns buf width height ratio Himg Hne)
    as [x ->].
  unfold lift. destruct (float_to_Pixel x) eqn:E; [discriminate|].
  intros [= <-]. by apply (float_to_Fault 0 PIXEL_MAX x).
Qed.

(** X22: on an image of 1 to 2^24 pixels, with the ratio 0.33f and the
    sample rate 10 of the program, the only undefined behaviour [main]
    can reach is the conversion to [Pixel] at the return of
    [normal_estimate], of a value [average + z * sigma] outside the
    range of [Pixel]: [counting_sort], [std_sort], [nth_element_sort],
    [weighted_estimate], [uniform_sample], the copies and the final
    loop are all defined.  When that conversion is defined, [main]
    completes, the written image is the image binarized with the
    threshold of [uniform_sample], and [copy] holds the decoded image.
    When it is not, the behaviour of [main] is undefined from there
    on, which is what the fault of the model stands for: the source
    does not test the value, and the language does not say what the
    program does then. *)
Theorem main_undefined_only_at_normal_estimate
    (img garbage : buffer) (width height : Z) :
  image_of img width height -> length garbage = length img ->
  0 < width * height <= 2 ^ 24 ->
  match normal_estimate width height Ratio img with
  | Ok (t, _) =>
      exists ts,
        main width height {| image := img; copy := garbage |}
        = Ok (ts, {| image := applier (uniform_sample_threshold ts) <$> img;
                     copy := img |}) /\
        estimate_threshold ts = t
  | Fault f =>
      f = FloatToInt /\
      main width height {| image := img; copy := garbage |}
      = Fault FloatToInt
  end.
Proof.
  intros Himg Hlen Hsize. pose proof Himg as (Hlen' & Hmax & Hpix).
  assert (img <> []) as Hne.
  { intros ->. cbn [length] in Hlen'. lia. }
  destruct (counting_sort_returns img width height Ratio Himg in_unit_Ratio
              eq_refl) as (t1 & H1 & _).
  destruct (run_std_sort_Ok img width height Himg Hsize) as [t2 H2].
  destruct (run_nth_element_sort_Ok img width height Himg Hsize) as [t3 H3].
  destruct (weighted_estimate_run img width height Ratio Himg Hne in_unit_Ratio
              eq_refl) as (H5 & _).
  destruct (uniform_sample_returns img width height SampleRate Ratio Himg
              ltac:(unfold SampleRate; lia) in_unit_Ratio eq_refl)
    as (t6 & H6 & _).
  assert (benchmark width height {| image := img; copy := img |}
          = match normal_estimate width height Ratio img with
            | Ok (t4, _) =>
                Ok ({| counting_sort_threshold := t1;
                       std_sort_threshold := t2;
                       nth_element_sort_threshold := t3;
                       estimate_threshold := t4;
                       weighted_threshold :=
                         weighted_value (mean img) (scaled Ratio);
                       uniform_sample_threshold := t6 |},
                    {| image := img; copy := img |})
            | Fault f => Fault f
            end) as Hbench.
  { unfold benchmark.
    rewrite (bind_Ok _ _ _ _ _ (on_image_Ok _ _ _ _ _ H1)).
    rewrite (bind_Ok _ _ _ _ _ H2), (bind_Ok _ _ _ _ _ H3).
    unfold run_normal_estimate.
    destruct (normal_estimate width height Ratio img) as [[t4 b]|f] eqn:H4.
    - pose proof (normal_estimate_readonly _ _ _ _ _ _ H4) as ->.
      rewrite (bind_Ok _ _ _ _ _ (on_image_Ok _ _ _ _ _ H4)).
      rewrite (bind_Ok _ _ _ _ _ (on_image_Ok _ _ _ _ _ H5)).
      by rewrite (bind_Ok _ _ _ _ _ (on_image_Ok _ _ _ _ _ H6)).
    - by apply bind_Fault, on_image_Fault. }
  unfold main.
  rewrite (bind_Ok _ _ _ _ _ (save_image_spec _ _ _ _ Himg Hlen)).
  destruct (normal_estimate width height Ratio img) as [[t4 b]|f] eqn:H4.
  - exists {| counting_sort_threshold := t1;
              std_sort_threshold := t2;
              nth_element_sort_threshold := t3;
              estimate_threshold := t4;
              weighted_threshold := weighted_value (mean img) (scaled Ratio);
              uniform_sample_threshold := t6 |}.
    split.
    + rewrite (bind_Ok _ _ _ _ _ Hbench). cbn [uniform_sample_threshold].
      rewrite (bind_Ok _ _ _ _ _
                (on_image_Ok _ _ _ _ _ (binarize_spec img width height t6
                                          Hlen' Hmax))).
      reflexivity.
    + reflexivity.
  - pose proof (normal_estimate_Fault img width height Ratio f Himg Hne H4)
      as ->.
    split; [done|]. by apply bind_Fault.
Qed.
End MainOutcome.

(** ** The theorems at concrete images *)

Ltac image_of_concrete :=
  split; [reflexivity|]; split; [unfold INT_MAX; lia|];
  unfold is_Pixel; change PIXEL_MAX with 255; repeat constructor; lia.

Ltac image_of_list :=
  split; [reflexivity|split; [unfold INT_MAX; lia|]];
  repeat (apply List.Forall_cons;
          [unfold is_Pixel; change PIXEL_MAX with 255; lia|]);
  apply List.Forall_nil.

Lemma binarize_applies_threshold_witness :
  Z.of_nat (length [0; 100; 100; 255]) = 1 * 4 /\ 1 * 4 <= INT_MAX /\
  exists out,
    binarize 1 4 100 [0; 100; 100; 255] = Ok (tt, out) /\
    length out = length [0; 100; 100; 255] /\
    (forall i p, [0; 100; 100; 255] !! i = Some p ->
       out !! i = Some (if decide (p > 100) then PIXEL_MAX
                        else if decide (p < 100) then 0
                        else if decide (p = 0 \/ p = PIXEL_MAX) then p
                        else 0)) /\
    Forall (fun q => q = 0 \/ q = PIXEL_MAX) out /\
    (0 <= 100 < PIXEL_MAX ->
     binarize 1 4 100 [0; 100; 100; PIXEL_MAX] = Ok (tt, [0; 0; 0; PIXEL_MAX])).
Proof.
  split; [reflexivity|]. split; [unfold INT_MAX; lia|].
  apply (binarize_applies_threshold [0; 100; 100; 255] 1 4 100);
    [reflexivity|unfold INT_MAX; lia].
Defined.

Lemma in_unit_ratio_0_4 : in_unit ratio_0_4.
Proof. split; reflexivity. Defined.

Lemma std_sort_returns_order_statistic_witness :
  let buf := [50; 20; 30; 40; 10] in
  image_of buf 1 5 /\ in_unit ratio_0_4 /\
  valid_binary F32.prec F32.emax ratio_0_4 = true /\
  index_of (1 * 5) ratio_0_4 = Ok 2 /\ 2 < 1 * 5 /\ 1 * 5 <= 2 ^ 24 /\
  (exists v sorted,
     std_sort 1 5 ratio_0_4 buf = Ok (v, sorted) /\
     Sorted Z.le sorted /\ sorted ≡ₚ buf /\
     0 <= 2 /\ sorted !! Z.to_nat 2 = Some v /\
     Z.of_nat (length (filter (fun x => x < v) buf)) <= 2
     < Z.of_nat (length (filter (fun x => x <= v) buf))) /\
  (exists n, index_of (1 * 5) ratio_0_4 = Ok n /\
     1 * 5 * scaled ratio_0_4 / 2 ^ K <= n
       <= 1 * 5 * scaled ratio_0_4 / 2 ^ K + 1 /\
     n <= 1 * 5).
Proof.
  intros buf.
  assert (image_of buf 1 5) as Himg by image_of_list.
  assert (1 * 5 <= 2 ^ 24) as Hsmall by lia.
  assert (2 < 1 * 5) as Hlt by lia.
  destruct (std_sort_returns_order_statistic buf 1 5 ratio_0_4
              Himg in_unit_ratio_0_4 eq_refl) as [Hsorted Hindex].
  split; [exact Himg|]. split; [exact in_unit_ratio_0_4|].
  split; [reflexivity|]. split; [reflexivity|]. split; [exact Hlt|].
  split; [exact Hsmall|].
  split; [exact (Hsorted 2 eq_refl Hlt)|exact (Hindex Hsmall)].
Defined.

Lemma non_destructive_estimators_witness :
  Z.of_nat (length [10; 20; 30; 40; 50; 60]) = 2 * 3 /\
  let buf := [10; 20; 30; 40; 50; 60] in
  let pure_on_image (estimator : prog buffer Z) :=
    (forall t buf', estimator buf = Ok (t, buf') -> buf' = buf) /\
    estimator (buf ++ [7; 7]) = extend [7; 7] (estimator buf) in
  pure_on_image (counting_sort 2 3 Ratio) /\
  pure_on_image (normal_estimate 2 3 Ratio) /\
  pure_on_image (weighted_estimate 2 3 Ratio) /\
  pure_on_image (uniform_sample 2 3 SampleRate Ratio).
Proof.
  split; [reflexivity|].
  apply (non_destructive_estimators [10; 20; 30; 40; 50; 60] [7; 7] 2 3
           SampleRate Ratio). reflexivity.
Defined.

Lemma zero_cutoff_returns_PIXEL_MAX_witness :
  image_of [10; 20; 30; 40; 50] 1 5 /\ 1 <= 2 < 2 ^ 32 /\
  cutoff_of (Z.of_nat (length [10; 20; 30; 40; 50]) / 2) ratio_0_4 = Ok 0 /\
  counting_sort 1 5 F32.zero [10; 20; 30; 40; 50]
  = Ok (2 ^ BIT_DEPTH - 1, [10; 20; 30; 40; 50]) /\
  uniform_sample 1 5 2 ratio_0_4 [10; 20; 30; 40; 50]
  = Ok (2 ^ BIT_DEPTH - 1, [10; 20; 30; 40; 50]).
Proof.
  assert (image_of [10; 20; 30; 40; 50] 1 5) as Himg by image_of_concrete.
  split; [exact Himg|]. split; [lia|]. split; [reflexivity|].
  destruct (zero_cutoff_returns_PIXEL_MAX [10; 20; 30; 40; 50] 1 5 2 ratio_0_4
              Himg ltac:(lia))
    as (_ & _ & _ & _ & _ & Huniform & Hcounting & _).
  split; [exact Hcounting|apply Huniform; reflexivity].
Defined.

Lemma sorted_read_bounds_witness :
  image_of [50; 20; 30; 40; 10] 1 5 /\ in_unit F32.one /\
  index_of (1 * 5) F32.one = Ok 5 /\
  std_sort 1 5 F32.one [50; 20; 30; 40; 10] = Fault OutOfBounds /\
  nth_element_sort 1 5 F32.one [50; 20; 30; 40; 10] = Fault OutOfBounds.
Proof.
  assert (image_of [50; 20; 30; 40; 10] 1 5) as Himg by image_of_concrete.
  assert (in_unit F32.one) as Hunit by (split; reflexivity).
  split; [exact Himg|]. split; [exact Hunit|]. split; [reflexivity|].
  destruct (sorted_read_bounds [50; 20; 30; 40; 10] 1 5 F32.one 5
              Himg Hunit ltac:(reflexivity)) as (_ & _ & Hone).
  apply Hone. lia.
Defined.

Lemma every_estimator_sees_the_decoded_image_witness :
  let img := [60; 20; 30; 255; 50; 10] in
  let garbage := [0; 0; 0; 0; 0; 0] in
  let sorted := [10; 20; 30; 50; 60; 255] in
  let decoded := {| image := img; copy := img |} in
  let ts := {| counting_sort_threshold := 10; std_sort_threshold := 20;
               nth_element_sort_threshold := 20; estimate_threshold := 114;
               weighted_threshold := 46; uniform_sample_threshold := 255 |} in
  let h' := {| image := [0; 0; 0; 255; 0; 0]; copy := img |} in
  image_of img 2 3 /\ length garbage = length img /\
  (* the two sorting estimators leave another image behind ... *)
  on_image (std_sort 2 3 Ratio) decoded
  = Ok (20, {| image := sorted; copy := img |}) /\
  on_image (nth_element_sort 2 3 Ratio) decoded
  = Ok (20, {| image := sorted; copy := img |}) /\
  (* ... and their blocks put the decoded image back *)
  run_std_sort 2 3 decoded = Ok (20, decoded) /\
  run_nth_element_sort 2 3 decoded = Ok (20, decoded) /\
  save_image 2 3 {| image := img; copy := garbage |} = Ok (tt, decoded) /\
  Forall (fun block : prog heap Z =>
            forall t h, block decoded = Ok (t, h) -> h = decoded)
    [run_counting_sort 2 3; run_std_sort 2 3; run_nth_element_sort 2 3;
     run_normal_estimate 2 3; run_weighted_estimate 2 3;
     run_uniform_sample 2 3] /\
  main 2 3 {| image := img; copy := garbage |} = Ok (ts, h') /\
  counting_sort 2 3 Ratio img = Ok (10, img) /\
  (exists sorted, std_sort 2 3 Ratio img = Ok (20, sorted)) /\
  (exists permuted, nth_element_sort 2 3 Ratio img = Ok (20, permuted)) /\
  normal_estimate 2 3 Ratio img = Ok (114, img) /\
  weighted_estimate 2 3 Ratio img = Ok (46, img) /\
  uniform_sample 2 3 SampleRate Ratio img = Ok (255, img) /\
  binarize 2 3 255 img = Ok (tt, [0; 0; 0; 255; 0; 0]) /\
  img = img.
Proof.
  intros img garbage sorted decoded ts h'.
  assert (image_of img 2 3) as Himg by image_of_list.
  split; [exact Himg|]. split; [reflexivity|].
  split; [vm_compute; reflexivity|]. split; [vm_compute; reflexivity|].
  split; [vm_compute; reflexivity|]. split; [vm_compute; reflexivity|].
  assert (main 2 3 {| image := img; copy := garbage |} = Ok (ts, h')) as Hmain
    by (vm_compute; reflexivity).
  destruct (@every_estimator_sees_the_decoded_image sort_NthElement mul_Libm
              img garbage 2 3 Himg eq_refl) as (Hsave & Hblocks & Hruns).
  split; [exact Hsave|]. split; [exact Hblocks|]. split; [exact Hmain|].
  exact (Hruns ts h' Hmain).
Defined.

(** The index is the truncated single-precision product, which is not
    always the floor of the exact one: 0.7f is 11744051 / 2^24, below
    7/10, and ten times it rounds to 7.0. *)
Example index_of_rounds_up :
  let ratio_0_7 := F32.div (F32.of_Z 7) (F32.of_Z 10) in
  ratio_0_7 = S754_finite false 11744051 (-24) /\
  10 * 11744051 < 7 * 2 ^ 24 /\
  index_of 10 ratio_0_7 = Ok 7.
Proof. repeat split. Qed.

(** C5 as it was stated, with the index [floor(N * ratio)], fails
    where the single-precision product rounds up to an integer.  0.7f
    is 11744051 / 2^24, below 7/10, so for 10 pixels the integer part
    of [N * ratio] is 6, below [N]; but ten times 0.7f is 7.0 in
    single precision, and [std_sort] returns the element at index 7 of
    the sorted buffer, 80, not the one at index 6, 70. *)
Theorem std_sort_reads_above_the_floor :
  let ratio_0_7 := F32.div (F32.of_Z 7) (F32.of_Z 10) in
  let buf := [100; 20; 80; 40; 60; 50; 70; 30; 90; 10] in
  let sorted := [10; 20; 30; 40; 50; 60; 70; 80; 90; 100] in
  buf <> [] /\ image_of buf 1 10 /\ in_unit ratio_0_7 /\
  ratio_0_7 = S754_finite false 11744051 (-24) /\
  10 * 11744051 / 2 ^ 24 = 6 /\
  1 * 10 * scaled ratio_0_7 / 2 ^ K = 6 /\
  6 < 1 * 10 /\
  sorted !! 6%nat = Some 70 /\ sorted !! 7%nat = Some 80 /\
  std_sort 1 10 ratio_0_7 buf = Ok (80, sorted) /\
  std_sort 1 10 ratio_0_7 buf <> Ok (70, sorted).
Proof.
  intros ratio_0_7 buf sorted.
  assert (std_sort 1 10 ratio_0_7 buf = Ok (80, sorted)) as Hrun
    by (vm_compute; reflexivity).
  split; [discriminate|]. split; [image_of_list|].
  split; [split; reflexivity|]. split; [reflexivity|].
  split; [reflexivity|]. split; [vm_compute; reflexivity|].
  split; [lia|]. split; [reflexivity|]. split; [reflexivity|].
  split; [exact Hrun|]. rewrite Hrun. discriminate.
Qed.

(** With the ratio 0.33f of the program and the reference [pow], an
    image of one black and nine white pixels takes [normal_estimate]
    to 269, outside the range of [Pixel]. *)

Example normal_estimate_at_program_ratio :
  let buf := [0; 255; 255; 255; 255; 255; 255; 255; 255; 255] in
  (exists x, normal_estimate_value 2 5 Ratio buf = Ok (x, buf) /\
             SFtrunc x = Some 269) /\
  normal_estimate 2 5 Ratio buf = Fault FloatToInt.
Proof.
  intros buf. split; [|vm_compute; reflexivity].
  exists (S754_finite false 8816562 (-15)). split; vm_compute; reflexivity.
Qed.

(** [weighted_estimate] on the image of the worked example: 0 at the
    ratio 0, 24 at the ratio 0.4 (80% of the mean 30), the maximum at
    the ratio 1. *)
Example weighted_estimate_samples :
  let buf := [10; 20; 30; 40; 50] in
  weighted_estimate 1 5 F32.zero buf = Ok (0, buf) /\
  weighted_estimate 1 5 ratio_0_4 buf = Ok (24, buf) /\
  weighted_estimate 1 5 F32.one buf = Ok (PIXEL_MAX, buf).
Proof. repeat split. Qed.

(** On the same image, along the ratios 0/100, 1/100, ..., 100/100:
    [weighted_estimate] returns every time, and the thresholds never
    decrease. *)
Example weighted_estimate_monotone_on_a_grid :
  let buf := [10; 20; 30; 40; 50] in
  let ratios := (fun k => F32.div (F32.of_Z k) (F32.of_Z 100)) <$> seqZ 0 101 in
  exists ts : list Z,
    (fun r => weighted_estimate 1 5 r buf) <$> ratios
    = (fun t => Ok (t, buf)) <$> ts /\
    Sorted Z.le ts /\ Forall (fun t => 0 <= t <= PIXEL_MAX) ts.
Proof.
  intros buf ratios.
  exists ((fun r => match weighted_estimate 1 5 r buf with
                    | Ok (t, _) => t
                    | Fault _ => -1
                    end) <$> ratios).
  split; [vm_compute; reflexivity|].
  split; apply (bool_decide_unpack _); vm_compute; exact I.
Qed.

(** ** The further properties at concrete images *)

Lemma counting_sort_least_threshold_witness :
  let buf := [50; 20; 30; 40; 10] in
  image_of buf 1 5 /\ cutoff_of (1 * 5) ratio_0_4 = Ok 2 /\
  exists v, counting_sort 1 5 ratio_0_4 buf = Ok (v, buf) /\
            v ∈ buf /\ forall u, 2 <= below (u + 1) buf <-> v <= u.
Proof.
  intros buf.
  assert (image_of buf 1 5) as Himg by image_of_list.
  split; [exact Himg|]. split; [reflexivity|].
  apply (counting_sort_least_threshold buf 1 5 ratio_0_4 2);
    [exact Himg|reflexivity|lia].
Defined.

Lemma counting_sort_cutoff_beyond_image_witness :
  let buf := [10; 20; 30] in
  image_of buf 1 3 /\ cutoff_of (1 * 3) (F32.of_Z 2) = Ok 6 /\
  counting_sort 1 3 (F32.of_Z 2) buf = Ok (PIXEL_MAX, buf).
Proof.
  intros buf.
  assert (image_of buf 1 3) as Himg by image_of_list.
  split; [exact Himg|]. split; [reflexivity|].
  apply (counting_sort_cutoff_beyond_image buf 1 3 (F32.of_Z 2) 6);
    [exact Himg|reflexivity|lia].
Defined.

Lemma counting_sort_monotone_in_cutoff_witness :
  let buf := [50; 20; 30; 40; 10] in
  image_of buf 1 5 /\
  cutoff_of (1 * 5) ratio_0_4 = Ok 2 /\ cutoff_of (1 * 5) F32.one = Ok 5 /\
  exists t1 t2, counting_sort 1 5 ratio_0_4 buf = Ok (t1, buf) /\
                counting_sort 1 5 F32.one buf = Ok (t2, buf) /\
                t1 <= t2.
Proof.
  intros buf.
  assert (image_of buf 1 5) as Himg by image_of_list.
  split; [exact Himg|]. split; [reflexivity|]. split; [reflexivity|].
  apply (counting_sort_monotone_in_cutoff buf 1 5 ratio_0_4 F32.one 2 5);
    [exact Himg|reflexivity|reflexivity|lia].
Defined.

Lemma exact_estimators_see_the_multiset_witness :
  let buf1 := [50; 20; 30; 40; 10] in
  let buf2 := [20; 50; 30; 40; 10] in
  image_of buf1 1 5 /\ buf1 ≡ₚ buf2 /\
  threshold_of (counting_sort 1 5 ratio_0_4 buf1)
  = threshold_of (counting_sort 1 5 ratio_0_4 buf2) /\
  std_sort 1 5 ratio_0_4 buf1 = std_sort 1 5 ratio_0_4 buf2 /\
  threshold_of (nth_element_sort 1 5 ratio_0_4 buf1)
  = threshold_of (nth_element_sort 1 5 ratio_0_4 buf2).
Proof.
  intros buf1 buf2.
  assert (image_of buf1 1 5) as Himg by image_of_list.
  assert (buf1 ≡ₚ buf2) as Hperm by apply perm_swap.
  split; [exact Himg|]. split; [exact Hperm|].
  exact (exact_estimators_see_the_multiset buf1 buf2 1 5 ratio_0_4 Himg Hperm).
Defined.

Lemma uniform_sample_order_statistic_witness :
  let buf := [50; 1; 20; 2; 30; 3; 40; 4; 10; 5] in
  image_of buf 2 5 /\ cutoff_of (2 * 5 / 2) ratio_0_4 = Ok 2 /\
  samples 2 buf = [50; 20; 30; 40; 10] /\
  exists v,
    uniform_sample 2 5 2 ratio_0_4 buf = Ok (v, buf) /\
    merge_sort Z.le (samples 2 buf) !! Z.to_nat (2 - 1) = Some v /\
    forall u, 2 <= below (u + 1) (samples 2 buf) <-> v <= u.
Proof.
  intros buf.
  assert (image_of buf 2 5) as Himg by image_of_list.
  split; [exact Himg|]. split; [reflexivity|]. split; [reflexivity|].
  apply (uniform_sample_order_statistic buf 2 5 2 ratio_0_4 2);
    [exact Himg|lia|reflexivity|].
  change (2 * 5 / 2) with 5. lia.
Defined.

Lemma uniform_sample_sees_the_samples_only_witness :
  let buf1 := [50; 1; 20; 2; 30; 3; 40; 4; 10; 5] in
  let buf2 := [50; 255; 20; 254; 30; 253; 40; 252; 10; 251] in
  image_of buf1 2 5 /\ image_of buf2 2 5 /\ samples 2 buf1 = samples 2 buf2 /\
  threshold_of (uniform_sample 2 5 2 ratio_0_4 buf1)
  = threshold_of (uniform_sample 2 5 2 ratio_0_4 buf2).
Proof.
  intros buf1 buf2.
  assert (image_of buf1 2 5) as Himg1 by image_of_list.
  assert (image_of buf2 2 5) as Himg2 by image_of_list.
  assert (samples 2 buf1 = samples 2 buf2) as Hsame by (vm_compute; reflexivity).
  split; [exact Himg1|]. split; [exact Himg2|]. split; [exact Hsame|].
  apply (uniform_sample_sees_the_samples_only buf1 buf2 2 5 2 ratio_0_4);
    [exact Himg1|exact Himg2|lia|exact Hsame].
Defined.

Lemma uniform_sample_is_counting_sort_of_samples_witness :
  let buf := [50; 1; 20; 2; 30; 3; 40; 4; 10; 5] in
  image_of buf 2 5 /\ (2 | 2 * 5) /\
  threshold_of (uniform_sample 2 5 2 ratio_0_4 buf)
  = threshold_of (counting_sort (2 * 5 / 2) 1 ratio_0_4 (samples 2 buf)).
Proof.
  intros buf.
  assert (image_of buf 2 5) as Himg by image_of_list.
  assert (2 | 2 * 5) as Hdiv by (exists 5; reflexivity).
  split; [exact Himg|]. split; [exact Hdiv|].
  apply (uniform_sample_is_counting_sort_of_samples buf 2 5 2 ratio_0_4);
    [exact Himg|lia|exact Hdiv].
Defined.

Lemma uniform_sample_stride_0_witness :
  let buf := [10; 20; 30] in
  image_of buf 1 3 /\
  (forall fuel count, length count = Z.to_nat BINS ->
     uniform_sample_fill fuel (1 * 3) 0 0 count buf = Fault OutOfFuel) /\
  uniform_sample 1 3 0 Ratio buf = Fault OutOfFuel /\
  uniform_sample 0 3 0 Ratio [] = Fault DivisionByZero.
Proof.
  intros buf.
  assert (image_of buf 1 3) as Himg by image_of_list.
  assert (image_of [] 0 3) as Himg0 by image_of_list.
  split; [exact Himg|].
  destruct (uniform_sample_stride_0 buf 1 3 Ratio Himg) as [Hloop _].
  destruct (uniform_sample_stride_0 [] 0 3 Ratio Himg0) as [_ Hdiv].
  destruct (Hloop ltac:(discriminate)) as [H1 H2].
  split; [exact H1|]. split; [exact H2|]. exact (Hdiv eq_refl).
Defined.

Lemma binarize_idempotent_witness :
  let buf := [0; 100; 120; 255] in
  image_of buf 2 2 /\
  exists out, binarize 2 2 100 buf = Ok (tt, out) /\
              binarize 2 2 100 out = Ok (tt, out).
Proof.
  intros buf.
  assert (image_of buf 2 2) as Himg by image_of_list.
  split; [exact Himg|]. exact (binarize_idempotent buf 2 2 100 Himg).
Defined.

Lemma binarize_black_pixels_witness :
  let buf := [0; 100; 120; 255] in
  image_of buf 2 2 /\ 100 <= PIXEL_MAX /\
  exists out,
    binarize 2 2 100 buf = Ok (tt, out) /\
    occurrences 0 out = below (Z.min (100 + 1) PIXEL_MAX) buf /\
    occurrences PIXEL_MAX out
    = 2 * 2 - below (Z.min (100 + 1) PIXEL_MAX) buf.
Proof.
  intros buf.
  assert (image_of buf 2 2) as Himg by image_of_list.
  assert (100 <= PIXEL_MAX) as HT by (change PIXEL_MAX with 255; lia).
  split; [exact Himg|]. split; [exact HT|].
  exact (binarize_black_pixels buf 2 2 100 Himg HT).
Defined.

Lemma uniform_sample_then_binarize_witness :
  let buf := [50; 1; 20; 2; 30; 3; 40; 4; 10; 5] in
  image_of buf 2 5 /\ cutoff_of (2 * 5 / 2) ratio_0_4 = Ok 2 /\
  exists T out,
    uniform_sample 2 5 2 ratio_0_4 buf = Ok (T, buf) /\
    binarize 2 5 T buf = Ok (tt, out) /\
    (2 <= occurrences 0 (samples 2 out) <-> T < PIXEL_MAX) /\
    forall T' out',
      T' < T -> binarize 2 5 T' buf = Ok (tt, out') ->
      occurrences 0 (samples 2 out') < 2.
Proof.
  intros buf.
  assert (image_of buf 2 5) as Himg by image_of_list.
  split; [exact Himg|]. split; [reflexivity|].
  apply (uniform_sample_then_binarize buf 2 5 2 ratio_0_4 2);
    [exact Himg|lia|reflexivity|].
  change (2 * 5 / 2) with 5. lia.
Defined.

Lemma empty_image_witness :
  0 * 7 = 0 /\ in_unit Ratio /\
  normal_estimate 0 7 Ratio [] = Fault DivisionByZero /\
  weighted_estimate 0 7 Ratio [] = Fault DivisionByZero /\
  std_sort 0 7 Ratio [] = Fault OutOfBounds /\
  nth_element_sort 0 7 Ratio [] = Fault OutOfBounds /\
  counting_sort 0 7 Ratio [] = Ok (PIXEL_MAX, []) /\
  uniform_sample 0 7 SampleRate Ratio [] = Ok (PIXEL_MAX, []).
Proof.
  assert (in_unit Ratio) as Hunit by (split; reflexivity).
  split; [reflexivity|]. split; [exact Hunit|].
  exact (empty_image 0 7 Ratio eq_refl Hunit).
Defined.

Lemma std_sort_keeps_sorted_images_only_witness :
  let buf := [50; 20; 30; 40; 10] in
  image_of buf 1 5 /\ index_of (1 * 5) ratio_0_4 = Ok 2 /\
  exists v buf',
    std_sort 1 5 ratio_0_4 buf = Ok (v, buf') /\
    (buf' = buf <-> Sorted Z.le buf).
Proof.
  intros buf.
  assert (image_of buf 1 5) as Himg by image_of_list.
  split; [exact Himg|]. split; [reflexivity|].
  apply (std_sort_keeps_sorted_images_only buf 1 5 ratio_0_4 2);
    [exact Himg|reflexivity|lia].
Defined.

Lemma main_blackens_small_images_witness :
  let img := [10; 20; 30; 255; 50; 60] in
  exists ts h',
    main 2 3 {| image := img; copy := [0; 0; 0; 0; 0; 0] |} = Ok (ts, h') /\
    uniform_sample_threshold ts = PIXEL_MAX /\
    image h' = [0; 0; 0; 255; 0; 0].
Proof.
  intros img.
  destruct (main 2 3 {| image := img; copy := [0; 0; 0; 0; 0; 0] |})
    as [[ts h']|] eqn:Hmain; [|by vm_compute in Hmain].
  exists ts, h'. split; [done|].
  assert (image_of img 2 3) as Himg by image_of_list.
  exact (main_blackens_small_images img [0; 0; 0; 0; 0; 0] 2 3 ts h'
           Himg eq_refl ltac:(lia) Hmain).
Defined.

Lemma weighted_estimate_between_witness :
  let buf := [10; 20; 30; 40; 50] in
  image_of buf 1 5 /\ buf <> [] /\ in_unit ratio_0_4 /\
  valid_binary F32.prec F32.emax ratio_0_4 = true /\
  exists t, weighted_estimate 1 5 ratio_0_4 buf = Ok (t, buf) /\
    if above_half ratio_0_4 then mean buf <= t <= PIXEL_MAX
    else 0 <= t <= mean buf.
Proof.
  intros buf.
  assert (image_of buf 1 5) as Himg by image_of_list.
  assert (buf <> []) as Hne by discriminate.
  assert (in_unit ratio_0_4) as Hunit by (split; reflexivity).
  split; [exact Himg|]. split; [exact Hne|]. split; [exact Hunit|].
  split; [reflexivity|].
  exact (weighted_estimate_between buf 1 5 ratio_0_4 Himg Hne Hunit eq_refl).
Defined.

Lemma weighted_estimate_monotone_witness :
  let buf := [10; 20; 30; 40; 50] in
  image_of buf 1 5 /\ buf <> [] /\
  in_unit ratio_0_4 /\ valid_binary F32.prec F32.emax ratio_0_4 = true /\
  in_unit F32.one /\ valid_binary F32.prec F32.emax F32.one = true /\
  SFleb ratio_0_4 F32.one = true /\
  exists t1 t2, weighted_estimate 1 5 ratio_0_4 buf = Ok (t1, buf) /\
                weighted_estimate 1 5 F32.one buf = Ok (t2, buf) /\
                t1 <= t2.
Proof.
  intros buf.
  assert (image_of buf 1 5) as Himg by image_of_list.
  assert (buf <> []) as Hne by discriminate.
  assert (in_unit ratio_0_4) as Hu1 by (split; reflexivity).
  assert (in_unit F32.one) as Hu2 by (split; reflexivity).
  split; [exact Himg|]. split; [exact Hne|]. split; [exact Hu1|].
  split; [reflexivity|]. split; [exact Hu2|]. split; [reflexivity|].
  split; [reflexivity|].
  exact (weighted_estimate_monotone buf 1 5 ratio_0_4 F32.one Himg Hne
           Hu1 eq_refl Hu2 eq_refl eq_refl).
Defined.

Lemma weighted_estimate_anchors_witness :
  let buf := [10; 20; 30; 40; 50] in
  image_of buf 1 5 /\ buf <> [] /\
  weighted_estimate 1 5 F32.zero buf = Ok (0, buf) /\
  weighted_estimate 1 5 (F32.div (F32.of_Z 1) (F32.of_Z 2)) buf
  = Ok (mean buf, buf) /\
  weighted_estimate 1 5 F32.one buf = Ok (PIXEL_MAX, buf).
Proof.
  intros buf.
  assert (image_of buf 1 5) as Himg by image_of_list.
  assert (buf <> []) as Hne by discriminate.
  split; [exact Himg|]. split; [exact Hne|].
  exact (weighted_estimate_anchors buf 1 5 Himg Hne).
Defined.

Lemma cutoff_of_monotone_witness :
  0 <= 5 <= 6 /\ 6 <= INT_MAX /\
  in_unit ratio_0_4 /\ valid_binary F32.prec F32.emax ratio_0_4 = true /\
  in_unit F32.one /\ valid_binary F32.prec F32.emax F32.one = true /\
  SFleb ratio_0_4 F32.one = true /\
  exists c1 c2, cutoff_of 5 ratio_0_4 = Ok c1 /\ cutoff_of 6 F32.one = Ok c2 /\
                0 <= c1 <= c2.
Proof.
  assert (0 <= 5 <= 6) as H1 by lia.
  assert (6 <= INT_MAX) as H2 by (unfold INT_MAX; lia).
  assert (in_unit ratio_0_4) as Hu1 by (split; reflexivity).
  assert (in_unit F32.one) as Hu2 by (split; reflexivity).
  split; [exact H1|]. split; [exact H2|]. split; [exact Hu1|].
  split; [reflexivity|]. split; [exact Hu2|]. split; [reflexivity|].
  split; [reflexivity|].
  exact (cutoff_of_monotone 5 6 ratio_0_4 F32.one H1 H2
           Hu1 eq_refl Hu2 eq_refl eq_refl).
Defined.

Lemma cutoff_of_near_product_witness :
  0 <= 5 <= 2 ^ 24 /\
  in_unit ratio_0_4 /\ valid_binary F32.prec F32.emax ratio_0_4 = true /\
  exists cutoff, cutoff_of 5 ratio_0_4 = Ok cutoff /\
    5 * scaled ratio_0_4 / 2 ^ K <= cutoff <= 5 * scaled ratio_0_4 / 2 ^ K + 1 /\
    cutoff <= 5.
Proof.
  assert (0 <= 5 <= 2 ^ 24) as H1 by lia.
  assert (in_unit ratio_0_4) as Hu1 by (split; reflexivity).
  split; [exact H1|]. split; [exact Hu1|]. split; [reflexivity|].
  exact (cutoff_of_near_product 5 ratio_0_4 H1 Hu1 eq_refl).
Defined.

Lemma sorts_return_below_one_witness :
  let buf := [50; 20; 30; 40; 10] in
  image_of buf 1 5 /\ 1 * 5 <= 2 ^ 24 /\
  in_unit ratio_0_4 /\ valid_binary F32.prec F32.emax ratio_0_4 = true /\
  1 * 5 * scaled ratio_0_4 <= (1 * 5 - 1) * 2 ^ K /\
  exists n v b,
    1 * 5 * scaled ratio_0_4 / 2 ^ K <= n
      <= 1 * 5 * scaled ratio_0_4 / 2 ^ K + 1 /\
    n < 1 * 5 /\
    merge_sort Z.le buf !! Z.to_nat n = Some v /\
    std_sort 1 5 ratio_0_4 buf = Ok (v, merge_sort Z.le buf) /\
    nth_element_sort 1 5 ratio_0_4 buf = Ok (v, b).
Proof.
  intros buf.
  assert (image_of buf 1 5) as Himg by image_of_list.
  assert (1 * 5 <= 2 ^ 24) as Hsmall by lia.
  assert (in_unit ratio_0_4) as Hunit by (split; reflexivity).
  assert (1 * 5 * scaled ratio_0_4 <= (1 * 5 - 1) * 2 ^ K) as Hbelow
    by (vm_compute; discriminate).
  split; [exact Himg|]. split; [exact Hsmall|]. split; [exact Hunit|].
  split; [reflexivity|]. split; [exact Hbelow|].
  exact (sorts_return_below_one buf 1 5 ratio_0_4 Himg Hsmall Hunit eq_refl
           Hbelow).
Defined.

Lemma normal_estimate_ratio_0_witness :
  let buf := [10; 20; 30; 40; 50] in
  image_of buf 1 5 /\ buf <> [] /\
  normal_estimate 1 5 F32.zero buf = Ok (mean buf, buf).
Proof.
  intros buf.
  assert (image_of buf 1 5) as Himg by image_of_list.
  assert (buf <> []) as Hne by discriminate.
  split; [exact Himg|]. split; [exact Hne|].
  exact (@normal_estimate_ratio_0 mul_Libm buf 1 5 Himg Hne).
Defined.

Lemma main_undefined_only_at_normal_estimate_witness :
  let img := [60; 20; 30; 255; 50; 10] in
  let garbage := [0; 0; 0; 0; 0; 0] in
  image_of img 2 3 /\ length garbage = length img /\ 0 < 2 * 3 <= 2 ^ 24 /\
  match normal_estimate 2 3 Ratio img with
  | Ok (t, _) =>
      exists ts,
        main 2 3 {| image := img; copy := garbage |}
        = Ok (ts, {| image := applier (uniform_sample_threshold ts) <$> img;
                     copy := img |}) /\
        estimate_threshold ts = t
  | Fault f =>
      f = FloatToInt /\
      main 2 3 {| image := img; copy := garbage |} = Fault FloatToInt
  end.
Proof.
  intros img garbage.
  assert (image_of img 2 3) as Himg by image_of_list.
  assert (0 < 2 * 3 <= 2 ^ 24) as Hsize by lia.
  split; [exact Himg|]. split; [reflexivity|]. split; [exact Hsize|].
  exact (@main_undefined_only_at_normal_estimate sort_NthElement mul_Libm
           img garbage 2 3 Himg eq_refl Hsize).
Defined.
